(** * Inclination correction of LIDAR point clouds: a model of [incl.py]

    The development embeds the functions of [incl.py] that the specification
    makes claims about, and proves those claims on the embedding.

    Numbers.  The program computes with IEEE doubles.  Here
    - finite timestamps and the finite values written to text files are
      rationals ([Q]), so that comparisons, sorting and formatting evaluate;
    - coordinates and inclination angles that go through [cos], [sin],
      [sqrt] or [arctan2] are real numbers ([R]);
    rounding and overflow are outside the model.  Special values are
    modelled where the code tells them apart: NaN among the cells that
    [get_incl] reads and among the times that [warp_cloud] compares
    ([float]); the zero with a minus sign among the coordinates given to
    [np.arctan2] ([coord]); NaN, the infinities and the zero with a minus
    sign among the values that [save_incl] prints ([double]).

    Failures.  A Python exception is a [Raise] result. *)

From Stdlib Require Import String Ascii DecimalString DecimalPos.
From Stdlib Require Import List Arith ZArith QArith Reals Lra Lia Bool.
From Stdlib Require Import Sorting.Sorted.
Import ListNotations.

(** ** Exceptions *)

(** [TypeError] stands for the use of a value that is not an array of the
    expected kind; well-formed arguments never cause it.  [OSError] stands
    for [FileNotFoundError] and the other errors of [open]. *)
Inductive exn : Type :=
| IndexError
| ValueError
| TypeError
| OSError.

Inductive result (A : Type) : Type :=
| Ok (a : A)
| Raise (e : exn).

Arguments Ok {A} a.
Arguments Raise {A} e.

Definition rbind {A B : Type} (c : result A) (k : A -> result B) : result B :=
  match c with
  | Ok a => k a
  | Raise e => Raise e
  end.

Notation "x <- c ;; k" := (rbind c (fun x => k))
  (at level 61, c at next level, right associativity).

(** ** Sequences the way Python and NumPy index them *)

(** [l[-n:]]: the last [n] elements; note that [l[-0:]] is the whole of [l]. *)
Definition slice_last {A : Type} (n : nat) (l : list A) : list A :=
  match n with
  | O => l
  | S _ => skipn (length l - n) l
  end.

(** [l[i]] for an integer [i]: negative indices count from the end. *)
Definition py_index {A : Type} (l : list A) (i : Z) : result A :=
  let n := Z.of_nat (length l) in
  let j := if (i <? 0)%Z then (i + n)%Z else i in
  if ((j <? 0) || (n <=? j))%Z then Raise IndexError
  else match nth_error l (Z.to_nat j) with
       | Some a => Ok a
       | None => Raise IndexError
       end.

(** [l[i]] for a loop counter [i >= 0]. *)
Definition getitem {A : Type} (l : list A) (i : nat) : result A :=
  match nth_error l i with
  | Some a => Ok a
  | None => Raise IndexError
  end.

(** [a[mask]] for a boolean [mask]: the lengths must agree. *)
Fixpoint select {A : Type} (mask : list bool) (l : list A) : list A :=
  match mask, l with
  | b :: mask', a :: l' => if b then a :: select mask' l' else select mask' l'
  | _, _ => []
  end.

Definition getitem_mask {A : Type} (l : list A) (mask : list bool)
  : result (list A) :=
  if length mask =? length l then Ok (select mask l) else Raise IndexError.

(** ** Signal filtering: [filter_incl] *)

Section Filtering.
Local Open Scope R_scope.

Definition np_sum (l : list R) : R := fold_right Rplus 0 l.

Definition np_mean (l : list R) : R := np_sum l / INR (length l).

(** [np.blackman]: w(n) = 0.42 - 0.5 cos(2 pi n/(M-1)) + 0.08 cos(4 pi n/(M-1)). *)
Definition blackman_term (M n : nat) : R :=
  0.42 - 0.5 * cos (2 * PI * INR n / INR (M - 1))
       + 0.08 * cos (4 * PI * INR n / INR (M - 1)).

Definition np_blackman (M : nat) : list R :=
  match M with
  | O => []
  | S O => [1]
  | _ => map (blackman_term M) (seq 0 M)
  end.

Definition dot (a w : list R) : R :=
  np_sum (map (fun p => fst p * snd p) (combine a w)).

(** [np.correlate(a, w, 'valid')] for [len(w) <= len(a)]. *)
Definition correlate_valid (a w : list R) : list R :=
  map (fun i => dot (skipn i a) w) (seq 0 (length a - length w + 1)).

(** [np.convolve(a, v, mode='valid')]: the longer argument comes first, an
    empty argument is refused, and the rest is a correlation with [v]
    reversed. *)
Definition np_convolve_valid (a v : list R) : result (list R) :=
  let '(a, v) := if (length a <? length v)%nat then (v, a) else (a, v) in
  match a, v with
  | [], _ => Raise ValueError
  | _, [] => Raise ValueError
  | _, _ => Ok (correlate_valid a (rev v))
  end.

Definition filter_incl (incl : list R) (kernel_length : nat)
  : result (list R) :=
  let kernel := np_blackman kernel_length in
  let kernel := map (fun k => k / np_sum kernel) kernel in
  let pad_width := (kernel_length / 2)%nat in
  let start_pad := firstn pad_width incl in
  let start_pad := rev start_pad in
  let start_pad :=
    map (fun v => 2 * np_mean (slice_last 10 start_pad) - v) start_pad in
  let end_pad := slice_last pad_width incl in
  let end_pad := rev end_pad in
  let end_pad :=
    map (fun v => 2 * np_mean (firstn 10 end_pad) - v) end_pad in
  let padded_incl := start_pad ++ incl ++ end_pad in
  np_convolve_valid padded_incl kernel.

(** The default of the [kernel_length] argument. *)
Definition default_kernel_length : nat := 101.

End Filtering.

(** ** Comparisons and element-wise operations *)

Definition Qltb (a b : Q) : bool := negb (Qle_bool b a).
Definition Qleb (a b : Q) : bool := Qle_bool a b.

Definition Rltb (a b : R) : bool := if Rlt_dec a b then true else false.

(** A binary operation on two 1-D arrays, with NumPy's broadcasting of an
    array of length one. *)
Definition broadcast2 {A B C : Type} (f : A -> B -> C)
  (a : list A) (b : list B) : result (list C) :=
  if length a =? length b
  then Ok (map (fun p => f (fst p) (snd p)) (combine a b))
  else match a, b with
       | [a0], _ => Ok (map (f a0) b)
       | _, [b0] => Ok (map (fun u => f u b0) a)
       | _, _ => Raise ValueError
       end.

(** [a[idx]] for an array of integer indices: every index is checked. *)
Fixpoint take {A : Type} (l : list A) (idx : list Z) : result (list A) :=
  match idx with
  | [] => Ok []
  | i :: idx' =>
      a <- py_index l i ;;
      rest <- take l idx' ;;
      Ok (a :: rest)
  end.

(** ** Registration modelling: [remove_reg_mean_incl] and [get_phi] *)

Section Registration.
Local Open Scope R_scope.

Definition remove_reg_mean_incl (roll pitch reg_roll reg_pitch : list R)
  : list R * list R :=
  let roll := map (fun r => r - np_mean reg_roll) roll in
  let pitch := map (fun p => p - np_mean reg_pitch) pitch in
  (roll, pitch).

(** [mu] is the arithmetic mean of the non-empty series [l]. *)
Definition is_mean (l : list R) (mu : R) : Prop :=
  l <> [] /\ np_sum l = mu * INR (length l).

(** [np.searchsorted(a, v)] (side 'left') for one key: binary search for the
    leftmost insertion point in [lo, hi).  The interval shrinks at every
    step, so [hi - lo] steps are enough. *)
Fixpoint bisect_left (fuel : nat) (a : list Q) (v : Q) (lo hi : nat) : nat :=
  match fuel with
  | O => lo
  | S fuel' =>
      if (lo <? hi)%nat then
        let mid := (lo + (hi - lo) / 2)%nat in
        if Qltb (nth mid a 0%Q) v
        then bisect_left fuel' a v (S mid) hi
        else bisect_left fuel' a v lo mid
      else lo
  end.

(** The search for one key in the whole array. *)
Definition searchsorted1 (a : list Q) (v : Q) : nat :=
  bisect_left (length a) a v 0 (length a).

(** NumPy searches the keys in turn and keeps the bounds of the search for
    the key before: after a smaller key only the upper bound is reset (the
    search goes on from the last result); otherwise the lower bound is
    reset and the upper bound is one past the last result.  On an ascending
    array this changes nothing; on any other array the indices depend on
    the order of the keys. *)
Fixpoint searchsorted_from (a : list Q) (min_idx max_idx : nat)
  (last_key_val : Q) (keys : list Q) : list nat :=
  match keys with
  | [] => []
  | key_val :: keys' =>
      let arr_len := length a in
      let min_idx := if Qltb last_key_val key_val then min_idx else O in
      let max_idx :=
        if Qltb last_key_val key_val then arr_len
        else if (max_idx <? arr_len)%nat then S max_idx else arr_len in
      let r := bisect_left arr_len a key_val min_idx max_idx in
      r :: searchsorted_from a r r key_val keys'
  end.

Definition searchsorted_idx (a v : list Q) : list nat :=
  match v with
  | [] => []
  | key0 :: _ => searchsorted_from a 0 (length a) key0 v
  end.

Definition np_searchsorted (a v : list Q) : list Z :=
  map Z.of_nat (searchsorted_idx a v).

(** A coordinate: a real number, or the zero with a minus sign, which
    [np.arctan2] tells from the other zero. *)
Inductive coord : Type :=
| NegZero
| Re (r : R).

Definition value (c : coord) : R :=
  match c with
  | NegZero => 0
  | Re r => r
  end.

Definition is_negzero (c : coord) : bool :=
  match c with
  | NegZero => true
  | Re _ => false
  end.

(** [np.arctan2(y, x)]: the angle of the point (x, y), from [atan].  On the
    negative x axis the sign of a zero [y] chooses between pi and -pi, and
    at the origin the signs of both zeros choose among 0, pi and -pi (the
    zero returned for [y = -0.0] and [x > 0] has a minus sign of its own,
    which is not kept). *)
Definition np_arctan2 (y x : coord) : R :=
  let yv := value y in
  let xv := value x in
  if Rlt_dec 0 xv then atan (yv / xv)
  else if Rlt_dec xv 0 then
    if is_negzero y then - PI
    else if Rle_dec 0 yv then atan (yv / xv) + PI else atan (yv / xv) - PI
  else if Rlt_dec 0 yv then PI / 2
  else if Rlt_dec yv 0 then - (PI / 2)
  else if is_negzero x then (if is_negzero y then - PI else PI)
  else 0.

(** [idx[idx >= n] -= 1] *)
Definition clamp_high (n : nat) (idx : list Z) : list Z :=
  map (fun i => if (Z.of_nat n <=? i)%Z then (i - 1)%Z else i) idx.

(** The mask of the points further than 100 from the origin. *)
Definition far_mask (x y : list coord) : result (list bool) :=
  r2 <- broadcast2 Rplus (map (fun a => value a ^ 2) x)
                         (map (fun b => value b ^ 2) y) ;;
  Ok (map (fun r => Rltb 100 (sqrt r)) r2).

Definition get_phi (it pt : list Q) (x y : list coord) : result (list R) :=
  mask <- far_mask x y ;;
  pt <- getitem_mask pt mask ;;
  x <- getitem_mask x mask ;;
  y <- getitem_mask y mask ;;
  let idx := np_searchsorted pt it in
  let idx := clamp_high (length pt) idx in
  ys <- take y idx ;;
  xs <- take x idx ;;
  broadcast2 np_arctan2 ys xs.

(** The azimuth read for the search result [r] among [n] points: at the
    point found, or at the last point when the search ran past the end. *)
Definition phi_at (n : nat) (x y : list coord) (r : nat) : R :=
  let i := Nat.min r (n - 1) in
  np_arctan2 (nth i y (Re 0)) (nth i x (Re 0)).

End Registration.

(** ** Inclination input: [get_incl] *)

(** A cell of the text table: a number or NaN. *)
Inductive float : Type :=
| NaN
| Num (q : Q).

(** A data row: time, roll, pitch. *)
Definition row : Type := (float * float * float)%type.

Definition time (r : row) : float := fst (fst r).
Definition roll_of (r : row) : float := snd (fst r).
Definition pitch_of (r : row) : float := snd r.

(** [a > 0], [np.isnan(a)], [a != b] and the order of [sort] (NaN last). *)
Definition fgt0 (a : float) : bool :=
  match a with
  | NaN => false
  | Num q => Qltb 0 q
  end.

Definition isnan (a : float) : bool :=
  match a with
  | NaN => true
  | Num _ => false
  end.

Definition feqb (a b : float) : bool :=
  match a, b with
  | Num p, Num q => Qeq_bool p q
  | _, _ => false
  end.

Definition fltb (a b : float) : bool :=
  match a, b with
  | Num p, Num q => Qltb p q
  | Num _, NaN => true
  | NaN, _ => false
  end.

(** What [np.loadtxt] returns for a table of three columns: mono-dimensional
    axes are squeezed, so a single data row, or none, gives a 1-D array. *)
Inductive ndarray : Type :=
| Arr1 (a : list float)
| Arr2 (rows : list row).

Definition np_loadtxt (data : list row) : ndarray :=
  match data with
  | [] => Arr1 []
  | [(t, r, p)] => Arr1 [t; r; p]
  | _ => Arr2 data
  end.

Section Unique.
Variable ar : list float.

Definition key (i : nat) : float := nth i ar NaN.

(** A stable sort of the indices by their keys (the order that NumPy's
    merge sort returns): index [i], smaller than every index of the sorted
    [perm], goes before the first index whose key is not smaller. *)
Fixpoint insert_idx (i : nat) (perm : list nat) : list nat :=
  match perm with
  | [] => [i]
  | j :: perm' =>
      if fltb (key j) (key i) then j :: insert_idx i perm'
      else i :: j :: perm'
  end.

Definition argsort : list nat :=
  fold_right insert_idx [] (seq 0 (length ar)).

End Unique.

(** [mask[:1] = True; mask[1:] = aux[1:] != aux[:-1]] *)
Definition neq_prev (aux : list float) : list bool :=
  match aux with
  | [] => []
  | _ :: rest =>
      true :: map (fun p => negb (feqb (fst p) (snd p))) (combine rest aux)
  end.

(** [np.unique(ar, return_index=True)]: the sorted distinct values and, for
    each, the index of its first occurrence in [ar]. *)
Definition np_unique (ar : list float) : list float * list nat :=
  let perm := argsort ar in
  let aux := map (key ar) perm in
  let mask := neq_prev aux in
  (select mask aux, select mask perm).

(** The rows that [get_incl] keeps, in the order it returns them. *)
Definition get_incl_rows (data : list row) : result (list row) :=
  match np_loadtxt data with
  | Arr1 _ => Raise IndexError
  | Arr2 incl =>
      incl <- getitem_mask incl (map (fun r => fgt0 (time r)) incl) ;;
      incl <- getitem_mask incl (map (fun r => negb (isnan (time r))) incl) ;;
      let '(garbage, idx) := np_unique (map time incl) in
      take incl (map Z.of_nat idx)
  end.

Definition get_incl (data : list row)
  : result (list float * list float * list float) :=
  incl <- get_incl_rows data ;;
  let t := map time incl in
  let roll := map roll_of incl in
  let pitch := map pitch_of incl in
  Ok (t, roll, pitch).

(** ** Inclination output: [save_incl] *)

(** A value given to [save_incl]: a number, the zero with a minus sign, an
    infinity or NaN. *)
Inductive double : Type :=
| Finite (q : Q)
| MinusZero
| Infinity (negative : bool)
| NotANumber.

(** An argument of [save_incl]: an array, or a single number (the mean
    pair is saved with time [0]). *)
Inductive series : Type :=
| Scalar (v : double)
| Series (l : list double).

Definition as_column (a : series) : list double :=
  match a with
  | Scalar v => [v]
  | Series l => l
  end.

(** [np.column_stack((a, b, c))]: the three columns must have one length. *)
Definition np_column_stack (a b c : series)
  : result (list (double * double * double)) :=
  let ca := as_column a in
  let cb := as_column b in
  let cc := as_column c in
  if (length cb =? length ca)%nat && (length cc =? length ca)%nat
  then Ok (combine (combine ca cb) cc)
  else Raise ValueError.

Section Formatting.
Local Open Scope Z_scope.

(** [num / den] rounded to the nearest integer, ties to even
    ([0 <= num], [0 < den]). *)
Definition round_half_even (num den : Z) : Z :=
  let qt := num / den in
  let r := num mod den in
  match 2 * r ?= den with
  | Lt => qt
  | Gt => qt + 1
  | Eq => if Z.even qt then qt else qt + 1
  end.

Definition digit (d : Z) : ascii := ascii_of_nat (48 + Z.to_nat d).

Definition decimal (n : Z) : string :=
  NilEmpty.string_of_uint (N.to_uint (Z.to_N n)).

(** The number of ten-thousandths printed for [q]. *)
Definition scaled (q : Q) : Z :=
  round_half_even (Z.abs (Qnum q) * 10000) (Zpos (Qden q)).

Definition fraction4 (n : Z) : string :=
  let fp := n mod 10000 in
  String (digit (fp / 1000))
    (String (digit (fp / 100 mod 10))
       (String (digit (fp / 10 mod 10))
          (String (digit (fp mod 10)) EmptyString))).

(** ["%0.4f" % q] for a number [q]. *)
Definition fmt_finite (q : Q) : string :=
  let n := scaled q in
  let sign := if Qnum q <? 0 then "-"%string else ""%string in
  (sign ++ decimal (n / 10000) ++ "." ++ fraction4 n)%string.

(** ["%0.4f" % v]: the zero with a minus sign keeps its sign; infinities
    and NaN are printed by name, without decimals. *)
Definition fmt_04f (v : double) : string :=
  match v with
  | Finite q => fmt_finite q
  | MinusZero => "-0.0000"%string
  | Infinity false => "inf"%string
  | Infinity true => "-inf"%string
  | NotANumber => "nan"%string
  end.

End Formatting.

Section SaveIncl.
Local Open Scope string_scope.

Definition newline : string := String "010"%char EmptyString.

Definition fmt_row (r : double * double * double) : string :=
  let '(t, roll, pitch) := r in
  fmt_04f t ++ "," ++ fmt_04f roll ++ "," ++ fmt_04f pitch.

(** [np.savetxt(fname, X, "%0.4f", delimiter=',', header=header)] with the
    defaults [newline='\n'] and [comments='# ']: the header line, after the
    comment mark, then one line per row. *)
Definition np_savetxt_text (X : list (double * double * double))
  (header : string) : string :=
  let comments := "# " in
  comments ++ header ++ newline
  ++ fold_right (fun r rest => fmt_row r ++ newline ++ rest) "" X.

(** The file system: the paths that [open] accepts for writing (a path in
    a directory that does not exist is not one of them), and the texts
    written so far, the latest first. *)
Record files : Type := {
  writable : string -> bool;
  texts : list (string * string)
}.

(** [open(path, 'w')], [write(text)] and [close()]. *)
Definition write_file (fs : files) (path text : string) : result files :=
  if writable fs path
  then Ok {| writable := writable fs; texts := (path, text) :: texts fs |}
  else Raise OSError.



(** The arguments of [np.savetxt] are evaluated, the table included, before
    the file is opened. *)
Definition save_incl (t roll pitch : series) (data_dir root ext : string)
  (fs : files) : result files :=
  let outfilename := data_dir ++ "/" ++ root ++ ext in
  X <- np_column_stack t roll pitch ;;
  write_file fs outfilename (np_savetxt_text X "Time,Roll,Pitch").


End SaveIncl.

(** ** The array store *)

(** NumPy arrays are mutable objects, and slicing gives views that share the
    buffer of the array they come from.  Coordinate arrays therefore live in
    a store of buffers; an array is a whole 1-D buffer or one column of a
    2-D buffer. *)

Definition loc : Type := nat.

Definition matrix : Type := list (list R).

Inductive buffer : Type :=
| Vec (v : list R)
| Mat (rows : matrix).

Definition store : Type := list buffer.

Inductive array : Type :=
| Whole (l : loc)
| Column (l : loc) (j : nat).

Definition base (a : array) : loc :=
  match a with
  | Whole l => l
  | Column l _ => l
  end.

(** A computation on the store; an exception leaves the store as it was
    when it was raised. *)
Definition M (A : Type) : Type := store -> result A * store.

Definition ret {A : Type} (a : A) : M A := fun h => (Ok a, h).

Definition bind {A B : Type} (c : M A) (k : A -> M B) : M B :=
  fun h =>
    match c h with
    | (Ok a, h') => k a h'
    | (Raise e, h') => (Raise e, h')
    end.

Definition lift {A : Type} (r : result A) : M A := fun h => (r, h).

Notation "x <~ c ;; k" := (bind c (fun x => k))
  (at level 61, c at next level, right associativity).

Fixpoint for_each {A : Type} (l : list A) (body : A -> M unit) : M unit :=
  match l with
  | [] => ret tt
  | a :: l' => _ <~ body a ;; for_each l' body
  end.

Fixpoint set_nth {A : Type} (l : list A) (i : nat) (a : A) : list A :=
  match l, i with
  | [], _ => []
  | _ :: l', O => a :: l'
  | b :: l', S i' => b :: set_nth l' i' a
  end.

Definition count_true (mask : list bool) : nat :=
  length (filter (fun b => b) mask).

Section Arrays.
Local Open Scope R_scope.

Fixpoint column (j : nat) (rows : matrix) : result (list R) :=
  match rows with
  | [] => Ok []
  | row :: rows' =>
      a <- getitem row j ;;
      rest <- column j rows' ;;
      Ok (a :: rest)
  end.

(** A new buffer. *)
Definition alloc (b : buffer) : M loc :=
  fun h => (Ok (length h), h ++ [b]).

(** The elements of an array. *)
Definition read (a : array) : M (list R) :=
  fun h =>
    match a with
    | Whole l =>
        match nth_error h l with
        | Some (Vec v) => (Ok v, h)
        | _ => (Raise TypeError, h)
        end
    | Column l j =>
        match nth_error h l with
        | Some (Mat rows) => (column j rows, h)
        | _ => (Raise TypeError, h)
        end
    end.

(** [a[mask]] copies the selected elements. *)
Definition read_mask (a : array) (mask : list bool) : M (list R) :=
  v <~ read a ;; lift (getitem_mask v mask).

(** [m[:, j]]: a view of column [j] of the buffer [l], which has [ncols]
    columns. *)
Definition column_view (l : loc) (ncols j : nat) : result array :=
  if (j <? ncols)%nat then Ok (Column l j) else Raise IndexError.

(** Rows of [rows] selected by [mask] are replaced, in order, by [vals]. *)
Fixpoint assign_rows (mask : list bool) (rows vals : matrix) : matrix :=
  match mask, rows with
  | b :: mask', r :: rows' =>
      if b then
        match vals with
        | v :: vals' => v :: assign_rows mask' rows' vals'
        | [] => r :: rows'
        end
      else r :: assign_rows mask' rows' vals
  | _, _ => rows
  end.

(** [m[mask, 0:3] = vals] for a buffer [m] of three columns: written in
    place. *)
Definition setitem_rows (l : loc) (mask : list bool) (vals : matrix)
  : M unit :=
  fun h =>
    match nth_error h l with
    | Some (Mat rows) =>
        if negb (length mask =? length rows)%nat then (Raise IndexError, h)
        else if negb (count_true mask =? length vals)%nat
             then (Raise ValueError, h)
             else (Ok tt, set_nth h l (Mat (assign_rows mask rows vals)))
    | _ => (Raise TypeError, h)
    end.

(** *** Matrices *)

Definition ncols (m : matrix) : nat :=
  match m with
  | [] => O
  | r :: _ => length r
  end.

Definition transpose (m : matrix) : matrix :=
  map (fun j => map (fun row => nth j row 0) m) (seq 0 (ncols m)).

(** [a @ b] *)
Definition matmul (a b : matrix) : result matrix :=
  if (ncols a =? length b)%nat
  then Ok (map (fun row => map (dot row) (transpose b)) a)
  else Raise ValueError.

(** [np.vstack] of 1-D arrays: they must have one length. *)
Definition np_vstack (rows : list (list R)) : result matrix :=
  match rows with
  | [] => Raise ValueError
  | r :: rest =>
      if forallb (fun r' => (length r' =? length r)%nat) rest
      then Ok rows
      else Raise ValueError
  end.

Definition deg2rad (d : R) : R := d * PI / 180.

Definition R_roll (roll : R) : matrix :=
  [ [1; 0; 0];
    [0; cos (deg2rad roll); - sin (deg2rad roll)];
    [0; sin (deg2rad roll); cos (deg2rad roll)] ].

Definition R_pitch (pitch : R) : matrix :=
  [ [cos (deg2rad pitch); 0; sin (deg2rad pitch)];
    [0; 1; 0];
    [- sin (deg2rad pitch); 0; cos (deg2rad pitch)] ].

End Arrays.

(** ** Geometric transforms *)

Section Transforms.
Local Open Scope R_scope.

(** The two values of [mode] that [rotate_cloud] acts on. *)
Inductive mode : Type :=
| center
| mean.

Definition rotate_cloud (x y z : array) (roll pitch : list R) (m : mode)
  : M (array * array * array) :=
  rp <~ lift match m with
             | center =>
                 let center_idx := (length roll / 2)%nat in
                 r <- getitem roll center_idx ;;
                 p <- getitem pitch center_idx ;;
                 Ok (r, p)
             | mean => Ok (np_mean roll, np_mean pitch)
             end ;;
  let roll := fst rp in
  let pitch := snd rp in
  rot <~ lift (matmul (R_pitch pitch) (R_roll roll)) ;;
  xv <~ read x ;;
  yv <~ read y ;;
  zv <~ read z ;;
  xyz <~ lift (np_vstack [xv; yv; zv]) ;;
  prod <~ lift (matmul rot xyz) ;;
  xyz_rot <~ alloc (Mat (transpose prod)) ;;
  ret (Column xyz_rot 0, Column xyz_rot 1, Column xyz_rot 2).

(** Times are doubles: numbers or NaN.  [a <= b] and [a > b] are false
    when one side is NaN, and [(a + b) / 2] is NaN then. *)
Definition fleb (a b : float) : bool :=
  match a, b with
  | Num p, Num q => Qleb p q
  | _, _ => false
  end.

Definition fgtb (a b : float) : bool :=
  match a, b with
  | Num p, Num q => Qltb q p
  | _, _ => false
  end.

Definition fmid (a b : float) : float :=
  match a, b with
  | Num p, Num q => Num ((p + q) / 2)%Q
  | _, _ => NaN
  end.

(** [(it[1:] + it[:-1]) / 2] *)
Definition it_mid (it : list float) : list float :=
  map (fun p => fmid (fst p) (snd p)) (combine (tl it) (removelast it)).

(** The mask of the points of bin [i], out of [n] bins. *)
Definition bin_mask (pt mid : list float) (n i : nat) : result (list bool) :=
  if (i =? 0)%nat then
    hi <- getitem mid i ;;
    Ok (map (fun t => fleb t hi) pt)
  else if (i =? n - 1)%nat then
    lo <- getitem mid (i - 1) ;;
    Ok (map (fun t => fgtb t lo) pt)
  else
    lo <- getitem mid (i - 1) ;;
    hi <- getitem mid i ;;
    Ok (map (fun t => fgtb t lo && fleb t hi) pt).

(** One turn of the loop of [warp_cloud]: the points of bin [i] are rotated
    by sample [i] and written to their rows of [xyz_rot]. *)
Definition warp_bin (pt mid : list float) (n : nat) (x y z : array)
  (roll pitch : list R) (xyz_rot : loc) (i : nat) : M unit :=
  mask <~ lift (bin_mask pt mid n i) ;;
  r <~ lift (getitem roll i) ;;
  p <~ lift (getitem pitch i) ;;
  rot <~ lift (matmul (R_pitch p) (R_roll r)) ;;
  xm <~ read_mask x mask ;;
  ym <~ read_mask y mask ;;
  zm <~ read_mask z mask ;;
  xyz <~ lift (np_vstack [xm; ym; zm]) ;;
  prod <~ lift (matmul rot xyz) ;;
  setitem_rows xyz_rot mask (transpose prod).

Definition warp_cloud (pt : list float) (x y z : array) (it : list float)
  (roll pitch : list R) : M (array * array * array) :=
  let mid := it_mid it in
  xv <~ read x ;;
  xyz_rot <~ alloc (Mat (repeat [0; 0; 0] (length xv))) ;;
  _ <~ for_each (seq 0 (length it))
         (warp_bin pt mid (length it) x y z roll pitch xyz_rot) ;;
  ret (Column xyz_rot 0, Column xyz_rot 1, Column xyz_rot 2).

(** [mat] is the matrix that [np.loadtxt] reads from [mat_file]. *)
Definition sop_pop_cloud (x y z : array) (mat : matrix)
  : M (array * array * array) :=
  xv <~ read x ;;
  yv <~ read y ;;
  zv <~ read z ;;
  xyz1 <~ lift (np_vstack [xv; yv; zv; repeat 1 (length xv)]) ;;
  prod <~ lift (matmul mat xyz1) ;;
  xyz_rot <~ alloc (Mat (transpose prod)) ;;
  x_rot <~ lift (column_view xyz_rot (length mat) 0) ;;
  y_rot <~ lift (column_view xyz_rot (length mat) 1) ;;
  z_rot <~ lift (column_view xyz_rot (length mat) 2) ;;
  ret (x_rot, y_rot, z_rot).

End Transforms.

(** ** Notions used to state the properties *)

(** Times in non-decreasing order; a NaN is in no order with anything. *)
Definition fle (a b : float) : Prop := fleb a b = true.

(** No time of [l] is NaN. *)
Definition numbers (l : list float) : Prop :=
  Forall (fun t => isnan t = false) l.

(** Point [j] of [pt] is selected by the mask of bin [i]. *)
Definition in_bin (pt it : list float) (i j : nat) : Prop :=
  exists mask,
    bin_mask pt (it_mid it) (length it) i = Ok mask /\
    nth_error mask j = Some true.


(** The number of elements of [m] that [t] is greater than. *)
Definition count_lt (m : list float) (t : float) : nat :=
  length (filter (fun a => fgtb t a) m).

(** The rotation of one inclination sample, [R_pitch @ R_roll], and the
    image of a point under a matrix. *)
Definition rotation (roll pitch : R) : matrix :=
  map (fun row => map (dot row) (transpose (R_roll roll))) (R_pitch pitch).

Definition apply_matrix (m : matrix) (p : list R) : list R :=
  map (fun row => dot row p) m.

(** The points of a cloud, one row [[x; y; z]] per point. *)
Definition points (x y z : list R) : matrix :=
  map (fun p => [fst (fst p); snd (fst p); snd p])
      (combine (combine x y) z).

(** The rows that [warp_cloud] has written once the bins below [k] are
    done: a point whose bin is below [k] is rotated by the sample of its
    bin, the others are still zero; a point whose time is NaN is in no bin
    and stays zero. *)
Definition warped_upto (k : nat) (pt it : list float) (roll pitch : list R)
  (x y z : list R) : matrix :=
  map (fun tp =>
         let i := count_lt (it_mid it) (fst tp) in
         if negb (isnan (fst tp)) && (i <? k)%nat
         then apply_matrix (rotation (nth i roll 0%R) (nth i pitch 0%R))
                           (snd tp)
         else [0; 0; 0]%R)
      (combine pt (points x y z)).

Definition warped (pt it : list float) (roll pitch : list R) (x y z : list R)
  : matrix :=
  warped_upto (length it) pt it roll pitch x y z.

(** [a] designates an array of the store [h]. *)
Definition is_array (h : store) (a : array) : Prop :=
  exists v, read a h = (Ok v, h).

(** Every buffer of [h] is still there, with the same contents, in [h']. *)
Definition unchanged (h h' : store) : Prop :=
  forall l b, nth_error h l = Some b -> nth_error h' l = Some b.

(** The three arrays are backed by buffers allocated after the first [n]:
    with [n] the size of the store before a call, by new buffers. *)
Definition fresh (n : nat) (out : array * array * array) : Prop :=
  let '(a, b, c) := out in
  (n <= base a /\ n <= base b /\ n <= base c)%nat.

(** A computation that, started in a store of at least [n] buffers, leaves
    the first [n] of them alone, never shrinks the store, and returns a
    value satisfying [post]. *)
Definition frame {A : Type} (n : nat) (c : M A) (post : A -> Prop) : Prop :=
  forall h, (n <= length h)%nat ->
    (length h <= length (snd (c h)))%nat /\
    firstn n (snd (c h)) = firstn n h /\
    (forall a, fst (c h) = Ok a -> post a).

(** Every array of [h] reads the same in [h']. *)
Definition keeps_values (h h' : store) : Prop :=
  forall a v, fst (read a h) = Ok v -> fst (read a h') = Ok v.

(** Running [c] in [h] changes no buffer of [h], whether it returns or
    raises, and what it returns are arrays on new buffers. *)
Definition leaves_inputs (c : M (array * array * array)) (h : store) : Prop :=
  unchanged h (snd (c h)) /\
  keeps_values h (snd (c h)) /\
  forall out, fst (c h) = Ok out -> fresh (length h) out.

(** A file system with nothing written, in which every path can be
    opened. *)
Definition empty_disk : files :=
  {| writable := fun _ => true; texts := [] |}.

(** A small store with three coordinate arrays of two points. *)
Definition store3 : store :=
  [Vec [1; 2]%R; Vec [3; 4]%R; Vec [5; 6]%R].

(** Row [r] is the first row of [data] with its timestamp. *)
Definition first_occurrence (data : list row) (r : row) : Prop :=
  exists pre post,
    data = pre ++ r :: post /\
    forall r', In r' pre -> feqb (time r') (time r) = false.

Section UniqueNotions.
Variable ar : list float.

(** Index [i] comes before index [j] in the stable order: its key is not
    larger, and for equal keys it is the smaller index. *)
Definition before (i j : nat) : Prop :=
  fltb (key ar j) (key ar i) = false /\
  (fltb (key ar i) (key ar j) = true \/ (i < j)%nat).

(** The indices of [rest] whose key differs from the key of the index just
    before them, [prev] being the index before the first. *)
Definition heads (prev : nat) (rest : list nat) : list nat :=
  select
    (map (fun p => negb (feqb (fst p) (snd p)))
       (combine (map (key ar) rest) (map (key ar) (prev :: rest))))
    rest.

End UniqueNotions.

(** The rows that pass the two filters of [get_incl]. *)
Definition keep (r : row) : bool :=
  fgt0 (time r) && negb (isnan (time r)).

Definition nan_row : row := (NaN, NaN, NaN).





(** ** The sinusoidal model and the removal of a fitted trend *)

Section Trend.
Local Open Scope R_scope.

(** [model(phi, a, c, d)] for an array [phi] and three numbers. *)
Definition model (phi : list R) (a c d : R) : list R :=
  map (fun p => a * sin (p + c) + d) phi.

(** The values of [a -= v]: [v] has the length of [a] or length one; the
    array [a] itself is never broadcast. *)
Definition isub_values (old v : list R) : result (list R) :=
  if (length v =? length old)%nat
  then Ok (map (fun p => fst p - snd p) (combine old v))
  else match v with
       | [v0] => Ok (map (fun o => o - v0) old)
       | _ => Raise ValueError
       end.

Fixpoint set_column (j : nat) (rows : matrix) (vals : list R) : matrix :=
  match rows, vals with
  | row :: rows', v :: vals' => set_nth row j v :: set_column j rows' vals'
  | _, _ => rows
  end.

(** New elements for an array, written into its buffer. *)
Definition write_array (a : array) (vals : list R) (h : store) : store :=
  match a with
  | Whole l => set_nth h l (Vec vals)
  | Column l j =>
      match nth_error h l with
      | Some (Mat rows) => set_nth h l (Mat (set_column j rows vals))
      | _ => h
      end
  end.

(** [a -= v], in place. *)
Definition isub (a : array) (v : list R) : M unit :=
  fun h =>
    match read a h with
    | (Ok old, _) =>
        match isub_values old v with
        | Ok vals => (Ok tt, write_array a vals h)
        | Raise e => (Raise e, h)
        end
    | (Raise e, _) => (Raise e, h)
    end.

(** [fit_model] is SciPy's least-squares fit of [model], from the initial
    guess (0, 0, 0); it is not part of the code, and stands here for any
    function that returns three parameters or fails. *)
Variable fit_model : list R -> list R -> result (R * R * R).

Definition remove_reg_trend_incl (phi : list R) (roll pitch : array)
  (reg_phi reg_roll reg_pitch : list R) : M (array * array) :=
  roll_params <~ lift (fit_model reg_phi reg_roll) ;;
  pitch_params <~ lift (fit_model reg_phi reg_pitch) ;;
  let roll_modeled :=
    model phi (fst (fst roll_params)) (snd (fst roll_params))
          (snd roll_params) in
  let pitch_modeled :=
    model phi (fst (fst pitch_params)) (snd (fst pitch_params))
          (snd pitch_params) in
  _ <~ isub roll roll_modeled ;;
  _ <~ isub pitch pitch_modeled ;;
  ret (roll, pitch).

End Trend.

(** Two arrays that share no element: different buffers, or different
    columns of one buffer. *)
Definition disjoint_arrays (a b : array) : Prop :=
  base a <> base b \/
  exists l j j', a = Column l j /\ b = Column l j' /\ j <> j'.

(** The angles that [rotate_cloud] rotates by. *)
Definition chosen_angles (roll pitch : list R) (m : mode) : R * R :=
  match m with
  | center =>
      (nth (length roll / 2) roll 0%R, nth (length roll / 2) pitch 0%R)
  | mean => (np_mean roll, np_mean pitch)
  end.

(** The points in homogeneous coordinates, one row [[x; y; z; 1]] each. *)
Definition points4 (x y z : list R) : matrix :=
  map (fun p => [fst (fst p); snd (fst p); snd p; 1%R])
      (combine (combine x y) z).

(** The squared length of a vector. *)
Definition norm2 (v : list R) : R := np_sum (map (fun a => (a ^ 2)%R) v).

(** * Properties *)

(** ** The model at work *)

Example it_mid_example :
  map (fleb (Num 4)) (it_mid (map Num [0; 2; 6; 7]%Q)) = [false; true; true]
  /\ it_mid [Num 0; NaN; Num 6] = [NaN; NaN].
Proof. split; reflexivity. Qed.

Example bin_mask_example :
  bin_mask [Num 0.5; Num 1; NaN; Num 3; Num 9]%Q
           (it_mid (map Num [0; 2; 6; 7]%Q)) 4 1
  = Ok [false; false; false; true; false].
Proof. reflexivity. Qed.

Example searchsorted_unsorted_example :
  np_searchsorted [0; 2; 0]%Q [1; 2]%Q = [1; 3]%Z /\
  map (searchsorted1 [0; 2; 0]%Q) [1; 2]%Q = [1; 1]%nat.
Proof. split; reflexivity. Qed.

Example searchsorted_example :
  np_searchsorted [1; 2; 4; 4; 7]%Q [0; 4; 5; 9]%Q = [0; 2; 4; 5]%Z.
Proof. reflexivity. Qed.

Example get_incl_example :
  get_incl [(Num 3, Num 1, Num 1); (Num 1, Num 2, Num 2);
            (Num 3, Num 9, Num 9); (NaN, Num 0, Num 0);
            (Num (-1), Num 5, Num 5); (Num 1, Num 7, Num 7)]%Q
  = Ok ([Num 1; Num 3], [Num 2; Num 1], [Num 2; Num 1])%Q.
Proof. reflexivity. Qed.

Example fmt_04f_example :
  map fmt_04f
      (map Finite [1.5; -2; 0.00005; 0.00015; 1234.56789; -(2 # 3)]%Q
       ++ [MinusZero; Infinity false; Infinity true; NotANumber])
  = ["1.5000"; "-2.0000"; "0.0000"; "0.0002"; "1234.5679"; "-0.6667";
     "-0.0000"; "inf"; "-inf"; "nan"]%string.
Proof. reflexivity. Qed.

Example save_incl_mean_pair_example :
  match save_incl (Scalar (Finite 0)) (Scalar (Finite 0.25))
          (Scalar (Finite (-2))) "/out" "survey01"
          "-incl-regmeanrem-mean.txt" empty_disk with
  | Ok fs => texts fs
  | Raise _ => []
  end
  = [("/out/survey01-incl-regmeanrem-mean.txt",
      "# Time,Roll,Pitch" ++ newline ++ "0.0000,0.2500,-2.0000" ++ newline)
    ]%string.
Proof. reflexivity. Qed.

(** ** Comparisons, masks and indexing *)

Lemma Qleb_le (a b : Q) : Qleb a b = true <-> (a <= b)%Q.
Proof. apply Qle_bool_iff. Qed.

Lemma Qltb_lt (a b : Q) : Qltb a b = true <-> (a < b)%Q.
Proof.
  unfold Qltb. rewrite negb_true_iff. split.
  - intros H. apply Qnot_le_lt. intros Hle.
    apply Qle_bool_iff in Hle. congruence.
  - intros H. destruct (Qle_bool b a) eqn:E; trivial.
    apply Qle_bool_iff in E. exfalso. exact (Qlt_not_le _ _ H E).
Qed.

Lemma Qleb_negb_ltb (a b : Q) : Qleb a b = negb (Qltb b a).
Proof. unfold Qleb, Qltb. now rewrite negb_involutive. Qed.

Lemma Qltb_ge (a b : Q) : Qltb a b = false <-> (b <= a)%Q.
Proof.
  unfold Qltb. rewrite negb_false_iff. apply Qle_bool_iff.
Qed.

Lemma select_length_le {A : Type} (mask : list bool) (l : list A) :
  (length (select mask l) <= length l)%nat.
Proof.
  revert l. induction mask as [|b mask IH]; intros [|a l]; simpl; try lia.
  specialize (IH l). destruct b; simpl; lia.
Qed.

Lemma select_same_length {A B : Type} (mask : list bool)
  (l : list A) (l' : list B) :
  length l = length l' -> length (select mask l) = length (select mask l').
Proof.
  revert l l'. induction mask as [|b mask IH]; intros [|a l] [|a' l'] H;
    simpl in *; try lia.
  destruct b; simpl; auto.
Qed.

Lemma select_nonempty {A : Type} (mask : list bool) (l : list A) (j : nat) :
  length mask = length l -> nth j mask false = true -> select mask l <> [].
Proof.
  revert l j. induction mask as [|b mask IH]; intros l j Hlen Hj.
  - destruct j; discriminate.
  - destruct l as [|a l]; [discriminate|]. simpl.
    destruct b; [discriminate|].
    destruct j as [|j]; [discriminate|].
    apply (IH l j); simpl in *; [lia | assumption].
Qed.

Lemma select_incl {A : Type} (mask : list bool) (l : list A) (a : A) :
  In a (select mask l) -> In a l.
Proof.
  revert l. induction mask as [|b mask IH]; intros [|c l] H; simpl in H;
    try contradiction.
  destruct b; [destruct H as [<-|H]|]; [now left | right | right];
    now apply IH.
Qed.

Lemma getitem_mask_ok {A : Type} (l : list A) (mask : list bool) :
  length mask = length l -> getitem_mask l mask = Ok (select mask l).
Proof.
  intros H. unfold getitem_mask. now rewrite H, Nat.eqb_refl.
Qed.

Lemma py_index_nat {A : Type} (l : list A) (i : nat) (d : A) :
  (i < length l)%nat -> py_index l (Z.of_nat i) = Ok (nth i l d).
Proof.
  intros Hi. unfold py_index.
  destruct (Z.ltb_spec (Z.of_nat i) 0) as [H|_]; [lia|].
  destruct (Z.ltb_spec (Z.of_nat i) 0) as [H|_]; [lia|].
  destruct (Z.leb_spec (Z.of_nat (length l)) (Z.of_nat i)) as [H|_]; [lia|].
  simpl. rewrite Nat2Z.id.
  now rewrite (nth_error_nth' l d Hi).
Qed.

Lemma take_nat {A B : Type} (l : list A) (d : A) (f : B -> nat)
  (keys : list B) :
  (forall k, In k keys -> (f k < length l)%nat) ->
  take l (map (fun k => Z.of_nat (f k)) keys)
  = Ok (map (fun k => nth (f k) l d) keys).
Proof.
  induction keys as [|k keys IH]; intros H; simpl; trivial.
  rewrite (py_index_nat l (f k) d) by (apply H; now left).
  simpl. rewrite IH by (intros k' Hk'; apply H; now right).
  reflexivity.
Qed.

Lemma combine_map_both {A B C D : Type} (f : A -> C) (g : B -> D)
  (l : list A) (l' : list B) :
  combine (map f l) (map g l')
  = map (fun p => (f (fst p), g (snd p))) (combine l l').
Proof.
  revert l'. induction l as [|a l IH]; intros [|b l']; simpl; trivial.
  now rewrite IH.
Qed.

Lemma combine_map_same {A B C : Type} (f : A -> B) (g : A -> C)
  (l : list A) :
  combine (map f l) (map g l) = map (fun a => (f a, g a)) l.
Proof.
  induction l as [|a l IH]; simpl; trivial. now rewrite IH.
Qed.

Lemma broadcast2_same_length {A B C : Type} (f : A -> B -> C)
  (a : list A) (b : list B) :
  length a = length b ->
  broadcast2 f a b = Ok (map (fun p => f (fst p) (snd p)) (combine a b)).
Proof.
  intros H. unfold broadcast2. now rewrite H, Nat.eqb_refl.
Qed.

(** ** The filter *)

Section FilteringFacts.
Local Open Scope R_scope.

Lemma np_blackman_length (M : nat) : length (np_blackman M) = M.
Proof.
  destruct M as [|[|M]]; simpl; trivial.
  now rewrite length_map, length_seq.
Qed.

Lemma correlate_valid_length (a w : list R) :
  length (correlate_valid a w) = (length a - length w + 1)%nat.
Proof. unfold correlate_valid. now rewrite length_map, length_seq. Qed.

Lemma slice_last_length {A : Type} (n : nat) (l : list A) :
  (0 < n <= length l)%nat -> length (slice_last n l) = n.
Proof.
  intros [Hn Hl]. destruct n as [|n]; [lia|].
  unfold slice_last. rewrite length_skipn. lia.
Qed.

Lemma np_convolve_valid_ok (a v : list R) :
  v <> [] -> (length v <= length a)%nat ->
  np_convolve_valid a v = Ok (correlate_valid a (rev v)).
Proof.
  intros Hv Hle. unfold np_convolve_valid.
  destruct (Nat.ltb_spec (length a) (length v)) as [Hlt|_]; [lia|].
  destruct a as [|x a]; [destruct v; [congruence | simpl in Hle; lia]|].
  destruct v; [congruence | reflexivity].
Qed.

(** The padded signal is [kernel_length - 1] samples longer than the input. *)
Lemma filter_incl_length (incl : list R) (k : nat) :
  Nat.odd k = true -> (3 <= k)%nat -> (k / 2 <= length incl)%nat ->
  exists out, filter_incl incl k = Ok out /\ length out = length incl.
Proof.
  intros Hodd Hk Hn. unfold filter_incl.
  set (p := (k / 2)%nat) in *.
  assert (Hkp : k = (2 * p + 1)%nat).
  { pose proof (Nat.div_mod_eq k 2) as E. fold p in E.
    rewrite <- Nat.bit0_mod, Nat.bit0_odd, Hodd in E. simpl in E. lia. }
  assert (Hp : (0 < p)%nat) by lia.
  rewrite np_convolve_valid_ok.
  - eexists. split; [reflexivity|].
    rewrite correlate_valid_length, length_rev, !length_app, !length_map,
      !length_rev, length_firstn, slice_last_length, np_blackman_length by lia.
    lia.
  - intros E. apply (f_equal (@length R)) in E.
    rewrite length_map, np_blackman_length in E. simpl in E. lia.
  - rewrite !length_app, !length_map, !length_rev, length_firstn,
      slice_last_length, np_blackman_length by lia.
    lia.
Qed.

(** C4: with the default kernel length 101, a series of at least 101 samples
    is filtered into a series of exactly the same length. *)
Theorem filter_incl_preserves_length (incl : list R) :
  (default_kernel_length <= length incl)%nat ->
  exists out,
    filter_incl incl default_kernel_length = Ok out /\
    length out = length incl.
Proof.
  intros Hn. unfold default_kernel_length in *.
  apply filter_incl_length.
  - reflexivity.
  - lia.
  - change (101 / 2)%nat with 50%nat. lia.
Qed.

Lemma filter_incl_preserves_length_witness :
  exists out,
    filter_incl (repeat 0 101) default_kernel_length = Ok out /\
    length out = length (repeat 0 101).
Proof.
  apply filter_incl_preserves_length.
  rewrite repeat_length. apply le_n.
Defined.

(** *** Constant signals *)




Lemma np_sum_repeat (c : R) (n : nat) : np_sum (repeat c n) = INR n * c.
Proof.
  induction n as [|n IH].
  - simpl. lra.
  - rewrite S_INR. simpl repeat. simpl np_sum. fold (np_sum (repeat c n)).
    rewrite IH. lra.
Qed.

Lemma np_mean_repeat (c : R) (n : nat) :
  (0 < n)%nat -> np_mean (repeat c n) = c.
Proof.
  intros Hn. unfold np_mean. rewrite np_sum_repeat, repeat_length.
  field. apply not_0_INR. lia.
Qed.

Lemma np_sum_app (l1 l2 : list R) :
  np_sum (l1 ++ l2) = np_sum l1 + np_sum l2.
Proof.
  induction l1 as [|x l1 IH]; simpl.
  - lra.
  - fold (np_sum (l1 ++ l2)). fold (np_sum l1). rewrite IH. lra.
Qed.

Lemma np_sum_rev (l : list R) : np_sum (rev l) = np_sum l.
Proof.
  induction l as [|x l IH]; simpl; trivial.
  rewrite np_sum_app, IH. simpl. fold (np_sum l). lra.
Qed.

Lemma np_sum_map_div (l : list R) (s : R) :
  np_sum (map (fun k => k / s) l) = np_sum l / s.
Proof.
  induction l as [|x l IH]; simpl.
  - unfold Rdiv. lra.
  - fold (np_sum (map (fun k => k / s) l)). fold (np_sum l).
    rewrite IH. unfold Rdiv. lra.
Qed.



(** Every coefficient of the Blackman window is non-negative:
    with [c = cos (2 pi n / (M-1))] it is [(1 - c) (0.34 - 0.16 c)]. *)
Lemma blackman_term_factor (M n : nat) :
  let c := cos (2 * PI * INR n / INR (M - 1)) in
  blackman_term M n = (1 - c) * (0.34 - 0.16 * c).
Proof.
  intros c. unfold blackman_term.
  replace (4 * PI * INR n / INR (M - 1))
    with (2 * (2 * PI * INR n / INR (M - 1))) by (unfold Rdiv; lra).
  rewrite cos_2a_cos. fold c. nra.
Qed.

Lemma blackman_term_nonneg (M n : nat) : 0 <= blackman_term M n.
Proof.
  rewrite blackman_term_factor.
  pose proof (COS_bound (2 * PI * INR n / INR (M - 1))) as [Hlo Hhi].
  apply Rmult_le_pos; lra.
Qed.

(** The coefficient next to the edge is positive as soon as [M >= 3]. *)
Lemma blackman_term_1_pos (M : nat) : (3 <= M)%nat -> 0 < blackman_term M 1.
Proof.
  intros HM. rewrite blackman_term_factor.
  set (d := INR (M - 1)).
  assert (Hd : 2 <= d).
  { unfold d. change 2 with (INR 2). apply le_INR. lia. }
  set (h := PI / d).
  assert (Hh : 0 < h <= PI / 2).
  { pose proof PI_RGT_0 as Hpi. unfold h. split.
    - apply Rdiv_lt_0_compat; lra.
    - unfold Rdiv. apply Rmult_le_compat_l; [lra|].
      apply Rinv_le_contravar; lra. }
  replace (2 * PI * INR 1 / d) with (2 * h)
    by (unfold h; simpl INR; unfold Rdiv; lra).
  rewrite cos_2a_sin.
  assert (Hs : 0 < sin h).
  { pose proof PI_RGT_0. apply sin_gt_0; lra. }
  pose proof (SIN_bound h) as [_ Hs1].
  assert (Hss : 0 < sin h * sin h) by (apply Rmult_lt_0_compat; lra).
  assert (Hs2 : sin h * sin h <= 1) by nra.
  apply Rmult_lt_0_compat; nra.
Qed.

Lemma np_sum_nonneg (l : list R) :
  (forall x, In x l -> 0 <= x) -> 0 <= np_sum l.
Proof.
  induction l as [|x l IH]; intros H; simpl; [lra|].
  fold (np_sum l).
  assert (0 <= x) by (apply H; now left).
  assert (0 <= np_sum l) by (apply IH; intros y Hy; apply H; now right).
  lra.
Qed.

Lemma np_sum_pos (l : list R) (y : R) :
  (forall x, In x l -> 0 <= x) -> In y l -> 0 < y -> 0 < np_sum l.
Proof.
  induction l as [|x l IH]; intros H Hin Hy; [contradiction|].
  simpl. fold (np_sum l).
  assert (0 <= x) by (apply H; now left).
  assert (Hl : forall z, In z l -> 0 <= z) by (intros z Hz; apply H; now right).
  destruct Hin as [->|Hin].
  - pose proof (np_sum_nonneg l Hl). lra.
  - pose proof (IH Hl Hin Hy). lra.
Qed.

Lemma np_blackman_sum_pos (M : nat) :
  (3 <= M)%nat -> 0 < np_sum (np_blackman M).
Proof.
  intros HM.
  assert (E : np_blackman M = map (blackman_term M) (seq 0 M)).
  { destruct M as [|[|M]]; [lia | lia | reflexivity]. }
  rewrite E. apply np_sum_pos with (y := blackman_term M 1).
  - intros x Hx. apply in_map_iff in Hx as [n [<- _]].
    apply blackman_term_nonneg.
  - apply in_map, in_seq. lia.
  - now apply blackman_term_1_pos.
Qed.

(** The normalised kernel sums to one. *)
Lemma normalised_blackman_sum (M : nat) :
  (3 <= M)%nat ->
  np_sum (map (fun k => k / np_sum (np_blackman M)) (np_blackman M)) = 1.
Proof.
  intros HM. rewrite np_sum_map_div.
  pose proof (@np_blackman_sum_pos M HM). field. lra.
Qed.




End FilteringFacts.

(** ** Mean bias removal *)

Section RegistrationFacts.
Local Open Scope R_scope.

Lemma np_mean_is_mean {l : list R} {mu : R} : is_mean l mu -> np_mean l = mu.
Proof.
  intros [Hne Hs]. unfold np_mean. rewrite Hs. field.
  apply not_0_INR. destruct l; [congruence | discriminate].
Qed.

(** C3: every survey roll sample has the mean of the registration roll
    subtracted, every survey pitch sample the mean of the registration
    pitch; the result is a function of the four inputs alone. *)
Theorem remove_reg_mean_incl_subtracts_mean
  (roll pitch reg_roll reg_pitch : list R) (mu_roll mu_pitch : R) :
  is_mean reg_roll mu_roll -> is_mean reg_pitch mu_pitch ->
  remove_reg_mean_incl roll pitch reg_roll reg_pitch
  = (map (fun r => r - mu_roll) roll, map (fun p => p - mu_pitch) pitch)
  /\ (forall roll' pitch' reg_roll' reg_pitch',
        roll' = roll -> pitch' = pitch ->
        reg_roll' = reg_roll -> reg_pitch' = reg_pitch ->
        remove_reg_mean_incl roll' pitch' reg_roll' reg_pitch'
        = remove_reg_mean_incl roll pitch reg_roll reg_pitch).
Proof.
  intros Hr Hp. split.
  - unfold remove_reg_mean_incl.
    now rewrite (np_mean_is_mean Hr), (np_mean_is_mean Hp).
  - intros ? ? ? ? -> -> -> ->. reflexivity.
Qed.

Lemma remove_reg_mean_incl_subtracts_mean_witness :
  remove_reg_mean_incl [5; 7] [1] [1; 3] [4]
  = (map (fun r => r - 2) [5; 7], map (fun p => p - 4) [1])
  /\ (forall roll' pitch' reg_roll' reg_pitch',
        roll' = [5; 7] -> pitch' = [1] ->
        reg_roll' = [1; 3] -> reg_pitch' = [4] ->
        remove_reg_mean_incl roll' pitch' reg_roll' reg_pitch'
        = remove_reg_mean_incl [5; 7] [1] [1; 3] [4]).
Proof.
  apply remove_reg_mean_incl_subtracts_mean.
  - split; [discriminate | simpl; lra].
  - split; [discriminate | simpl; lra].
Defined.

(** ** Azimuth extraction *)

Lemma bisect_left_bounds (fuel : nat) (a : list Q) (v : Q) (lo hi : nat) :
  (lo <= hi)%nat -> (lo <= bisect_left fuel a v lo hi <= hi)%nat.
Proof.
  revert lo hi.
  induction fuel as [|fuel IH]; intros lo hi Hle; cbn [bisect_left].
  - lia.
  - destruct (Nat.ltb_spec lo hi) as [Hlt|Hge]; [|lia].
    assert (Hmid : ((hi - lo) / 2 < hi - lo)%nat)
      by (apply Nat.div_lt; lia).
    destruct (Qltb _ v).
    + specialize (IH (S (lo + (hi - lo) / 2))%nat hi). lia.
    + specialize (IH lo (lo + (hi - lo) / 2)%nat). lia.
Qed.

Lemma searchsorted_from_length (a : list Q) (keys : list Q) :
  forall mn mx last,
    length (searchsorted_from a mn mx last keys) = length keys.
Proof.
  induction keys as [|k keys IH]; intros mn mx last; cbn [searchsorted_from];
    trivial.
  cbv zeta. simpl length. now rewrite IH.
Qed.

(** Whatever the array and the order of the keys, a search result is an
    index between 0 and the length of the array. *)
Lemma searchsorted_from_bounds (a : list Q) (keys : list Q) :
  forall mn mx last,
    (mn <= length a)%nat ->
    Forall (fun r => (r <= length a)%nat)
           (searchsorted_from a mn mx last keys).
Proof.
  induction keys as [|k keys IH]; intros mn mx last Hmn;
    cbn [searchsorted_from]; [constructor|].
  cbv zeta.
  set (lo := if Qltb last k then mn else 0%nat).
  set (hi := if Qltb last k then length a
             else if (mx <? length a)%nat then S mx else length a).
  assert (Hb : (lo <= hi <= length a)%nat).
  { unfold lo, hi. destruct (Qltb last k); [lia|].
    destruct (Nat.ltb_spec mx (length a)); lia. }
  pose proof (bisect_left_bounds (length a) a k lo hi (proj1 Hb)) as Hr.
  constructor; [lia|]. apply IH. lia.
Qed.

Lemma searchsorted_idx_length (a v : list Q) :
  length (searchsorted_idx a v) = length v.
Proof.
  destruct v as [|k v]; trivial.
  unfold searchsorted_idx. apply searchsorted_from_length.
Qed.

Lemma searchsorted_idx_bounds (a v : list Q) :
  Forall (fun r => (r <= length a)%nat) (searchsorted_idx a v).
Proof.
  destruct v as [|k v]; [constructor|].
  unfold searchsorted_idx. apply searchsorted_from_bounds. lia.
Qed.

Lemma searchsorted1_le (a : list Q) (v : Q) :
  (searchsorted1 a v <= length a)%nat.
Proof.
  unfold searchsorted1.
  pose proof (bisect_left_bounds (length a) a v 0 (length a)).
  lia.
Qed.

Lemma sorted_nth_le (a : list Q) :
  StronglySorted Qle a ->
  forall i j, (i <= j < length a)%nat -> (nth i a 0 <= nth j a 0)%Q.
Proof.
  induction 1 as [|x a Hs IH Hall]; intros i j Hij; simpl in *; [lia|].
  destruct i as [|i], j as [|j]; try lia.
  - apply Qle_refl.
  - rewrite Forall_forall in Hall. apply Hall, nth_In. lia.
  - apply IH. lia.
Qed.

(** On an ascending array the search returns the leftmost insertion point:
    exactly the elements before it are smaller than the key. *)
Lemma bisect_left_spec (a : list Q) (v : Q) :
  StronglySorted Qle a ->
  forall fuel lo hi,
    (lo <= hi <= length a)%nat -> (hi - lo <= fuel)%nat ->
    (forall j, (j < lo)%nat -> (nth j a 0 < v)%Q) ->
    (forall j, (hi <= j < length a)%nat -> (v <= nth j a 0)%Q) ->
    let r := bisect_left fuel a v lo hi in
    (forall j, (j < r)%nat -> (nth j a 0 < v)%Q) /\
    (forall j, (r <= j < length a)%nat -> (v <= nth j a 0)%Q).
Proof.
  intros Hs.
  induction fuel as [|fuel IH]; intros lo hi Hb Hf Hlo Hhi; cbn [bisect_left].
  - split; [assumption|]. intros j Hj. apply Hhi. lia.
  - destruct (Nat.ltb_spec lo hi) as [Hlt|Hge].
    2:{ split; [assumption|]. intros j Hj. apply Hhi. lia. }
    assert (Hmid : ((hi - lo) / 2 < hi - lo)%nat)
      by (apply Nat.div_lt; lia).
    set (mid := (lo + (hi - lo) / 2)%nat) in *.
    destruct (Qltb (nth mid a 0%Q) v) eqn:E.
    + apply Qltb_lt in E. apply IH; trivial.
      * unfold mid. lia.
      * unfold mid. lia.
      * intros j Hj. apply Qle_lt_trans with (nth mid a 0%Q); trivial.
        apply sorted_nth_le; trivial. unfold mid. lia.
    + apply Qltb_ge in E. apply IH; trivial.
      * unfold mid. lia.
      * unfold mid. lia.
      * intros j Hj. apply Qle_trans with (nth mid a 0%Q); trivial.
        apply sorted_nth_le; trivial.
Qed.

Lemma searchsorted1_spec (a : list Q) (v : Q) :
  StronglySorted Qle a ->
  (forall j, (j < searchsorted1 a v)%nat -> (nth j a 0 < v)%Q) /\
  (forall j, (searchsorted1 a v <= j < length a)%nat -> (v <= nth j a 0)%Q).
Proof.
  intros Hs. unfold searchsorted1.
  apply (bisect_left_spec a v Hs); try lia.
Qed.

(** There is one leftmost insertion point. *)
Lemma insertion_point_unique (a : list Q) (v : Q) (r r' : nat) :
  (r <= length a)%nat -> (r' <= length a)%nat ->
  (forall j, (j < r)%nat -> (nth j a 0 < v)%Q) ->
  (forall j, (r <= j < length a)%nat -> (v <= nth j a 0)%Q) ->
  (forall j, (j < r')%nat -> (nth j a 0 < v)%Q) ->
  (forall j, (r' <= j < length a)%nat -> (v <= nth j a 0)%Q) ->
  r = r'.
Proof.
  intros Hr Hr' Hlt Hge Hlt' Hge'.
  destruct (Nat.lt_trichotomy r r') as [H|[H|H]]; trivial; exfalso.
  - apply (Qlt_not_le _ _ (Hlt' r H)). apply Hge. lia.
  - apply (Qlt_not_le _ _ (Hlt r' H)). apply Hge'. lia.
Qed.

(** On an ascending array a search started from bounds that leave smaller
    elements below and no smaller element above finds the same point as a
    search of the whole array. *)
Lemma bisect_left_searchsorted1 (a : list Q) (v : Q) (lo hi : nat) :
  StronglySorted Qle a ->
  (lo <= hi <= length a)%nat ->
  (forall j, (j < lo)%nat -> (nth j a 0 < v)%Q) ->
  (forall j, (hi <= j < length a)%nat -> (v <= nth j a 0)%Q) ->
  bisect_left (length a) a v lo hi = searchsorted1 a v.
Proof.
  intros Hs Hb Hlo Hhi.
  destruct (bisect_left_spec a v Hs (length a) lo hi Hb ltac:(lia) Hlo Hhi)
    as [H1 H2].
  destruct (searchsorted1_spec a v Hs) as [H3 H4].
  pose proof (bisect_left_bounds (length a) a v lo hi (proj1 Hb)).
  apply (insertion_point_unique a v); trivial; try lia.
  apply searchsorted1_le.
Qed.

Lemma searchsorted_from_sorted (a : list Q) :
  StronglySorted Qle a ->
  forall keys last,
    searchsorted_from a (searchsorted1 a last) (searchsorted1 a last)
                      last keys
    = map (searchsorted1 a) keys.
Proof.
  intros Hs. induction keys as [|k keys IH]; intros last; trivial.
  cbn [searchsorted_from map]. cbv zeta.
  destruct (searchsorted1_spec a last Hs) as [Hlt Hge].
  pose proof (searchsorted1_le a last) as Hle.
  assert (E : bisect_left (length a) a k
                (if Qltb last k then searchsorted1 a last else 0%nat)
                (if Qltb last k then length a
                 else if (searchsorted1 a last <? length a)%nat
                      then S (searchsorted1 a last) else length a)
              = searchsorted1 a k).
  { destruct (Qltb last k) eqn:E.
    - apply Qltb_lt in E.
      apply bisect_left_searchsorted1; trivial; [lia| |intros j Hj; lia].
      intros j Hj. apply Qlt_trans with last; auto.
    - apply Qltb_ge in E.
      destruct (Nat.ltb_spec (searchsorted1 a last) (length a)).
      + apply bisect_left_searchsorted1; trivial;
          [lia | intros j Hj; lia |].
        intros j Hj. apply Qle_trans with last; trivial.
        apply Hge. lia.
      + apply bisect_left_searchsorted1; trivial;
          [lia | intros j Hj; lia | intros j Hj; lia]. }
  rewrite E. f_equal. apply IH.
Qed.

(** On an ascending array every key is given its leftmost insertion point,
    whatever the keys before it. *)
Lemma searchsorted_idx_sorted (a v : list Q) :
  StronglySorted Qle a ->
  searchsorted_idx a v = map (searchsorted1 a) v.
Proof.
  intros Hs. destruct v as [|k v]; trivial.
  unfold searchsorted_idx. cbn [searchsorted_from map]. cbv zeta.
  assert (E : Qltb k k = false) by (apply Qltb_ge, Qle_refl).
  rewrite E, Nat.ltb_irrefl.
  fold (searchsorted1 a k). f_equal.
  apply searchsorted_from_sorted, Hs.
Qed.

Lemma clamp_high_idx (n : nat) (rs : list nat) :
  (0 < n)%nat -> Forall (fun r => (r <= n)%nat) rs ->
  clamp_high n (map Z.of_nat rs)
  = map (fun r => Z.of_nat (Nat.min r (n - 1))) rs.
Proof.
  intros Hn Hrs. unfold clamp_high. rewrite map_map.
  apply map_ext_in. intros r Hr.
  rewrite Forall_forall in Hrs. specialize (Hrs r Hr).
  destruct (Z.leb_spec (Z.of_nat n) (Z.of_nat r)).
  - replace (Nat.min r (n - 1)) with (n - 1)%nat by lia. lia.
  - f_equal. lia.
Qed.

Lemma far_mask_eval (x y : list coord) :
  length y = length x ->
  far_mask x y
  = Ok (map (fun p => Rltb 100 (sqrt (value (fst p) ^ 2 + value (snd p) ^ 2)))
            (combine x y)).
Proof.
  intros H. unfold far_mask.
  rewrite broadcast2_same_length by (now rewrite !length_map).
  simpl. rewrite combine_map_both, !map_map. reflexivity.
Qed.

(** With a far point, [get_phi] returns the azimuths read at the search
    results, the ones past the end lowered to the last index. *)
Lemma get_phi_eval (it pt : list Q) (x y : list coord) :
  length pt = length x -> length y = length x ->
  (exists j, (j < length x)%nat /\
             100 < sqrt (value (nth j x (Re 0)) ^ 2
                         + value (nth j y (Re 0)) ^ 2)) ->
  exists mask,
    far_mask x y = Ok mask /\ length mask = length x /\
    select mask pt <> [] /\
    get_phi it pt x y
    = Ok (map (phi_at (length (select mask pt)) (select mask x)
                      (select mask y))
              (searchsorted_idx (select mask pt) it)).
Proof.
  intros Hpt Hy [j [Hj Hfar]].
  set (far := fun p : coord * coord =>
                Rltb 100 (sqrt (value (fst p) ^ 2 + value (snd p) ^ 2))).
  set (mask := map far (combine x y)).
  assert (Hm : far_mask x y = Ok mask) by now apply far_mask_eval.
  assert (Hlen : length mask = length x).
  { unfold mask. rewrite length_map, length_combine. lia. }
  assert (Hmj : nth j mask false = true).
  { unfold mask.
    rewrite (nth_indep _ false (far (Re 0, Re 0)))
      by (rewrite length_map, length_combine; lia).
    rewrite (map_nth far).
    rewrite combine_nth by lia. unfold far. simpl fst. simpl snd.
    unfold Rltb. destruct (Rlt_dec 100 _); [reflexivity | contradiction]. }
  assert (Hne : select mask pt <> [])
    by (apply (select_nonempty mask pt j); [lia | assumption]).
  exists mask. split; [assumption|]. split; [assumption|].
  split; [assumption|].
  unfold get_phi. rewrite Hm. simpl.
  rewrite !getitem_mask_ok by lia. simpl.
  set (pt' := select mask pt) in *.
  set (x' := select mask x). set (y' := select mask y).
  assert (Hx' : length x' = length pt')
    by (apply select_same_length; lia).
  assert (Hy' : length y' = length pt')
    by (apply select_same_length; lia).
  assert (Hpos : (0 < length pt')%nat)
    by (destruct pt'; [congruence | simpl; lia]).
  unfold np_searchsorted.
  rewrite clamp_high_idx by (trivial; apply searchsorted_idx_bounds).
  rewrite (take_nat y' (Re 0)) by (intros; lia).
  rewrite (take_nat x' (Re 0)) by (intros; lia).
  simpl.
  rewrite broadcast2_same_length by (now rewrite !length_map).
  rewrite combine_map_same, map_map. reflexivity.
Qed.

(** C6: when at least one point lies further than 100 from the origin,
    [get_phi] raises nothing, whatever the order of the point times: the
    masked arrays are non-empty, every search result is an index between 0
    and their length, a result at their end is replaced by the last valid
    index, and one azimuth is returned per inclination time, read at that
    index. *)
Theorem get_phi_clamps_index (it pt : list Q) (x y : list coord) :
  length pt = length x -> length y = length x ->
  (exists j, (j < length x)%nat /\
             100 < sqrt (value (nth j x (Re 0)) ^ 2
                         + value (nth j y (Re 0)) ^ 2)) ->
  exists mask phi,
    far_mask x y = Ok mask /\
    get_phi it pt x y = Ok phi /\
    length phi = length it /\
    let pt' := select mask pt in
    let n := Z.of_nat (length pt') in
    length (np_searchsorted pt' it) = length it /\
    forall k s, nth_error (np_searchsorted pt' it) k = Some s ->
      (0 <= s <= n)%Z /\
      let i := Z.to_nat (if (n <=? s)%Z then (s - 1)%Z else s) in
      (i < length pt')%nat /\
      (i < length (select mask x))%nat /\
      (i < length (select mask y))%nat /\
      (s = n -> i = (length pt' - 1)%nat) /\
      nth_error phi k
      = Some (np_arctan2 (nth i (select mask y) (Re 0))
                         (nth i (select mask x) (Re 0))).
Proof.
  intros Hpt Hy Hfar.
  destruct (get_phi_eval it pt x y Hpt Hy Hfar)
    as [mask [Hm [Hlen [Hne Hphi]]]].
  exists mask. eexists. split; [exact Hm|]. split; [exact Hphi|].
  split; [now rewrite length_map, searchsorted_idx_length|].
  intros pt' n.
  split; [unfold np_searchsorted;
          now rewrite length_map, searchsorted_idx_length|].
  intros k s Hk.
  unfold np_searchsorted in Hk. rewrite nth_error_map in Hk.
  destruct (nth_error (searchsorted_idx pt' it) k) as [r|] eqn:Hr;
    [|discriminate].
  injection Hk as <-.
  assert (Hb : (r <= length pt')%nat).
  { pose proof (searchsorted_idx_bounds pt' it) as Hall.
    rewrite Forall_forall in Hall. apply Hall.
    eapply nth_error_In; eassumption. }
  assert (Hpos : (0 < length pt')%nat).
  { unfold pt'. destruct (select mask pt); [congruence | simpl; lia]. }
  assert (Hx' : length (select mask x) = length pt')
    by (apply select_same_length; lia).
  assert (Hy' : length (select mask y) = length pt')
    by (apply select_same_length; lia).
  assert (Hi : Z.to_nat (if (n <=? Z.of_nat r)%Z
                         then (Z.of_nat r - 1)%Z else Z.of_nat r)
               = Nat.min r (length pt' - 1)).
  { unfold n. destruct (Z.leb_spec (Z.of_nat (length pt')) (Z.of_nat r)); lia. }
  split; [unfold n; lia|]. cbv zeta. rewrite Hi.
  split; [lia|]. split; [lia|]. split; [lia|].
  split; [unfold n; lia|].
  rewrite nth_error_map. fold pt'. rewrite Hr. reflexivity.
Qed.

Lemma get_phi_clamps_index_witness :
  exists mask phi,
    far_mask [Re 200; Re 1; Re 0] [Re 0; Re 1; Re 300] = Ok mask /\
    get_phi [5%Q; 0%Q] [3%Q; 2%Q; 1%Q]
      [Re 200; Re 1; Re 0] [Re 0; Re 1; Re 300] = Ok phi /\
    length phi = 2%nat.
Proof.
  destruct (get_phi_clamps_index [5%Q; 0%Q] [3%Q; 2%Q; 1%Q]
              [Re 200; Re 1; Re 0] [Re 0; Re 1; Re 300])
    as [mask [phi [Hm [Hphi [Hlen _]]]]].
  - reflexivity.
  - reflexivity.
  - exists 0%nat. split; [simpl; lia|]. simpl.
    replace (200 * (200 * 1) + 0 * (0 * 1)) with (200 * 200) by lra.
    rewrite sqrt_square; lra.
  - exists mask, phi. auto.
Defined.

(** The angle lies between -pi and pi; -pi itself is returned only for a
    [y] that is the zero with a minus sign. *)
Lemma np_arctan2_range (y x : coord) :
  - PI <= np_arctan2 y x <= PI /\
  (is_negzero y = false -> - PI < np_arctan2 y x).
Proof.
  pose proof PI_RGT_0 as Hpi.
  unfold np_arctan2.
  destruct (Rlt_dec 0 (value x)) as [Hx|Hx].
  - pose proof (atan_bound (value y / value x)). split; [lra|intros _; lra].
  - destruct (Rlt_dec (value x) 0) as [Hx'|Hx'].
    + destruct (is_negzero y) eqn:Hz; [split; [lra | discriminate]|].
      pose proof (atan_bound (value y / value x)) as Hb.
      destruct (Rle_dec 0 (value y)) as [Hy|Hy].
      * assert (Hq : value y / value x <= 0).
        { unfold Rdiv. pose proof (Rinv_lt_0_compat _ Hx'). nra. }
        assert (atan (value y / value x) <= 0).
        { destruct Hq as [Hq|Hq].
          - left. rewrite <- atan_0. now apply atan_increasing.
          - rewrite Hq, atan_0. lra. }
        split; [lra | intros _; lra].
      * assert (Hq : 0 < value y / value x).
        { unfold Rdiv.
          replace (value y * / value x)
            with ((- value y) * (- / value x)) by ring.
          apply Rmult_lt_0_compat; [lra|].
          pose proof (Rinv_lt_0_compat _ Hx'). lra. }
        assert (0 < atan (value y / value x))
          by (rewrite <- atan_0; now apply atan_increasing).
        split; [lra | intros _; lra].
    + destruct (Rlt_dec 0 (value y)); [split; [lra | intros _; lra]|].
      destruct (Rlt_dec (value y) 0); [split; [lra | intros _; lra]|].
      destruct (is_negzero x), (is_negzero y);
        (split; [lra | try discriminate; intros _; lra]).
Qed.

(** C8, as amended: under the same precondition [get_phi] returns one
    azimuth per inclination time, each of them in the closed interval
    [-pi, pi]; when no [y] is the zero with a minus sign, each of them is
    in (-pi, pi]. *)
Theorem get_phi_range (it pt : list Q) (x y : list coord) :
  length pt = length x -> length y = length x ->
  (exists j, (j < length x)%nat /\
             100 < sqrt (value (nth j x (Re 0)) ^ 2
                         + value (nth j y (Re 0)) ^ 2)) ->
  exists phi,
    get_phi it pt x y = Ok phi /\
    length phi = length it /\
    Forall (fun p => - PI <= p <= PI) phi /\
    (Forall (fun c => is_negzero c = false) y ->
     Forall (fun p => - PI < p <= PI) phi).
Proof.
  intros Hpt Hy Hfar.
  destruct (get_phi_eval it pt x y Hpt Hy Hfar)
    as [mask [Hm [Hlen [Hne Hphi]]]].
  eexists. split; [exact Hphi|].
  split; [now rewrite length_map, searchsorted_idx_length|].
  split.
  - apply Forall_forall. intros p Hp.
    apply in_map_iff in Hp as [r [<- _]]. apply np_arctan2_range.
  - intros Hnz. apply Forall_forall. intros p Hp.
    apply in_map_iff in Hp as [r [<- Hr]]. unfold phi_at.
    set (y' := select mask y) in *. set (pt' := select mask pt) in *.
    set (i := Nat.min r (length pt' - 1)).
    assert (Hpos : (0 < length pt')%nat)
      by (destruct pt'; [congruence | simpl; lia]).
    assert (Hy' : length y' = length pt')
      by (apply select_same_length; lia).
    assert (Hin : In (nth i y' (Re 0)) y).
    { apply (select_incl mask y). fold y'. apply nth_In. unfold i. lia. }
    rewrite Forall_forall in Hnz. specialize (Hnz _ Hin).
    destruct (np_arctan2_range (nth i y' (Re 0))
                               (nth i (select mask x) (Re 0))) as [Hc Ho].
    specialize (Ho Hnz). lra.
Qed.

Lemma get_phi_range_witness :
  exists phi,
    get_phi [5%Q] [1%Q; 2%Q] [Re 1; Re (-300)] [Re 1; Re 0] = Ok phi /\
    length phi = length [5%Q] /\
    Forall (fun p => - PI <= p <= PI) phi /\
    (Forall (fun c => is_negzero c = false) [Re 1; Re 0] ->
     Forall (fun p => - PI < p <= PI) phi).
Proof.
  apply get_phi_range.
  - reflexivity.
  - reflexivity.
  - exists 1%nat. split; [simpl; lia|]. simpl.
    replace (-300 * (-300 * 1) + 0 * (0 * 1)) with (300 * 300) by lra.
    rewrite sqrt_square; lra.
Defined.

(** C8, as stated, fails at the lower bound: for a far point on the negative
    x axis whose [y] is the zero with a minus sign, [np.arctan2] returns
    -pi, which is not in (-pi, pi]. *)
Lemma get_phi_reaches_minus_pi :
  get_phi [5%Q] [1%Q] [Re (-200)] [NegZero] = Ok [- PI] /\
  ~ (- PI < - PI <= PI).
Proof.
  split; [|lra].
  assert (Hfar : 100 < sqrt (-200 * (-200 * 1) + 0 * (0 * 1))).
  { replace (-200 * (-200 * 1) + 0 * (0 * 1)) with (200 * 200) by lra.
    rewrite sqrt_square; lra. }
  unfold get_phi, far_mask. simpl.
  unfold Rltb. destruct (Rlt_dec 100 _) as [_|Hn]; [|contradiction].
  simpl. unfold broadcast2, np_arctan2. simpl.
  destruct (Rlt_dec 0 (-200)) as [H|_]; [lra|].
  destruct (Rlt_dec (-200) 0) as [_|H]; [reflexivity | lra].
Qed.

End RegistrationFacts.

(** ** The time bins of [warp_cloud] *)

Section BinFacts.
Local Open Scope Q_scope.

Lemma fle_numbers (a b : float) :
  fle a b -> isnan a = false /\ isnan b = false.
Proof. destruct a, b; simpl; try discriminate; auto. Qed.

Lemma fle_transitive (a b c : float) : fle a b -> fle b c -> fle a c.
Proof.
  unfold fle. destruct a as [|p], b as [|q], c as [|r]; simpl;
    try discriminate.
  rewrite !Qleb_le. apply Qle_trans.
Qed.

Lemma fleb_negb_gtb (a b : float) :
  isnan a = false -> isnan b = false -> fleb a b = negb (fgtb a b).
Proof.
  destruct a as [|p], b as [|q]; simpl; try discriminate.
  intros _ _. apply Qleb_negb_ltb.
Qed.

(** What [t] is not greater than, it is not greater than anything larger. *)
Lemma fgtb_false_le (t a b : float) :
  fgtb t a = false -> fle a b -> fgtb t b = false.
Proof.
  unfold fle. destruct t as [|r], a as [|p], b as [|q]; simpl; trivial;
    try discriminate.
  rewrite !Qltb_ge, Qleb_le. intros H1 H2. now apply Qle_trans with p.
Qed.

Lemma it_mid_cons2 (a b : float) (rest : list float) :
  it_mid (a :: b :: rest) = fmid b a :: it_mid (b :: rest).
Proof. reflexivity. Qed.

Lemma it_mid_length (it : list float) :
  length (it_mid it) = (length it - 1)%nat.
Proof.
  destruct it as [|a it]; trivial.
  revert a. induction it as [|b it IH]; intros a; trivial.
  rewrite it_mid_cons2. simpl length. rewrite IH. simpl. lia.
Qed.

Lemma midpoint_le (a b c : float) :
  fle a b -> fle b c -> fle (fmid b a) (fmid c b).
Proof.
  unfold fle. destruct a as [|p], b as [|q], c as [|r]; simpl;
    try discriminate.
  rewrite !Qleb_le. intros Hab Hbc.
  unfold Qdiv. apply Qmult_le_compat_r; [|discriminate].
  apply Qplus_le_compat; assumption.
Qed.

Lemma it_mid_sorted (it : list float) :
  Sorted fle it -> StronglySorted fle (it_mid it).
Proof.
  intros Hs. apply Sorted_StronglySorted; [exact fle_transitive|].
  destruct it as [|a it]; [constructor|].
  revert a Hs. induction it as [|b it IH]; intros a Hs; [constructor|].
  rewrite it_mid_cons2.
  apply Sorted_inv in Hs as [Hs Hab]. apply HdRel_inv in Hab.
  constructor; [now apply IH|].
  destruct it as [|c it]; [constructor|].
  rewrite it_mid_cons2. constructor.
  apply Sorted_inv in Hs as [_ Hbc]. apply HdRel_inv in Hbc.
  now apply midpoint_le.
Qed.

(** The midpoints of times in order are numbers. *)
Lemma it_mid_numbers (it : list float) :
  Sorted fle it -> numbers (it_mid it).
Proof.
  unfold numbers. intros Hs.
  destruct it as [|a it]; [constructor|].
  revert a Hs. induction it as [|b it IH]; intros a Hs; [constructor|].
  rewrite it_mid_cons2.
  apply Sorted_inv in Hs as [Hs Hab]. apply HdRel_inv in Hab.
  constructor; [|now apply IH].
  destruct a, b; try discriminate. reflexivity.
Qed.

Lemma count_lt_le (m : list float) (t : float) :
  (count_lt m t <= length m)%nat.
Proof. apply filter_length_le. Qed.

Lemma count_lt_nan (m : list float) : count_lt m NaN = 0%nat.
Proof. unfold count_lt. induction m as [|a m IH]; trivial. Qed.

(** In an ascending list the elements that [t] is greater than are the
    first [count_lt m t]. *)
Lemma sorted_count_lt (m : list float) (t : float) :
  StronglySorted fle m ->
  forall i, (i < length m)%nat ->
    (fgtb t (nth i m NaN) = true <-> (i < count_lt m t)%nat).
Proof.
  unfold count_lt.
  induction 1 as [|a m Hs IH Hall]; intros i Hi; simpl in *; [lia|].
  destruct (fgtb t a) eqn:E.
  - destruct i as [|i]; simpl.
    + split; [lia | trivial].
    + rewrite IH by lia. lia.
  - assert (Hnone : forall b, In b m -> fgtb t b = false).
    { intros b Hb. apply fgtb_false_le with a; trivial.
      rewrite Forall_forall in Hall. auto. }
    assert (Hf : filter (fun b => fgtb t b) m = []).
    { clear -Hnone. induction m as [|b m IHm]; simpl; trivial.
      rewrite Hnone by now left. apply IHm. intros; apply Hnone; now right. }
    rewrite Hf. simpl. split; [|lia].
    destruct i as [|i]; [congruence|].
    rewrite Hnone by (apply nth_In; lia). discriminate.
Qed.

Lemma getitem_nth {A : Type} (l : list A) (i : nat) (d : A) :
  (i < length l)%nat -> getitem l i = Ok (nth i l d).
Proof.
  intros Hi. unfold getitem. now rewrite (nth_error_nth' l d Hi).
Qed.

(** Over ascending midpoints, the mask of bin [i] selects the points whose
    time is a number greater than exactly [i] midpoints; a point whose time
    is NaN is selected by no mask. *)
Lemma bin_mask_eval (pt it : list float) (i : nat) :
  (2 <= length it)%nat -> Sorted fle it -> (i < length it)%nat ->
  bin_mask pt (it_mid it) (length it) i
  = Ok (map (fun t => negb (isnan t)
                      && (count_lt (it_mid it) t =? i)%nat) pt).
Proof.
  intros Hn Hs Hi.
  pose proof (it_mid_sorted it Hs) as Hm.
  pose proof (it_mid_numbers it Hs) as Hnum.
  pose proof (it_mid_length it) as Hlen.
  set (m := it_mid it) in *.
  assert (Hnth : forall t k, (k < length m)%nat ->
            fgtb t (nth k m NaN) = (k <? count_lt m t)%nat).
  { intros t k Hk. apply eq_true_iff_eq.
    rewrite (sorted_count_lt m t Hm k Hk). symmetry. apply Nat.ltb_lt. }
  assert (Hle : forall t k, (k < length m)%nat -> isnan t = false ->
            fleb t (nth k m NaN) = negb (k <? count_lt m t)%nat).
  { intros t k Hk Ht. rewrite fleb_negb_gtb, Hnth; trivial.
    unfold numbers in Hnum. rewrite Forall_forall in Hnum.
    apply Hnum, nth_In, Hk. }
  assert (Hc : forall t, (count_lt m t <= length m)%nat)
    by (intros t; apply count_lt_le).
  unfold bin_mask.
  destruct (Nat.eqb_spec i 0) as [->|Hi0].
  - rewrite (getitem_nth m 0 NaN) by lia. simpl. f_equal.
    apply map_ext. intros t.
    destruct (isnan t) eqn:Ht; [now destruct t|].
    rewrite Hle by (trivial; lia). simpl.
    destruct (count_lt m t); reflexivity.
  - destruct (Nat.eqb_spec i (length it - 1)) as [Hlast|Hmid].
    + rewrite (getitem_nth m (i - 1) NaN) by lia. simpl. f_equal.
      apply map_ext. intros t.
      destruct (isnan t) eqn:Ht; [now destruct t|].
      rewrite Hnth by lia. simpl.
      specialize (Hc t).
      destruct (Nat.ltb_spec (i - 1) (count_lt m t));
        destruct (Nat.eqb_spec (count_lt m t) i); trivial; lia.
    + rewrite (getitem_nth m (i - 1) NaN) by lia. simpl.
      rewrite (getitem_nth m i NaN) by lia. simpl. f_equal.
      apply map_ext. intros t.
      destruct (isnan t) eqn:Ht; [now destruct t|].
      rewrite Hle, Hnth by (trivial; lia). simpl.
      destruct (Nat.ltb_spec (i - 1) (count_lt m t));
        destruct (Nat.ltb_spec i (count_lt m t));
        destruct (Nat.eqb_spec (count_lt m t) i); trivial; lia.
Qed.

Lemma in_bin_iff (pt it : list float) (i j : nat) (t : float) :
  (2 <= length it)%nat -> Sorted fle it ->
  nth_error pt j = Some t -> (i < length it)%nat ->
  (in_bin pt it i j <-> isnan t = false /\ i = count_lt (it_mid it) t).
Proof.
  intros Hn Hs Hj Hi. unfold in_bin.
  rewrite bin_mask_eval by assumption.
  split.
  - intros [mask [[= <-] Hmask]].
    rewrite nth_error_map, Hj in Hmask. injection Hmask as Hc.
    apply andb_true_iff in Hc as [Ht Hc].
    split; [now apply negb_true_iff|].
    symmetry. now apply Nat.eqb_eq.
  - intros [Ht Hc]. eexists. split; [reflexivity|].
    rewrite nth_error_map, Hj. simpl. f_equal.
    rewrite Ht. simpl. now apply Nat.eqb_eq.
Qed.




End BinFacts.

(** ** The store: what the transforms write *)

Section StoreFacts.
Local Open Scope nat_scope.

Lemma set_nth_length {A : Type} (l : list A) (i : nat) (a : A) :
  length (set_nth l i a) = length l.
Proof.
  revert i. induction l as [|b l IH]; intros [|i]; simpl; auto.
Qed.

Lemma set_nth_firstn {A : Type} (l : list A) (i n : nat) (a : A) :
  (n <= i)%nat -> firstn n (set_nth l i a) = firstn n l.
Proof.
  revert i n. induction l as [|b l IH]; intros [|i] [|n] H; simpl; trivial;
    try lia.
  f_equal. apply IH. lia.
Qed.

Lemma frame_ret {A : Type} (n : nat) (a : A) (post : A -> Prop) :
  post a -> frame n (ret a) post.
Proof.
  intros Hp h Hn. simpl. repeat split; trivial.
  intros a' [= <-]. exact Hp.
Qed.

Lemma frame_lift {A : Type} (n : nat) (r : result A) :
  frame n (lift r) (fun a => r = Ok a).
Proof. intros h Hn. simpl. repeat split; trivial. Qed.

Lemma frame_bind {A B : Type} (n : nat) (c : M A) (k : A -> M B)
  (mid : A -> Prop) (post : B -> Prop) :
  frame n c mid -> (forall a, mid a -> frame n (k a) post) ->
  frame n (bind c k) post.
Proof.
  intros Hc Hk h Hn. unfold bind.
  destruct (Hc h Hn) as [Hlen [Hfirst Hpost]].
  destruct (c h) as [[a|e] h1]; simpl in *.
  - destruct (Hk a (Hpost a eq_refl) h1) as [Hlen' [Hfirst' Hpost']]; [lia|].
    repeat split; [lia | congruence | assumption].
  - repeat split; [assumption | assumption | discriminate].
Qed.

Lemma frame_weaken {A : Type} (n : nat) (c : M A) (post post' : A -> Prop) :
  frame n c post -> (forall a, post a -> post' a) -> frame n c post'.
Proof.
  intros Hc Hw h Hn. destruct (Hc h Hn) as [H1 [H2 H3]].
  repeat split; auto.
Qed.

Lemma frame_read (n : nat) (a : array) : frame n (read a) (fun _ => True).
Proof.
  intros h Hn. unfold read.
  destruct a as [l|l j]; destruct (nth_error h l) as [[v|rows]|];
    simpl; repeat split; trivial.
Qed.

Lemma frame_read_mask (n : nat) (a : array) (mask : list bool) :
  frame n (read_mask a mask) (fun _ => True).
Proof.
  unfold read_mask. eapply frame_bind; [apply frame_read|].
  intros v _. eapply frame_weaken; [apply frame_lift | trivial].
Qed.

Lemma frame_alloc (n : nat) (b : buffer) :
  frame n (alloc b) (fun l => (n <= l)%nat).
Proof.
  intros h Hn. unfold alloc. simpl. repeat split.
  - rewrite length_app. lia.
  - rewrite firstn_app. replace (n - length h)%nat with 0%nat by lia.
    simpl. apply app_nil_r.
  - intros l [= <-]. exact Hn.
Qed.

Lemma frame_setitem_rows (n : nat) (l : loc) (mask : list bool)
  (vals : matrix) :
  (n <= l)%nat -> frame n (setitem_rows l mask vals) (fun _ => True).
Proof.
  intros Hl h Hn. unfold setitem_rows.
  destruct (nth_error h l) as [[v|rows]|]; simpl; repeat split; trivial.
  - destruct (negb _); simpl; [lia|].
    destruct (negb _); simpl; [lia|]. rewrite set_nth_length. lia.
  - destruct (negb _); simpl; trivial.
    destruct (negb _); simpl; trivial. now apply set_nth_firstn.
Qed.

Lemma frame_for_each {A : Type} (n : nat) (l : list A) (body : A -> M unit) :
  (forall a, frame n (body a) (fun _ => True)) ->
  frame n (for_each l body) (fun _ => True).
Proof.
  intros Hb. induction l as [|a l IH]; simpl.
  - now apply frame_ret.
  - eapply frame_bind; [apply Hb|]. intros _ _. exact IH.
Qed.

Create HintDb frame.
#[local] Hint Resolve frame_lift frame_read frame_read_mask frame_alloc
  frame_setitem_rows : frame.

Ltac frame_step :=
  first
    [ eapply frame_bind; [solve [eauto with frame]|]; intros ? ?
    | apply frame_ret ].

Lemma column_view_base (l : loc) (k j : nat) (a : array) :
  column_view l k j = Ok a -> base a = l.
Proof.
  unfold column_view. destruct (j <? k)%nat; [|discriminate].
  now intros [= <-].
Qed.

Lemma rotate_cloud_frame (n : nat) (x y z : array) (roll pitch : list R)
  (m : mode) :
  frame n (rotate_cloud x y z roll pitch m) (fresh n).
Proof.
  unfold rotate_cloud. repeat frame_step. simpl. auto.
Qed.

Lemma warp_cloud_frame (n : nat) (pt : list float) (x y z : array)
  (it : list float)
  (roll pitch : list R) :
  frame n (warp_cloud pt x y z it roll pitch) (fresh n).
Proof.
  unfold warp_cloud. do 2 frame_step.
  eapply frame_bind.
  - apply frame_for_each. intros i. unfold warp_bin. repeat frame_step.
    eapply frame_weaken; [now apply frame_setitem_rows | trivial].
  - intros _ _. apply frame_ret. simpl. auto.
Qed.

Lemma sop_pop_cloud_frame (n : nat) (x y z : array) (mat : matrix) :
  frame n (sop_pop_cloud x y z mat) (fresh n).
Proof.
  unfold sop_pop_cloud. repeat frame_step. cbv beta in *.
  repeat match goal with
         | H : column_view _ _ _ = Ok _ |- _ => apply column_view_base in H
         end.
  unfold fresh. lia.
Qed.

Lemma frame_unchanged {A : Type} (c : M A) (post : A -> Prop) (h : store) :
  frame (length h) c post -> unchanged h (snd (c h)).
Proof.
  intros Hf. destruct (Hf h (le_n _)) as [Hlen [Hfirst _]].
  rewrite firstn_all in Hfirst.
  intros l b Hl. rewrite <- Hfirst in Hl.
  assert (Hlt : (l < length h)%nat).
  { apply nth_error_Some. rewrite <- Hfirst at 1. congruence. }
  now rewrite nth_error_firstn, (proj2 (Nat.ltb_lt _ _) Hlt) in Hl.
Qed.

Lemma unchanged_keeps_values (h h' : store) :
  unchanged h h' -> keeps_values h h'.
Proof.
  intros Hu a v. unfold read.
  destruct a as [l|l j]; destruct (nth_error h l) as [[w|rows]|] eqn:E;
    simpl; try discriminate;
    now rewrite (Hu _ _ E).
Qed.

Lemma frame_leaves_inputs (c : M (array * array * array)) (h : store) :
  frame (length h) c (fresh (length h)) -> leaves_inputs c h.
Proof.
  intros Hf. pose proof (frame_unchanged c _ h Hf) as Hu.
  split; [assumption|]. split; [now apply unchanged_keeps_values|].
  apply (Hf h (le_n _)).
Qed.

(** C9: [rotate_cloud], [warp_cloud] and [sop_pop_cloud] write to no buffer
    that existed before the call, so the coordinate arrays passed to them
    (and every other array) hold the same values afterwards, whether the
    call returns or raises; the arrays they return are columns of a buffer
    allocated by the call. *)
Theorem transforms_leave_inputs_unchanged (h : store) :
  (forall x y z roll pitch m,
      leaves_inputs (rotate_cloud x y z roll pitch m) h) /\
  (forall pt x y z it roll pitch,
      leaves_inputs (warp_cloud pt x y z it roll pitch) h) /\
  (forall x y z mat,
      leaves_inputs (sop_pop_cloud x y z mat) h).
Proof.
  split; [|split]; intros; apply frame_leaves_inputs.
  - apply rotate_cloud_frame.
  - apply warp_cloud_frame.
  - apply sop_pop_cloud_frame.
Qed.

Lemma transforms_leave_inputs_unchanged_witness :
  let x := Whole 0 in
  let y := Whole 1 in
  let z := Whole 2 in
  let out := (Column 3 0, Column 3 1, Column 3 2) in
  let c1 := rotate_cloud x y z [0; 0]%R [0; 0]%R center in
  let c2 := warp_cloud (map Num [1; 4]%Q) x y z (map Num [0; 2]%Q)
              [0; 0]%R [0; 0]%R in
  let c3 := sop_pop_cloud x y z
              [[1; 0; 0; 0]; [0; 1; 0; 0]; [0; 0; 1; 0]; [0; 0; 0; 1]]%R in
  (fst (c1 store3) = Ok out /\ fresh 3 out /\
   fst (read x (snd (c1 store3))) = Ok [1; 2]%R) /\
  (fst (c2 store3) = Ok out /\ fresh 3 out /\
   fst (read y (snd (c2 store3))) = Ok [3; 4]%R) /\
  (fst (c3 store3) = Ok out /\ fresh 3 out /\
   fst (read z (snd (c3 store3))) = Ok [5; 6]%R).
Proof.
  intros x y z out c1 c2 c3.
  destruct (transforms_leave_inputs_unchanged store3) as [H1 [H2 H3]].
  split; [|split].
  - destruct (H1 x y z [0; 0]%R [0; 0]%R center) as [_ [Hk Hf]].
    split; [reflexivity|]. split; [now apply Hf | now apply Hk].
  - destruct (H2 (map Num [1; 4]%Q) x y z (map Num [0; 2]%Q)
                [0; 0]%R [0; 0]%R) as [_ [Hk Hf]].
    split; [reflexivity|]. split; [now apply Hf | now apply Hk].
  - destruct (H3 x y z
                [[1; 0; 0; 0]; [0; 1; 0; 0]; [0; 0; 1; 0]; [0; 0; 0; 1]]%R)
      as [_ [Hk Hf]].
    split; [reflexivity|]. split; [now apply Hf | now apply Hk].
Defined.

(** C10: with a single inclination time the midpoint array is empty, and the
    mask of bin 0 reads its element 0: [warp_cloud] raises [IndexError],
    whatever the points are. *)
Theorem warp_cloud_single_time_raises (pt : list float) (x y z : array)
  (it : list float) (roll pitch : list R) (h : store) :
  length it = 1%nat -> is_array h x ->
  fst (warp_cloud pt x y z it roll pitch h) = Raise IndexError.
Proof.
  intros Hit [v Hv].
  destruct it as [|t [|t' it]]; try discriminate.
  unfold warp_cloud, bind. rewrite Hv. reflexivity.
Qed.

Lemma warp_cloud_single_time_raises_witness :
  fst (warp_cloud (map Num [1; 4]%Q) (Whole 0) (Whole 1) (Whole 2)
         (map Num [3]%Q)
         [0]%R [0]%R store3)
  = Raise IndexError.
Proof.
  apply warp_cloud_single_time_raises.
  - reflexivity.
  - exists [1; 2]%R. reflexivity.
Defined.

End StoreFacts.

(** ** What [warp_cloud] computes *)

Section WarpFacts.
Local Open Scope nat_scope.

Lemma map_nth_seq {A : Type} (l : list A) (d : A) :
  map (fun j => nth j l d) (seq 0 (length l)) = l.
Proof.
  induction l as [|a l IH]; simpl; trivial.
  f_equal. rewrite <- seq_shift, map_map. exact IH.
Qed.

Lemma select_length {A : Type} (mask : list bool) (l : list A) :
  length mask = length l -> length (select mask l) = count_true mask.
Proof.
  unfold count_true. revert l.
  induction mask as [|b mask IH]; intros [|a l] H; simpl in *; try lia.
  destruct b; simpl; rewrite IH; lia.
Qed.

Lemma select_map {A B : Type} (f : A -> B) (mask : list bool) (l : list A) :
  select mask (map f l) = map f (select mask l).
Proof.
  revert l. induction mask as [|b mask IH]; intros [|a l]; simpl; trivial.
  destruct b; simpl; now rewrite IH.
Qed.

Lemma select_combine {A B : Type} (mask : list bool) (l : list A)
  (l' : list B) :
  select mask (combine l l') = combine (select mask l) (select mask l').
Proof.
  revert l l'.
  induction mask as [|b mask IH]; intros [|a l] [|a' l']; simpl; trivial.
  - destruct b; trivial. now destruct (select mask l).
  - destruct b; simpl; now rewrite IH.
Qed.

Lemma select_points (mask : list bool) (x y z : list R) :
  points (select mask x) (select mask y) (select mask z)
  = select mask (points x y z).
Proof.
  unfold points. now rewrite select_map, !select_combine.
Qed.

Lemma points_length (x y z : list R) :
  length y = length x -> length z = length x ->
  length (points x y z) = length x.
Proof.
  intros Hy Hz. unfold points. rewrite length_map, !length_combine. lia.
Qed.

(** The columns of [np.vstack((x, y, z))] are the points. *)
Lemma transpose_vstack (x y z : list R) :
  length y = length x -> length z = length x ->
  transpose [x; y; z] = points x y z.
Proof.
  unfold transpose, points. simpl.
  revert y z. induction x as [|a x IH]; intros [|b y] [|c z] Hy Hz;
    simpl in *; try lia; trivial.
  f_equal. rewrite <- seq_shift, map_map. apply IH; lia.
Qed.

Lemma dot_nil_r (row : list R) : dot row [] = 0%R.
Proof. unfold dot. now rewrite combine_nil. Qed.

(** The transposed product [(m @ cols.T).T] holds the images of the
    columns. *)
Lemma transpose_product (row0 : list R) (m cols : matrix) :
  transpose (map (fun row => map (dot row) cols) (row0 :: m))
  = map (apply_matrix (row0 :: m)) cols.
Proof.
  unfold transpose. cbn [ncols map]. rewrite length_map.
  transitivity (map (apply_matrix (row0 :: m))
                    (map (fun j => nth j cols []) (seq 0 (length cols)))).
  2: now rewrite map_nth_seq.
  rewrite map_map. apply map_ext_in. intros j Hj.
  unfold apply_matrix. cbn [map]. f_equal.
  - rewrite <- (dot_nil_r row0). apply map_nth.
  - rewrite map_map. apply map_ext. intros row.
    rewrite <- (dot_nil_r row). apply map_nth.
Qed.

Lemma matmul_rotation (r p : R) :
  matmul (R_pitch p) (R_roll r) = Ok (rotation r p).
Proof. reflexivity. Qed.

Lemma matmul_points (r p : R) (x y z : list R) :
  length y = length x -> length z = length x ->
  exists prod,
    matmul (rotation r p) [x; y; z] = Ok prod /\
    transpose prod = map (apply_matrix (rotation r p)) (points x y z).
Proof.
  intros Hy Hz. eexists. split; [reflexivity|].
  rewrite (transpose_vstack x y z Hy Hz).
  apply (transpose_product _ _ (points x y z)).
Qed.

(** Writing the images of the selected elements into the selected rows. *)
Lemma assign_rows_map {A : Type} (f : A -> bool) (g v : A -> list R)
  (l : list A) :
  assign_rows (map f l) (map g l) (map v (select (map f l) l))
  = map (fun a => if f a then v a else g a) l.
Proof.
  induction l as [|a l IH]; simpl; trivial.
  destruct (f a); simpl; now rewrite IH.
Qed.

Lemma set_nth_set_nth {A : Type} (l : list A) (i : nat) (a b : A) :
  set_nth (set_nth l i a) i b = set_nth l i b.
Proof.
  revert i. induction l as [|c l IH]; intros [|i]; simpl; trivial.
  now rewrite IH.
Qed.

Lemma nth_error_set_nth_eq {A : Type} (l : list A) (i : nat) (a : A) :
  i < length l -> nth_error (set_nth l i a) i = Some a.
Proof.
  revert i. induction l as [|c l IH]; intros [|i] H; simpl in *; try lia.
  - reflexivity.
  - apply IH. lia.
Qed.

Lemma nth_error_set_nth_neq {A : Type} (l : list A) (i j : nat) (a : A) :
  i <> j -> nth_error (set_nth l i a) j = nth_error l j.
Proof.
  revert i j. induction l as [|c l IH]; intros [|i] [|j] H; simpl; trivial.
  - lia.
  - apply IH. lia.
Qed.

(** An array of [h] reads the same in a store that agrees with [h] on its
    buffer. *)
Lemma read_agree (a : array) (h h' : store) (v : list R) :
  read a h = (Ok v, h) -> nth_error h' (base a) = nth_error h (base a) ->
  read a h' = (Ok v, h').
Proof.
  unfold read. destruct a as [l|l j]; simpl; intros Hr ->;
    destruct (nth_error h l) as [[w|rows]|]; try discriminate.
  - now injection Hr as ->.
  - injection Hr as Hc. now rewrite Hc.
Qed.

Lemma read_base_lt (a : array) (h : store) (v : list R) :
  read a h = (Ok v, h) -> base a < length h.
Proof.
  unfold read. intros Hr. apply nth_error_Some.
  destruct a as [l|l j]; simpl;
    destruct (nth_error h l); discriminate.
Qed.

Lemma bind_ok {A B : Type} (c : M A) (k : A -> M B) (h h' : store) (a : A) :
  c h = (Ok a, h') -> bind c k h = k a h'.
Proof. intros H. unfold bind. now rewrite H. Qed.

Lemma read_mask_ok (a : array) (mask : list bool) (h : store) (v : list R) :
  read a h = (Ok v, h) -> length mask = length v ->
  read_mask a mask h = (Ok (select mask v), h).
Proof.
  intros Hr Hlen. unfold read_mask.
  rewrite (bind_ok _ _ h h v Hr). unfold lift.
  now rewrite getitem_mask_ok.
Qed.

Lemma np_vstack3_ok (a b c : list R) :
  length b = length a -> length c = length a ->
  np_vstack [a; b; c] = Ok [a; b; c].
Proof.
  intros Hb Hc. unfold np_vstack. simpl. now rewrite Hb, Hc, !Nat.eqb_refl.
Qed.

Lemma set_nth_last {A : Type} (l : list A) (a b : A) :
  set_nth (l ++ [a]) (length l) b = l ++ [b].
Proof. induction l as [|c l IH]; simpl; trivial. now rewrite IH. Qed.

Lemma nth_error_last {A : Type} (l : list A) (a : A) :
  nth_error (l ++ [a]) (length l) = Some a.
Proof. induction l as [|c l IH]; simpl; trivial. Qed.

Lemma setitem_rows_last (h : store) (mask : list bool) (rows vals : matrix) :
  length mask = length rows -> count_true mask = length vals ->
  setitem_rows (length h) mask vals (h ++ [Mat rows])
  = (Ok tt, h ++ [Mat (assign_rows mask rows vals)]).
Proof.
  intros Hm Hc. unfold setitem_rows.
  now rewrite nth_error_last, Hm, Hc, !Nat.eqb_refl, set_nth_last.
Qed.

Lemma read_extended (a : array) (h : store) (v : list R) (b : buffer) :
  read a h = (Ok v, h) -> read a (h ++ [b]) = (Ok v, h ++ [b]).
Proof.
  intros Hr. apply (read_agree a h _ v Hr).
  apply nth_error_app1. exact (read_base_lt a h v Hr).
Qed.

Lemma map_fst_combine {A B C : Type} (f : A -> C) (l : list A)
  (l' : list B) :
  length l' = length l ->
  map (fun p => f (fst p)) (combine l l') = map f l.
Proof.
  revert l'. induction l as [|a l IH]; intros [|b l'] H; simpl in *;
    try lia; trivial.
  f_equal. apply IH. lia.
Qed.

Lemma map_snd_combine {A B : Type} (l : list A) (l' : list B) :
  length l' = length l -> map snd (combine l l') = l'.
Proof.
  revert l'. induction l as [|a l IH]; intros [|b l'] H; simpl in *;
    try lia; trivial.
  f_equal. apply IH. lia.
Qed.

Lemma warped_upto_0 (pt it : list float) (roll pitch x y z : list R) :
  length x = length pt -> length y = length pt -> length z = length pt ->
  warped_upto 0 pt it roll pitch x y z = repeat [0; 0; 0]%R (length x).
Proof.
  intros Hx Hy Hz. unfold warped_upto. cbn [Nat.ltb Nat.leb].
  rewrite (map_ext _ (fun _ => [0; 0; 0]%R))
    by (intros tp; now rewrite andb_false_r).
  rewrite map_const, length_combine, points_length by lia.
  f_equal. lia.
Qed.

Section Loop.
Variables (pt it : list float) (roll pitch : list R) (x y z : array).
Variables (xv yv zv : list R) (h : store).
Hypothesis Hx : read x h = (Ok xv, h).
Hypothesis Hy : read y h = (Ok yv, h).
Hypothesis Hz : read z h = (Ok zv, h).
Hypothesis Hlx : length xv = length pt.
Hypothesis Hly : length yv = length pt.
Hypothesis Hlz : length zv = length pt.
Hypothesis Hn : 2 <= length it.
Hypothesis Hs : Sorted fle it.
Hypothesis Hroll : length it <= length roll.
Hypothesis Hpitch : length it <= length pitch.

(** The store once the bins below [k] are done. *)
Let st (k : nat) : store :=
  h ++ [Mat (warped_upto k pt it roll pitch xv yv zv)].

Lemma warp_bin_step (k : nat) :
  k < length it ->
  warp_bin pt (it_mid it) (length it) x y z roll pitch (length h) k (st k)
  = (Ok tt, st (S k)).
Proof.
  intros Hk. unfold warp_bin, st.
  set (rows := warped_upto k pt it roll pitch xv yv zv).
  set (mask := map (fun t => negb (isnan t)
                            && (count_lt (it_mid it) t =? k)) pt).
  assert (Hmask : length mask = length pt) by apply length_map.
  erewrite bind_ok
    by (unfold lift; rewrite bin_mask_eval by assumption; reflexivity).
  erewrite bind_ok
    by (unfold lift; rewrite (getitem_nth roll k 0%R) by lia; reflexivity).
  erewrite bind_ok
    by (unfold lift; rewrite (getitem_nth pitch k 0%R) by lia; reflexivity).
  rewrite (bind_ok _ _ _ _ _
             (f_equal (fun r => (r, h ++ [Mat rows]))
                (matmul_rotation (nth k roll 0%R) (nth k pitch 0%R)))).
  fold mask.
  erewrite bind_ok
    by (apply read_mask_ok; [apply read_extended, Hx | lia]).
  erewrite bind_ok
    by (apply read_mask_ok; [apply read_extended, Hy | lia]).
  erewrite bind_ok
    by (apply read_mask_ok; [apply read_extended, Hz | lia]).
  assert (Hsy : length (select mask yv) = length (select mask xv))
    by (apply select_same_length; lia).
  assert (Hsz : length (select mask zv) = length (select mask xv))
    by (apply select_same_length; lia).
  erewrite bind_ok
    by (unfold lift; rewrite np_vstack3_ok by assumption; reflexivity).
  destruct (matmul_points (nth k roll 0%R) (nth k pitch 0%R)
              (select mask xv) (select mask yv) (select mask zv) Hsy Hsz)
    as [prod [Hprod Ht]].
  erewrite bind_ok by (unfold lift; rewrite Hprod; reflexivity).
  rewrite Ht, select_points.
  set (l := combine pt (points xv yv zv)).
  assert (Hpts : length (points xv yv zv) = length pt)
    by (rewrite points_length; lia).
  set (sel := fun t => negb (isnan t) && (count_lt (it_mid it) t =? k))
    in *.
  assert (Em : mask = map (fun tp => sel (fst tp)) l).
  { unfold mask, l. symmetry. apply (map_fst_combine sel). exact Hpts. }
  assert (Ep : points xv yv zv = map snd l)
    by (unfold l; now rewrite map_snd_combine).
  rewrite setitem_rows_last.
  - do 4 f_equal. unfold rows, warped_upto. fold l.
    rewrite Ep, Em, select_map, map_map.
    rewrite (assign_rows_map
               (fun tp => sel (fst tp))
               _
               (fun tp => apply_matrix
                            (rotation (nth k roll 0%R) (nth k pitch 0%R))
                            (snd tp))).
    apply map_ext. intros tp. cbv zeta. unfold sel.
    destruct (isnan (fst tp)); [reflexivity|]. cbn [negb andb].
    destruct (Nat.eqb_spec (count_lt (it_mid it) (fst tp)) k) as [->|Hne].
    + now rewrite (proj2 (Nat.ltb_lt k (S k))) by lia.
    + destruct (Nat.ltb_spec (count_lt (it_mid it) (fst tp)) k);
        destruct (Nat.ltb_spec (count_lt (it_mid it) (fst tp)) (S k));
        trivial; lia.
  - unfold rows, warped_upto. rewrite length_map. fold l.
    unfold l. rewrite length_combine. lia.
  - rewrite length_map.
    rewrite <- (select_length mask (points xv yv zv)) by lia.
    reflexivity.
Qed.

Lemma warp_loop (m : nat) :
  forall k, k + m <= length it ->
    for_each (seq k m)
      (warp_bin pt (it_mid it) (length it) x y z roll pitch (length h))
      (st k)
    = (Ok tt, st (k + m)).
Proof.
  induction m as [|m IH]; intros k Hk; simpl.
  - now rewrite Nat.add_0_r.
  - rewrite (bind_ok _ _ _ _ _ (warp_bin_step k ltac:(lia))).
    rewrite IH by lia. now rewrite Nat.add_succ_r.
Qed.

(** With inclination times in non-decreasing order, at least two of them,
    and a roll and a pitch per time, [warp_cloud] returns the columns of a
    new buffer whose row [j] is point [j] rotated by the sample of its bin. *)
Lemma warp_cloud_eval :
  warp_cloud pt x y z it roll pitch h
  = (Ok (Column (length h) 0, Column (length h) 1, Column (length h) 2),
     h ++ [Mat (warped pt it roll pitch xv yv zv)]).
Proof.
  unfold warp_cloud.
  rewrite (bind_ok _ _ _ _ _ Hx).
  erewrite bind_ok by reflexivity.
  rewrite <- (warped_upto_0 pt it roll pitch xv yv zv Hlx Hly Hlz).
  fold (st 0).
  rewrite (bind_ok _ _ _ _ _ (warp_loop (length it) 0 ltac:(lia))).
  reflexivity.
Qed.

End Loop.

(** Every row of the result is the image of its point under the rotation of
    the one bin the point lies in, or zero when the time of the point is
    NaN. *)
Lemma warped_rows (pt it : list float) (roll pitch x y z : list R) :
  1 <= length it ->
  warped pt it roll pitch x y z
  = map (fun tp =>
           let i := count_lt (it_mid it) (fst tp) in
           if isnan (fst tp) then [0; 0; 0]%R
           else apply_matrix (rotation (nth i roll 0%R) (nth i pitch 0%R))
                             (snd tp))
        (combine pt (points x y z)).
Proof.
  intros Hit. unfold warped, warped_upto. apply map_ext. intros tp.
  pose proof (count_lt_le (it_mid it) (fst tp)) as Hc.
  rewrite it_mid_length in Hc.
  rewrite (proj2 (Nat.ltb_lt _ _)) by lia.
  now destruct (isnan (fst tp)).
Qed.

(** The rotation in coordinates: roll about the x axis, then pitch about
    the y axis. *)
Lemma apply_rotation (r p x y z : R) :
  apply_matrix (rotation r p) [x; y; z]
  = [ cos (deg2rad p) * x
      + sin (deg2rad p) * (sin (deg2rad r) * y + cos (deg2rad r) * z);
      cos (deg2rad r) * y - sin (deg2rad r) * z;
      - sin (deg2rad p) * x
      + cos (deg2rad p) * (sin (deg2rad r) * y + cos (deg2rad r) * z)
    ]%R.
Proof.
  unfold apply_matrix, rotation, R_pitch, R_roll, transpose, dot, np_sum.
  simpl. f_equal; [ring | f_equal; [ring | f_equal; ring]].
Qed.

(** With zero roll and zero pitch the rotation is the identity. *)
Lemma apply_rotation_zero (x y z : R) :
  apply_matrix (rotation 0 0) [x; y; z] = [x; y; z].
Proof.
  rewrite apply_rotation.
  replace (deg2rad 0) with 0%R by (unfold deg2rad, Rdiv; ring).
  rewrite cos_0, sin_0. f_equal; [ring | f_equal; [ring | f_equal; ring]].
Qed.

End WarpFacts.

(** ** Reading inclination files *)

Section FloatOrder.

Lemma fltb_irrefl (a : float) : fltb a a = false.
Proof.
  destruct a as [|p]; simpl; trivial.
  apply Qltb_ge, Qle_refl.
Qed.

Lemma fle_trans (a b c : float) :
  fltb b a = false -> fltb c b = false -> fltb c a = false.
Proof.
  destruct a as [|p], b as [|q], c as [|r]; simpl; trivial; try discriminate.
  rewrite !Qltb_ge. apply Qle_trans.
Qed.

Lemma fle_flt_trans (a b c : float) :
  fltb b a = false -> fltb b c = true -> fltb a c = true.
Proof.
  destruct a as [|p], b as [|q], c as [|r]; simpl; trivial; try discriminate.
  rewrite Qltb_ge, !Qltb_lt. apply Qle_lt_trans.
Qed.

Lemma flt_asym (a b : float) : fltb a b = true -> fltb b a = false.
Proof.
  destruct a as [|p], b as [|q]; simpl; trivial; try discriminate.
  rewrite Qltb_ge, Qltb_lt. apply Qlt_le_weak.
Qed.

Lemma fle_neq_flt (a b : float) :
  isnan b = false ->
  fltb b a = false -> feqb a b = false -> fltb a b = true.
Proof.
  destruct a as [|p], b as [|q]; simpl; trivial; try discriminate.
  intros _ Hle Hne. apply Qltb_ge in Hle. apply Qltb_lt.
  apply Qle_lteq in Hle as [Hlt|Heq]; trivial.
  apply Qeq_bool_iff in Heq. congruence.
Qed.

Lemma feqb_refl (a : float) : isnan a = false -> feqb a a = true.
Proof.
  destruct a as [|p]; simpl; [discriminate|].
  intros _. apply Qeq_bool_iff, Qeq_refl.
Qed.

Lemma feqb_sym (a b : float) : feqb a b = true -> feqb b a = true.
Proof.
  destruct a as [|p], b as [|q]; simpl; trivial.
  rewrite !Qeq_bool_iff. apply Qeq_sym.
Qed.

Lemma feqb_trans (a b c : float) :
  feqb a b = true -> feqb b c = true -> feqb a c = true.
Proof.
  destruct a as [|p], b as [|q], c as [|r]; simpl; trivial; try discriminate.
  rewrite !Qeq_bool_iff. apply Qeq_trans.
Qed.

Lemma feqb_not_flt (a b : float) : feqb a b = true -> fltb a b = false.
Proof.
  destruct a as [|p], b as [|q]; simpl; trivial; try discriminate.
  rewrite Qeq_bool_iff, Qltb_ge. intros H. rewrite H. apply Qle_refl.
Qed.

Lemma feqb_fgt0 (a b : float) : feqb a b = true -> fgt0 a = fgt0 b.
Proof.
  destruct a as [|p], b as [|q]; simpl; trivial; try discriminate.
  rewrite Qeq_bool_iff. intros H.
  destruct (Qltb 0 q) eqn:E.
  - apply Qltb_lt. apply Qltb_lt in E. now rewrite H.
  - apply Qltb_ge. apply Qltb_ge in E. now rewrite H.
Qed.

Lemma fgt0_not_nan (a : float) : fgt0 a = true -> isnan a = false.
Proof. destruct a; [discriminate | reflexivity]. Qed.

End FloatOrder.

Section UniqueFacts.
Variable ar : list float.
Local Open Scope nat_scope.

#[local] Abbreviation keyf := (key ar).
#[local] Abbreviation before := (before ar).
#[local] Abbreviation heads := (heads ar).
#[local] Abbreviation numkey := (fun i : nat => isnan (key ar i) = false).

Lemma in_insert_idx (i x : nat) (l : list nat) :
  In x (insert_idx ar i l) <-> x = i \/ In x l.
Proof.
  induction l as [|j l IH]; simpl.
  - intuition.
  - destruct (fltb (keyf j) (keyf i)); simpl; rewrite ?IH; intuition.
Qed.

Lemma insert_idx_nodup (i : nat) (l : list nat) :
  ~ In i l -> NoDup l -> NoDup (insert_idx ar i l).
Proof.
  induction l as [|j l IH]; intros Hi Hl; simpl.
  - constructor; [intros [] | constructor].
  - inversion_clear Hl as [|? ? Hj Hl'].
    destruct (fltb (keyf j) (keyf i)).
    + constructor.
      * rewrite in_insert_idx. intros [->|H]; [apply Hi; now left | auto].
      * apply IH; trivial. intros H. apply Hi. now right.
    + constructor; trivial. now constructor.
Qed.

Lemma insert_idx_sorted (i : nat) (l : list nat) :
  (forall j, In j l -> i < j) ->
  StronglySorted before l -> StronglySorted before (insert_idx ar i l).
Proof.
  intros Hi Hs. induction Hs as [|j l Hs IH Hall]; simpl.
  - repeat constructor.
  - rewrite Forall_forall in Hall.
    destruct (fltb (keyf j) (keyf i)) eqn:E.
    + constructor.
      * apply IH. intros k Hk. apply Hi. now right.
      * apply Forall_forall. intros x Hx.
        apply in_insert_idx in Hx as [->|Hx]; [|now apply Hall].
        split; [now apply flt_asym | now left].
    + assert (Hij : before i j).
      { split; [assumption|]. right. apply Hi. now left. }
      constructor; [now constructor; [|apply Forall_forall]|].
      constructor; trivial.
      apply Forall_forall. intros x Hx.
      destruct (Hall x Hx) as [Hle _].
      split.
      * apply fle_trans with (keyf j); assumption.
      * right. apply Hi. now right.
Qed.

Lemma argsort_from (start len : nat) :
  let perm := fold_right (insert_idx ar) [] (seq start len) in
  (forall x, In x perm <-> In x (seq start len)) /\
  NoDup perm /\
  StronglySorted before perm.
Proof.
  revert start. induction len as [|len IH]; intros start; simpl.
  - repeat split; trivial; constructor.
  - destruct (IH (S start)) as [Hin [Hnd Hs]].
    repeat split.
    + rewrite in_insert_idx, Hin. intuition.
    + intros [->|H]; apply in_insert_idx; [now left|].
      right. now apply Hin.
    + apply insert_idx_nodup; trivial.
      rewrite Hin, in_seq. lia.
    + apply insert_idx_sorted; trivial.
      intros j Hj. apply Hin, in_seq in Hj. lia.
Qed.

Lemma argsort_in (x : nat) : In x (argsort ar) <-> x < length ar.
Proof.
  unfold argsort. destruct (argsort_from 0 (length ar)) as [Hin _].
  rewrite Hin, in_seq. lia.
Qed.

Lemma argsort_sorted : StronglySorted before (argsort ar).
Proof. apply argsort_from. Qed.

Lemma heads_cons (prev j : nat) (rest : list nat) :
  heads prev (j :: rest)
  = if negb (feqb (keyf j) (keyf prev)) then j :: heads j rest
    else heads j rest.
Proof. reflexivity. Qed.

(** A kept index has a key larger than the key of [prev], and every other
    index of the run either has a smaller key or comes after it. *)
Lemma heads_spec (rest : list nat) :
  forall prev,
    StronglySorted before (prev :: rest) -> Forall numkey rest ->
    forall i, In i (heads prev rest) ->
      In i rest /\
      fltb (keyf prev) (keyf i) = true /\
      (forall e, In e (prev :: rest) ->
         e = i \/ fltb (keyf e) (keyf i) = true \/ before i e).
Proof.
  induction rest as [|j rest IH]; intros prev Hs Hnum i Hi; [destruct Hi|].
  inversion Hs as [|? ? Hs' Hall]; subst.
  inversion Hnum as [|? ? Hj Hnum']; subst.
  rewrite Forall_forall in Hall.
  assert (Hpj : before prev j) by (apply Hall; now left).
  rewrite heads_cons in Hi.
  assert (Hrec : In i (heads j rest) ->
                 In i (j :: rest) /\
                 fltb (keyf prev) (keyf i) = true /\
                 (forall e, In e (prev :: j :: rest) ->
                    e = i \/ fltb (keyf e) (keyf i) = true \/ before i e)).
  { intros Hin. destruct (IH j Hs' Hnum' i Hin) as [Hir [Hji Hothers]].
    assert (Hpi : fltb (keyf prev) (keyf i) = true)
      by (apply fle_flt_trans with (keyf j); [apply Hpj | assumption]).
    split; [now right|]. split; [assumption|].
    intros e [<-|He]; [right; now left | now apply Hothers]. }
  destruct (feqb (keyf j) (keyf prev)) eqn:E; simpl in Hi; [now apply Hrec|].
  destruct Hi as [<-|Hi]; [|now apply Hrec].
  assert (Hpi : fltb (keyf prev) (keyf j) = true).
  { apply fle_neq_flt; [assumption | apply Hpj |].
    destruct (feqb (keyf prev) (keyf j)) eqn:E'; trivial.
    apply feqb_sym in E'. congruence. }
  split; [now left|]. split; [assumption|].
  intros e [<-|[<-|He]].
  - right. now left.
  - now left.
  - right. right. inversion Hs' as [|? ? _ Hall']; subst.
    rewrite Forall_forall in Hall'. now apply Hall'.
Qed.

Lemma heads_sorted (rest : list nat) :
  forall prev,
    StronglySorted before (prev :: rest) -> Forall numkey rest ->
    StronglySorted (fun a b => fltb (keyf a) (keyf b) = true)
                   (heads prev rest).
Proof.
  induction rest as [|j rest IH]; intros prev Hs Hnum; [constructor|].
  inversion Hs as [|? ? Hs' Hall]; subst.
  inversion Hnum as [|? ? Hj Hnum']; subst.
  rewrite heads_cons.
  destruct (negb _); [|now apply IH].
  constructor; [now apply IH|].
  apply Forall_forall. intros i Hi.
  now apply (heads_spec rest j Hs' Hnum' i Hi).
Qed.

Lemma heads_cover (rest : list nat) :
  forall prev,
    Forall numkey rest ->
    forall e, In e rest ->
      feqb (keyf prev) (keyf e) = true \/
      exists i, In i (heads prev rest) /\ feqb (keyf i) (keyf e) = true.
Proof.
  induction rest as [|j rest IH]; intros prev Hnum e He; [destruct He|].
  inversion Hnum as [|? ? Hj Hnum']; subst.
  rewrite heads_cons.
  destruct (feqb (keyf j) (keyf prev)) eqn:E; simpl.
  - destruct He as [<-|He]; [left; now apply feqb_sym|].
    destruct (IH j Hnum' e He) as [Hje|Hex]; [|now right].
    left. apply feqb_trans with (keyf j); [now apply feqb_sym | assumption].
  - right. destruct He as [<-|He].
    + exists j. split; [now left | now apply feqb_refl].
    + destruct (IH j Hnum' e He) as [Hje|[i [Hi Hie]]].
      * exists j. split; [now left | assumption].
      * exists i. split; [now right | assumption].
Qed.

Lemma np_unique_idx :
  snd (np_unique ar)
  = match argsort ar with
    | [] => []
    | p0 :: rest => p0 :: heads p0 rest
    end.
Proof.
  unfold np_unique. simpl. destruct (argsort ar); reflexivity.
Qed.

(** What [np.unique] returns as indices, for keys without NaN: indices of
    [ar], with strictly increasing keys, each the first index of its key,
    and every key of [ar] is represented. *)
Lemma np_unique_idx_spec :
  Forall (fun a => isnan a = false) ar ->
  let idx := snd (np_unique ar) in
  (forall i, In i idx -> i < length ar) /\
  StronglySorted (fun a b => fltb (keyf a) (keyf b) = true) idx /\
  (forall i, In i idx ->
     forall j, j < length ar -> feqb (keyf j) (keyf i) = true -> i <= j) /\
  (forall j, j < length ar ->
     exists i, In i idx /\ feqb (keyf i) (keyf j) = true).
Proof.
  intros Hnan idx. unfold idx. rewrite np_unique_idx.
  pose proof argsort_sorted as Hs.
  pose proof argsort_in as Hin.
  assert (Hnum : forall i, i < length ar -> numkey i).
  { intros i Hi. rewrite Forall_forall in Hnan. apply Hnan, nth_In, Hi. }
  destruct (argsort ar) as [|p0 rest] eqn:Eperm.
  { split; [|split; [|split]].
    - intros ? [].
    - constructor.
    - intros ? [].
    - intros j Hj. apply Hin in Hj. destruct Hj. }
  assert (Hnum' : Forall numkey rest).
  { apply Forall_forall. intros i Hi. apply Hnum, Hin. now right. }
  assert (Hfirst : forall i, In i (p0 :: heads p0 rest) ->
            In i (p0 :: rest) /\
            forall e, In e (p0 :: rest) ->
              e = i \/ fltb (keyf e) (keyf i) = true \/ before i e).
  { intros i [<-|Hi].
    - split; [now left|]. intros e [<-|He]; [now left|].
      right. right. inversion Hs as [|? ? _ Hall]; subst.
      rewrite Forall_forall in Hall. now apply Hall.
    - destruct (heads_spec rest p0 Hs Hnum' i Hi) as [Hir [_ Hothers]].
      split; [now right | assumption]. }
  split; [|split; [|split]].
  - intros i Hi. apply Hin. now apply Hfirst.
  - constructor; [now apply heads_sorted|].
    apply Forall_forall. intros i Hi.
    now apply (heads_spec rest p0 Hs Hnum' i Hi).
  - intros i Hi j Hj Heq.
    destruct (Hfirst i Hi) as [_ Hothers].
    destruct (Hothers j (proj2 (Hin j) Hj)) as [->|[Hlt|[Hle [Hlt|Hlt]]]].
    + lia.
    + apply feqb_not_flt in Heq. congruence.
    + apply feqb_sym, feqb_not_flt in Heq. congruence.
    + lia.
  - intros j Hj. apply Hin in Hj. destruct Hj as [<-|Hj].
    + exists p0. split; [now left|]. apply feqb_refl, Hnum, Hin. now left.
    + destruct (heads_cover rest p0 Hnum' j Hj) as [H0|[i [Hi Hie]]].
      * exists p0. split; [now left | assumption].
      * exists i. split; [now right | assumption].
Qed.

End UniqueFacts.

Section GetInclFacts.
Local Open Scope nat_scope.

Lemma select_map_filter {A : Type} (f : A -> bool) (l : list A) :
  select (map f l) l = filter f l.
Proof.
  induction l as [|a l IH]; simpl; trivial.
  now rewrite IH.
Qed.

Lemma filter_filter_and {A : Type} (f g : A -> bool) (l : list A) :
  filter g (filter f l) = filter (fun a => f a && g a) l.
Proof.
  induction l as [|a l IH]; simpl; trivial.
  destruct (f a); simpl; [destruct (g a)|]; now rewrite IH.
Qed.

(** An element of a filtered list, with what precedes it there, comes from
    an element of the list with its own prefix. *)
Lemma filter_split_first {A : Type} (f : A -> bool) (l l1 l2 : list A)
  (r : A) :
  filter f l = l1 ++ r :: l2 ->
  exists pre post, l = pre ++ r :: post /\ filter f pre = l1.
Proof.
  revert l1. induction l as [|a l IH]; intros l1 H; simpl in H.
  - destruct l1; discriminate.
  - destruct (f a) eqn:E.
    + destruct l1 as [|b l1]; simpl in H.
      * injection H as -> _. exists [], l. split; reflexivity.
      * injection H as -> H. destruct (IH l1 H) as [pre [post [-> Hpre]]].
        exists (b :: pre), post. split; [reflexivity|].
        simpl. now rewrite E, Hpre.
    + destruct (IH l1 H) as [pre [post [-> Hpre]]].
      exists (a :: pre), post. split; [reflexivity|].
      simpl. now rewrite E.
Qed.

Lemma split_at_nth {A : Type} (l : list A) (i : nat) (d : A) :
  i < length l -> l = firstn i l ++ nth i l d :: skipn (S i) l.
Proof.
  revert i. induction l as [|a l IH]; intros [|i] Hi; simpl in *; try lia.
  - reflexivity.
  - f_equal. apply IH. lia.
Qed.

Lemma StronglySorted_map {A B : Type} (f : A -> B) (R : B -> B -> Prop)
  (l : list A) :
  StronglySorted (fun a b => R (f a) (f b)) l -> StronglySorted R (map f l).
Proof.
  induction 1 as [|a l Hs IH Hall]; simpl; constructor; trivial.
  rewrite Forall_forall in *. intros b Hb.
  apply in_map_iff in Hb as [x [<- Hx]]. now apply Hall.
Qed.

Lemma np_loadtxt_rows (data : list row) :
  2 <= length data -> np_loadtxt data = Arr2 data.
Proof.
  destruct data as [|[[t r] p] [|b data]]; simpl; try lia. reflexivity.
Qed.

Lemma key_time (rows : list row) (i : nat) :
  key (map time rows) i = time (nth i rows nan_row).
Proof. unfold key. apply (map_nth time rows nan_row). Qed.

Lemma keep_not_nan (rows : list row) :
  Forall (fun a => isnan a = false) (map time (filter keep rows)).
Proof.
  apply Forall_forall. intros a Ha.
  apply in_map_iff in Ha as [r [<- Hr]].
  apply filter_In in Hr as [_ Hk]. unfold keep in Hk.
  apply andb_true_iff in Hk as [_ Hk]. now apply negb_true_iff.
Qed.

(** With at least two data rows, [get_incl] keeps, from the rows with a
    positive time, those that [np.unique] points at. *)
Lemma get_incl_rows_eval (data : list row) :
  2 <= length data ->
  get_incl_rows data
  = Ok (map (fun i => nth i (filter keep data) nan_row)
            (snd (np_unique (map time (filter keep data))))).
Proof.
  intros Hn. unfold get_incl_rows. rewrite np_loadtxt_rows by assumption.
  rewrite getitem_mask_ok by apply length_map.
  simpl. rewrite select_map_filter.
  rewrite getitem_mask_ok by apply length_map.
  simpl. rewrite select_map_filter, filter_filter_and.
  fold keep.
  change (filter (fun r => fgt0 (time r) && negb (isnan (time r))) data)
    with (filter keep data).
  set (rows := filter keep data).
  destruct (np_unique (map time rows)) as [garbage idx] eqn:E.
  replace idx with (snd (np_unique (map time rows))) by now rewrite E.
  rewrite <- (map_id (snd (np_unique (map time rows)))) at 1.
  rewrite map_map.
  apply (take_nat rows nan_row (fun i : nat => i)).
  intros i Hi.
  pose proof (np_unique_idx_spec (map time rows) (keep_not_nan data))
    as [Hlt _].
  rewrite <- (length_map time). now apply Hlt.
Qed.

(** C2, as amended: for a file with at least two data rows, [get_incl]
    returns rows whose times are strictly increasing and positive; every
    positive time of the file is the time of a returned row; and each
    returned row is the first row of the file with its time. *)
Theorem get_incl_dedup (data : list row) :
  2 <= length data ->
  exists incl,
    get_incl data
    = Ok (map time incl, map roll_of incl, map pitch_of incl) /\
    StronglySorted (fun a b => fltb a b = true) (map time incl) /\
    Forall (fun r => fgt0 (time r) = true) incl /\
    (forall r, In r data -> fgt0 (time r) = true ->
       exists r', In r' incl /\ feqb (time r') (time r) = true) /\
    Forall (first_occurrence data) incl.
Proof.
  intros Hn.
  set (rows := filter keep data).
  set (idx := snd (np_unique (map time rows))).
  pose proof (np_unique_idx_spec (map time rows) (keep_not_nan data))
    as [Hlt [Hsorted [Hfirst Hcover]]].
  fold rows in Hlt, Hsorted, Hfirst, Hcover. fold idx in Hlt, Hsorted, Hfirst, Hcover.
  rewrite length_map in Hlt, Hfirst, Hcover.
  exists (map (fun i => nth i rows nan_row) idx).
  split; [|split; [|split; [|split]]].
  - unfold get_incl. rewrite get_incl_rows_eval by assumption. reflexivity.
  - rewrite map_map. apply StronglySorted_map.
    eapply StronglySorted_ind with
      (P := StronglySorted
              (fun a b => fltb (time (nth a rows nan_row))
                               (time (nth b rows nan_row)) = true));
      [constructor | | exact Hsorted].
    intros a l _ IH Hall. constructor; trivial.
    rewrite Forall_forall in *. intros b Hb.
    specialize (Hall b Hb). now rewrite !key_time in Hall.
  - apply Forall_forall. intros r Hr.
    apply in_map_iff in Hr as [i [<- Hi]].
    assert (Hin : In (nth i rows nan_row) rows) by (apply nth_In; auto).
    apply filter_In in Hin as [_ Hk]. unfold keep in Hk.
    now apply andb_true_iff in Hk as [Hk _].
  - intros r Hr Hpos.
    assert (Hin : In r rows).
    { apply filter_In. split; trivial. unfold keep.
      now rewrite Hpos, (fgt0_not_nan _ Hpos). }
    destruct (In_nth rows r nan_row Hin) as [j [Hj Ej]].
    destruct (Hcover j Hj) as [i [Hi Heq]].
    exists (nth i rows nan_row).
    split; [apply in_map_iff; exists i; split; trivial|].
    rewrite !key_time, Ej in Heq. exact Heq.
  - apply Forall_forall. intros r Hr.
    apply in_map_iff in Hr as [i [<- Hi]].
    pose proof (Hlt i Hi) as Hil.
    pose proof (split_at_nth rows i nan_row Hil) as Hsplit.
    destruct (filter_split_first keep data _ _ _ Hsplit)
      as [pre [post [Hdata Hpre]]].
    exists pre, post. split; [assumption|].
    intros r' Hr'.
    destruct (feqb (time r') (time (nth i rows nan_row))) eqn:E; trivial.
    exfalso.
    assert (Hpos : fgt0 (time (nth i rows nan_row)) = true).
    { assert (Hin : In (nth i rows nan_row) rows) by (apply nth_In; auto).
      apply filter_In in Hin as [_ Hk]. unfold keep in Hk.
      now apply andb_true_iff in Hk as [Hk _]. }
    rewrite <- (feqb_fgt0 _ _ E) in Hpos.
    assert (Hin : In r' (firstn i rows)).
    { rewrite <- Hpre. apply filter_In. split; trivial. unfold keep.
      now rewrite Hpos, (fgt0_not_nan _ Hpos). }
    destruct (In_nth _ _ nan_row Hin) as [j [Hj Ej]].
    rewrite length_firstn in Hj.
    rewrite nth_firstn in Ej.
    destruct (Nat.ltb_spec j i) as [Hji|Hji]; [|lia].
    assert (i <= j); [|lia].
    apply (Hfirst i Hi j); [lia|].
    now rewrite !key_time, Ej.
Qed.

Lemma get_incl_dedup_witness :
  exists incl,
    get_incl [(Num 3, Num 1, Num 1); (Num 1, Num 2, Num 2);
              (Num 3, Num 9, Num 9); (NaN, Num 0, Num 0)]%Q
    = Ok (map time incl, map roll_of incl, map pitch_of incl) /\
    incl = [(Num 1, Num 2, Num 2); (Num 3, Num 1, Num 1)]%Q.
Proof.
  destruct (get_incl_dedup
              [(Num 3, Num 1, Num 1); (Num 1, Num 2, Num 2);
               (Num 3, Num 9, Num 9); (NaN, Num 0, Num 0)]%Q)
    as [incl [Hget _]].
  - simpl. lia.
  - exists incl. split; [exact Hget|].
    vm_compute in Hget.
    injection Hget as Ht Hr Hp.
    destruct incl as [|[[t1 r1] p1] [|[[t2 r2] p2] [|? ?]]];
      simpl in *; try discriminate.
    now injection Ht as <- <-; injection Hr as <- <-; injection Hp as <- <-.
Defined.

(** C2, as stated, fails on a file with a single data row: [np.loadtxt]
    returns a 1-D array for it, and [incl[:,0]] raises. *)
Lemma get_incl_single_row_raises :
  get_incl [(Num 1, Num 2, Num 3)]%Q = Raise IndexError /\
  ~ exists incl,
      get_incl [(Num 1, Num 2, Num 3)]%Q
      = Ok (map time incl, map roll_of incl, map pitch_of incl).
Proof.
  split; [reflexivity|]. intros [incl H]. discriminate H.
Qed.

End GetInclFacts.

(** ** Writing inclination files *)

Section SaveInclFacts.
Local Open Scope string_scope.











(** The ten-thousandths printed are the nearest to the absolute value. *)
Lemma scaled_nearest (q : Q) :
  (2 * Z.abs (scaled q * Zpos (Qden q) - Z.abs (Qnum q) * 10000)
   <= Zpos (Qden q))%Z.
Proof.
  unfold scaled, round_half_even.
  set (num := (Z.abs (Qnum q) * 10000)%Z).
  set (den := Zpos (Qden q)).
  assert (Hden : (0 < den)%Z) by (unfold den; lia).
  pose proof (Z.div_mod num den ltac:(lia)) as Hdm.
  pose proof (Z.mod_pos_bound num den Hden) as Hr.
  set (qt := (num / den)%Z) in *. set (r := (num mod den)%Z) in *.
  destruct (Z.compare_spec (2 * r) den) as [He|Hl|Hg].
  - destruct (Z.even qt); nia.
  - nia.
  - nia.
Qed.









End SaveInclFacts.

(** * Further properties of the code *)

(** ** The filter beyond the default kernel *)

Section FilterMore.
Local Open Scope R_scope.

(** X1: for every odd kernel length from 3 on and every series with at least
    [kernel_length // 2] samples, the filtered series has the length of the
    series. *)
Theorem filter_incl_odd_kernel_keeps_length (incl : list R) (k : nat) :
  Nat.odd k = true -> (3 <= k)%nat -> (k / 2 <= length incl)%nat ->
  exists out, filter_incl incl k = Ok out /\ length out = length incl.
Proof. apply filter_incl_length. Qed.

Lemma filter_incl_odd_kernel_keeps_length_witness :
  exists out,
    filter_incl [1; 2; 3; 4] 5 = Ok out /\ length out = length [1; 2; 3; 4].
Proof.
  apply filter_incl_odd_kernel_keeps_length.
  - reflexivity.
  - lia.
  - simpl. lia.
Defined.

(** X2: with an even kernel length the two pads add [kernel_length] samples
    and the convolution removes [kernel_length - 1]: the filtered series is
    one sample longer than the series. *)
Theorem filter_incl_even_kernel_adds_sample (incl : list R) (k : nat) :
  Nat.even k = true -> (2 <= k)%nat -> (k / 2 <= length incl)%nat ->
  exists out, filter_incl incl k = Ok out /\ length out = S (length incl).
Proof.
  intros Heven Hk Hn. unfold filter_incl.
  set (p := (k / 2)%nat) in *.
  assert (Hkp : k = (2 * p)%nat).
  { pose proof (Nat.div_mod_eq k 2) as E. fold p in E.
    rewrite <- Nat.bit0_mod, Nat.bit0_odd, <- Nat.negb_even, Heven in E.
    simpl in E. lia. }
  assert (Hp : (0 < p)%nat) by lia.
  rewrite np_convolve_valid_ok.
  - eexists. split; [reflexivity|].
    rewrite correlate_valid_length, length_rev, !length_app, !length_map,
      !length_rev, length_firstn, slice_last_length, np_blackman_length by lia.
    lia.
  - intros E. apply (f_equal (@length R)) in E.
    rewrite length_map, np_blackman_length in E. simpl in E. lia.
  - rewrite !length_app, !length_map, !length_rev, length_firstn,
      slice_last_length, np_blackman_length by lia.
    lia.
Qed.

Lemma filter_incl_even_kernel_adds_sample_witness :
  exists out,
    filter_incl [1; 2; 3] 4 = Ok out /\ length out = S (length [1; 2; 3]).
Proof.
  apply filter_incl_even_kernel_adds_sample.
  - reflexivity.
  - lia.
  - simpl. lia.
Defined.

Lemma correlate_valid_single (a : list R) (c : R) :
  a <> [] -> correlate_valid a [c] = map (fun v => v * c + 0) a.
Proof.
  intros Ha. unfold correlate_valid.
  replace (length a - length [c] + 1)%nat with (length a)
    by (destruct a; [congruence | simpl; lia]).
  clear Ha. induction a as [|x a IH]; trivial.
  cbn [length seq map]. f_equal.
  - unfold dot, np_sum. simpl. now rewrite combine_nil.
  - rewrite <- seq_shift, map_map. exact IH.
Qed.

(** X3: with [kernel_length = 1] the pad width is 0, and [incl[-0:]] is the
    whole series: the result is the series followed by its mirror image
    about the mean of its last ten samples, so twice as long as the
    series. *)
Theorem filter_incl_unit_kernel_doubles (incl : list R) :
  incl <> [] ->
  filter_incl incl 1
  = Ok (incl ++ map (fun v => 2 * np_mean (firstn 10 (rev incl)) - v)
                    (rev incl)).
Proof.
  intros Hne. unfold filter_incl.
  change (1 / 2)%nat with 0%nat. cbn [firstn rev map slice_last app].
  change (np_blackman 1) with [1].
  cbn [map].
  set (padded := incl ++ map _ (rev incl)).
  assert (Hp : padded <> [])
    by (unfold padded; destruct incl; [congruence | discriminate]).
  rewrite np_convolve_valid_ok;
    [| discriminate | destruct padded; [congruence | simpl; lia]].
  cbn [rev app]. rewrite (correlate_valid_single padded _ Hp).
  f_equal. rewrite <- (map_id padded) at 2.
  apply map_ext. intros v. unfold np_sum. simpl. field.
Qed.

Lemma filter_incl_unit_kernel_doubles_witness :
  filter_incl [1; 3] 1
  = Ok ([1; 3] ++ map (fun v => 2 * np_mean (firstn 10 (rev [1; 3])) - v)
                      (rev [1; 3])).
Proof. apply filter_incl_unit_kernel_doubles. discriminate. Defined.

(** X4: an empty series is refused by the convolution, whatever the kernel
    length. *)
Theorem filter_incl_empty_raises (k : nat) :
  filter_incl [] k = Raise ValueError.
Proof.
  unfold filter_incl.
  assert (Hs : slice_last (k / 2) (@nil R) = []) by (destruct (k / 2)%nat; reflexivity).
  rewrite Hs, firstn_nil. cbn [rev map app].
  unfold np_convolve_valid. cbn [length].
  destruct (map _ (np_blackman k)) as [|w ws]; reflexivity.
Qed.

(** *** Filtering commutes with a change of scale and offset *)

Lemma np_sum_affine (a c : R) (l : list R) :
  np_sum (map (fun v => a * v + c) l) = a * np_sum l + c * INR (length l).
Proof.
  induction l as [|x l IH].
  - simpl. lra.
  - cbn [map length]. rewrite S_INR. unfold np_sum in *. simpl.
    rewrite IH. lra.
Qed.

Lemma np_mean_affine (a c : R) (l : list R) :
  l <> [] -> np_mean (map (fun v => a * v + c) l) = a * np_mean l + c.
Proof.
  intros Hl. unfold np_mean. rewrite np_sum_affine, length_map.
  field. apply not_0_INR. destruct l; [congruence | discriminate].
Qed.

Lemma slice_last_map {A B : Type} (f : A -> B) (n : nat) (l : list A) :
  slice_last n (map f l) = map f (slice_last n l).
Proof.
  destruct n; simpl; trivial. now rewrite length_map, skipn_map.
Qed.

(** A pad reflected about the mean of a non-empty slice follows the change
    of scale and offset. *)
Lemma reflect_affine (a c : R) (side pad : list R) :
  side <> [] ->
  map (fun v => 2 * np_mean (map (fun v => a * v + c) side) - v)
      (map (fun v => a * v + c) pad)
  = map (fun v => a * v + c) (map (fun v => 2 * np_mean side - v) pad).
Proof.
  intros Hs. rewrite np_mean_affine by assumption.
  rewrite !map_map. apply map_ext. intros v. ring.
Qed.

Lemma dot_affine (a c : R) (w : list R) :
  forall l, (length w <= length l)%nat ->
    dot (map (fun v => a * v + c) l) w = a * dot l w + c * np_sum w.
Proof.
  unfold dot, np_sum.
  induction w as [|x w IH]; intros l Hl.
  - rewrite !combine_nil. simpl. ring.
  - destruct l as [|y l]; [simpl in Hl; lia|].
    simpl in *. rewrite IH by lia. ring.
Qed.

Lemma correlate_valid_affine (a c : R) (l w : list R) :
  (length w <= length l)%nat ->
  correlate_valid (map (fun v => a * v + c) l) w
  = map (fun v => a * v + c * np_sum w) (correlate_valid l w).
Proof.
  intros Hl. unfold correlate_valid. rewrite length_map, map_map.
  apply map_ext_in. intros i Hi. apply in_seq in Hi.
  rewrite skipn_map. apply dot_affine. rewrite length_skipn. lia.
Qed.

Lemma slice_last_nonempty {A : Type} (n : nat) (l : list A) :
  l <> [] -> slice_last n l <> [].
Proof.
  intros Hl E. apply (f_equal (@length A)) in E.
  destruct n as [|n]; simpl in E.
  - destruct l; [congruence | discriminate].
  - rewrite length_skipn in E.
    destruct l; [congruence | cbn [length] in E; lia].
Qed.

Lemma firstn_nonempty {A : Type} (n : nat) (l : list A) :
  (0 < n)%nat -> l <> [] -> firstn n l <> [].
Proof.
  intros Hn Hl. destruct n; [lia|]. destruct l; [congruence | discriminate].
Qed.

Lemma rev_nonempty {A : Type} (l : list A) : l <> [] -> rev l <> [].
Proof.
  intros Hl E. apply (f_equal (@rev A)) in E. rewrite rev_involutive in E.
  now apply Hl.
Qed.

Lemma filter_incl_affine_eval (a c : R) (incl : list R) (k : nat) :
  (3 <= k)%nat -> (k / 2 <= length incl)%nat ->
  exists out,
    filter_incl incl k = Ok out /\
    filter_incl (map (fun v => a * v + c) incl) k
    = Ok (map (fun v => a * v + c) out).
Proof.
  intros Hk Hn. unfold filter_incl.
  set (p := (k / 2)%nat) in *.
  assert (Hkp : (k <= 2 * p + 1)%nat).
  { pose proof (Nat.div_mod_eq k 2) as E. fold p in E.
    pose proof (Nat.mod_upper_bound k 2 ltac:(lia)). lia. }
  assert (Hp : (1 <= p)%nat) by lia.
  assert (Hne : incl <> []) by (intros ->; simpl in Hn; lia).
  set (kernel := map (fun w => w / np_sum (np_blackman k)) (np_blackman k)).
  assert (Hkl : length kernel = k)
    by (unfold kernel; now rewrite length_map, np_blackman_length).
  assert (Hkne : kernel <> [])
    by (intros E; rewrite E in Hkl; simpl in Hkl; lia).
  assert (Hsum : np_sum (rev kernel) = 1)
    by (rewrite np_sum_rev; apply normalised_blackman_sum; lia).
  rewrite !firstn_map, !slice_last_map, <- !map_rev.
  rewrite !slice_last_map, !firstn_map.
  rewrite !reflect_affine.
  2:{ apply firstn_nonempty; [lia|].
      now apply rev_nonempty, slice_last_nonempty. }
  2:{ now apply slice_last_nonempty, rev_nonempty, firstn_nonempty. }
  rewrite <- !map_app.
  set (padded := _ ++ incl ++ _).
  assert (Hpl : (k <= length padded)%nat).
  { unfold padded.
    rewrite !length_app, !length_map, !length_rev, length_firstn,
      slice_last_length by lia.
    lia. }
  rewrite !np_convolve_valid_ok by (trivial; rewrite ?length_map; lia).
  eexists. split; [reflexivity|].
  rewrite correlate_valid_affine by (rewrite length_rev; lia).
  rewrite Hsum. f_equal. apply map_ext. intros v. ring.
Qed.

(** X5: for a kernel length of at least 3, filtering commutes with a change
    of scale and offset of the samples (degrees to radians, the removal of a
    constant bias): the pads are reflected about local means and the
    normalised kernel sums to one. *)
Theorem filter_incl_commutes_with_affine (a c : R) (incl : list R) (k : nat) :
  (3 <= k)%nat -> (k / 2 <= length incl)%nat ->
  exists out,
    filter_incl incl k = Ok out /\
    filter_incl (map (fun v => a * v + c) incl) k
    = Ok (map (fun v => a * v + c) out).
Proof. apply filter_incl_affine_eval. Qed.

Lemma filter_incl_commutes_with_affine_witness :
  exists out,
    filter_incl [1; 2; 4] 3 = Ok out /\
    filter_incl (map (fun v => 2 * v + 5) [1; 2; 4]) 3
    = Ok (map (fun v => 2 * v + 5) out).
Proof.
  apply filter_incl_commutes_with_affine.
  - lia.
  - simpl. lia.
Defined.

(** X6: removing the mean of a (non-empty) registration series and then
    filtering, as [mr_warp_adj] does, gives the filtered survey series with
    the registration mean removed. *)
Theorem filter_incl_after_mean_removal
  (roll pitch reg_roll reg_pitch : list R) (k : nat) :
  (3 <= k)%nat ->
  (k / 2 <= length roll)%nat -> (k / 2 <= length pitch)%nat ->
  reg_roll <> [] -> reg_pitch <> [] ->
  exists froll fpitch,
    filter_incl roll k = Ok froll /\
    filter_incl pitch k = Ok fpitch /\
    let mr := remove_reg_mean_incl roll pitch reg_roll reg_pitch in
    filter_incl (fst mr) k
    = Ok (fst (remove_reg_mean_incl froll fpitch reg_roll reg_pitch)) /\
    filter_incl (snd mr) k
    = Ok (snd (remove_reg_mean_incl froll fpitch reg_roll reg_pitch)).
Proof.
  intros Hk Hr Hp _ _.
  destruct (filter_incl_affine_eval 1 (- np_mean reg_roll) roll k Hk Hr)
    as [froll [Hfr Hfr']].
  destruct (filter_incl_affine_eval 1 (- np_mean reg_pitch) pitch k Hk Hp)
    as [fpitch [Hfp Hfp']].
  exists froll, fpitch. split; [assumption|]. split; [assumption|].
  unfold remove_reg_mean_incl. cbn [fst snd].
  split.
  - rewrite (map_ext (fun r => r - np_mean reg_roll)
                     (fun v => 1 * v + - np_mean reg_roll))
      by (intros; ring).
    rewrite Hfr'. f_equal. apply map_ext. intros; ring.
  - rewrite (map_ext (fun p => p - np_mean reg_pitch)
                     (fun v => 1 * v + - np_mean reg_pitch))
      by (intros; ring).
    rewrite Hfp'. f_equal. apply map_ext. intros; ring.
Qed.

Lemma filter_incl_after_mean_removal_witness :
  exists froll fpitch,
    filter_incl [1; 2; 4] 3 = Ok froll /\
    filter_incl [0; 1; 0] 3 = Ok fpitch /\
    let mr := remove_reg_mean_incl [1; 2; 4] [0; 1; 0] [1; 3] [2] in
    filter_incl (fst mr) 3
    = Ok (fst (remove_reg_mean_incl froll fpitch [1; 3] [2])) /\
    filter_incl (snd mr) 3
    = Ok (snd (remove_reg_mean_incl froll fpitch [1; 3] [2])).
Proof.
  apply filter_incl_after_mean_removal.
  - lia.
  - simpl. lia.
  - simpl. lia.
  - discriminate.
  - discriminate.
Defined.

End FilterMore.

(** ** Reading inclination files: degenerate and clean files *)

Section GetInclMore.
Local Open Scope nat_scope.

(** X7: a file with no data row, or with a single one, cannot be read:
    [np.loadtxt] gives a 1-D array and [incl[:,0]] raises. *)
Theorem get_incl_short_file_raises (data : list row) :
  length data <= 1 -> get_incl data = Raise IndexError.
Proof.
  intros H. destruct data as [|[[t r] p] [|r' data]]; simpl in H; try lia;
    reflexivity.
Qed.

Lemma get_incl_short_file_raises_witness :
  get_incl [(NaN, Num 1, Num 2)] = Raise IndexError.
Proof. apply get_incl_short_file_raises. simpl. lia. Defined.

Lemma filter_none {A : Type} (f : A -> bool) (l : list A) :
  Forall (fun a => f a = false) l -> filter f l = [].
Proof.
  induction 1 as [|a l Ha _ IH]; simpl; trivial. now rewrite Ha.
Qed.

Lemma filter_all {A : Type} (f : A -> bool) (l : list A) :
  Forall (fun a => f a = true) l -> filter f l = l.
Proof.
  induction 1 as [|a l Ha _ IH]; simpl; trivial. now rewrite Ha, IH.
Qed.

(** X8: when no row has a positive time (all are zero, negative or NaN) the
    three arrays returned are empty; nothing is raised. *)
Theorem get_incl_no_positive_time (data : list row) :
  2 <= length data ->
  Forall (fun r => fgt0 (time r) = false) data ->
  get_incl data = Ok ([], [], []).
Proof.
  intros Hn Hall. unfold get_incl.
  rewrite get_incl_rows_eval by assumption.
  rewrite (filter_none keep data).
  - reflexivity.
  - eapply Forall_impl; [|exact Hall].
    intros r Hr. unfold keep. now rewrite Hr.
Qed.

Lemma get_incl_no_positive_time_witness :
  get_incl [(Num 0, Num 1, Num 2); (NaN, Num 3, Num 4);
            (Num (-5), Num 6, Num 7)]%Q
  = Ok ([], [], []).
Proof.
  apply get_incl_no_positive_time.
  - simpl. lia.
  - repeat constructor.
Defined.

(** On keys in strictly increasing order the stable sort changes nothing
    and every index starts a run. *)
Lemma argsort_increasing (ar : list float) :
  StronglySorted (fun a b => fltb a b = true) ar ->
  argsort ar = seq 0 (length ar).
Proof.
  intros Hs. unfold argsort.
  assert (Hkey : forall i, S i < length ar ->
            fltb (key ar (S i)) (key ar i) = false).
  { intros i Hi. apply flt_asym. unfold key.
    clear -Hs Hi. revert i Hi.
    induction Hs as [|a l Hs IH Hall]; intros i Hi; simpl in Hi; [lia|].
    destruct i as [|i].
    - rewrite Forall_forall in Hall. apply Hall. simpl.
      destruct l; [simpl in Hi; lia | now left].
    - apply (IH i). lia. }
  generalize (Nat.le_refl (length ar)).
  generalize (length ar) at 1 3 4 as len.
  intros len. change len with (0 + len) at 1.
  generalize 0 as s.
  induction len as [|len IH]; intros s Hle; trivial.
  cbn [seq fold_right]. rewrite IH by lia.
  destruct len as [|len]; trivial.
  cbn [seq insert_idx]. now rewrite Hkey by lia.
Qed.

Lemma heads_increasing (ar : list float) (rest : list nat) :
  forall prev,
    StronglySorted (fun i j => fltb (key ar i) (key ar j) = true)
                   (prev :: rest) ->
    heads ar prev rest = rest.
Proof.
  induction rest as [|j rest IH]; intros prev Hs; trivial.
  inversion Hs as [|? ? Hs' Hall]; subst.
  rewrite heads_cons.
  assert (E : feqb (key ar j) (key ar prev) = false).
  { destruct (feqb (key ar j) (key ar prev)) eqn:E; trivial.
    apply feqb_sym, feqb_not_flt in E.
    rewrite Forall_forall in Hall.
    assert (fltb (key ar prev) (key ar j) = true) by (apply Hall; now left).
    congruence. }
  rewrite E. simpl. f_equal. now apply IH.
Qed.

Lemma StronglySorted_seq_key (rows : list row) :
  StronglySorted (fun a b => fltb a b = true) (map time rows) ->
  StronglySorted
    (fun i j => fltb (key (map time rows) i) (key (map time rows) j) = true)
    (seq 0 (length rows)).
Proof.
  intros Hs.
  assert (H : forall i j, i < j < length rows ->
            fltb (key (map time rows) i) (key (map time rows) j) = true).
  { unfold key. rewrite <- (length_map time).
    induction Hs as [|a l Hs IH Hall]; intros i j Hij; simpl in Hij; [lia|].
    destruct j as [|j]; [lia|]. destruct i as [|i]; simpl.
    - rewrite Forall_forall in Hall. apply Hall, nth_In. lia.
    - apply IH. lia. }
  revert H. generalize (length rows) as n. intros n H.
  assert (G : forall len s, s + len <= n ->
            StronglySorted
              (fun i j => fltb (key (map time rows) i)
                               (key (map time rows) j) = true)
              (seq s len)).
  { induction len as [|len IH]; intros s Hle; simpl; constructor.
    - apply IH. lia.
    - apply Forall_forall. intros j Hj. apply in_seq in Hj. apply H. lia. }
  apply (G n 0). lia.
Qed.

(** X9: a file whose times are already positive and strictly increasing is
    returned as it is, column by column. *)
Theorem get_incl_clean_file (data : list row) :
  2 <= length data ->
  Forall (fun r => fgt0 (time r) = true) data ->
  StronglySorted (fun a b => fltb a b = true) (map time data) ->
  get_incl data = Ok (map time data, map roll_of data, map pitch_of data).
Proof.
  intros Hn Hpos Hs. unfold get_incl.
  rewrite get_incl_rows_eval by assumption.
  assert (Hk : filter keep data = data).
  { apply filter_all. eapply Forall_impl; [|exact Hpos].
    intros r Hr. unfold keep. now rewrite Hr, (fgt0_not_nan _ Hr). }
  rewrite Hk, np_unique_idx, argsort_increasing by assumption.
  rewrite length_map.
  assert (Hidx : match seq 0 (length data) with
                 | [] => []
                 | p0 :: rest => p0 :: heads (map time data) p0 rest
                 end = seq 0 (length data)).
  { pose proof (StronglySorted_seq_key data Hs) as Hseq.
    destruct (seq 0 (length data)) as [|p0 rest]; trivial.
    now rewrite heads_increasing. }
  rewrite Hidx, map_nth_seq. reflexivity.
Qed.

Lemma get_incl_clean_file_witness :
  get_incl [(Num 1, Num 5, Num 6); (Num 2.5, Num 7, Num 8)]%Q
  = Ok (map time [(Num 1, Num 5, Num 6); (Num 2.5, Num 7, Num 8)]%Q,
        map roll_of [(Num 1, Num 5, Num 6); (Num 2.5, Num 7, Num 8)]%Q,
        map pitch_of [(Num 1, Num 5, Num 6); (Num 2.5, Num 7, Num 8)]%Q).
Proof.
  apply get_incl_clean_file.
  - simpl. lia.
  - repeat constructor.
  - repeat constructor.
Defined.

End GetInclMore.

(** ** Azimuth extraction: which point, and when it fails *)

Section GetPhiMore.
Local Open Scope R_scope.

Lemma select_none {A : Type} (mask : list bool) (l : list A) :
  Forall (fun b => b = false) mask -> select mask l = [].
Proof.
  intros H. revert l. induction H as [|b mask Hb _ IH]; intros [|a l]; trivial.
  simpl. rewrite Hb. apply IH.
Qed.

Lemma far_mask_none (x y : list coord) :
  length y = length x ->
  (forall j, (j < length x)%nat ->
     ~ 100 < sqrt (value (nth j x (Re 0)) ^ 2
                   + value (nth j y (Re 0)) ^ 2)) ->
  exists mask,
    far_mask x y = Ok mask /\ length mask = length x /\
    Forall (fun b => b = false) mask.
Proof.
  intros Hy Hnear. rewrite far_mask_eval by assumption.
  eexists. split; [reflexivity|]. split.
  - rewrite length_map, length_combine. lia.
  - apply Forall_forall. intros b Hb.
    apply in_map_iff in Hb as [p [<- Hp]].
    destruct (In_nth _ _ (Re 0, Re 0) Hp) as [j [Hj Ej]].
    rewrite length_combine in Hj.
    rewrite combine_nth in Ej by lia. subst p. simpl fst. simpl snd.
    unfold Rltb. destruct (Rlt_dec 100 _) as [Hfar|_]; trivial.
    exfalso. apply (Hnear j); [lia | exact Hfar].
Qed.

(** X10: when no point lies further than 100 from the origin, the masked
    arrays are empty: with at least one inclination time the clamped index
    is -1 and the lookup raises; with none, an empty array is returned. *)
Theorem get_phi_without_far_point (it pt : list Q) (x y : list coord) :
  length pt = length x -> length y = length x ->
  (forall j, (j < length x)%nat ->
     ~ 100 < sqrt (value (nth j x (Re 0)) ^ 2
                   + value (nth j y (Re 0)) ^ 2)) ->
  get_phi it pt x y
  = match it with
    | [] => Ok []
    | _ :: _ => Raise IndexError
    end.
Proof.
  intros Hpt Hy Hnear.
  destruct (far_mask_none x y Hy Hnear) as [mask [Hm [Hlen Hnone]]].
  unfold get_phi. rewrite Hm. simpl.
  rewrite !getitem_mask_ok by lia. simpl.
  rewrite !select_none by assumption.
  destruct it as [|t it]; [reflexivity|].
  unfold np_searchsorted, searchsorted_idx. cbn [searchsorted_from].
  destruct (Qltb t t); reflexivity.
Qed.

Lemma get_phi_without_far_point_witness :
  get_phi [5%Q] [1%Q; 2%Q] [Re 3; Re 0] [Re 4; Re 100] = Raise IndexError.
Proof.
  apply (get_phi_without_far_point [5%Q] [1%Q; 2%Q]
           [Re 3; Re 0] [Re 4; Re 100]).
  - reflexivity.
  - reflexivity.
  - intros j Hj.
    assert (Hc : j = 0%nat \/ j = 1%nat) by (simpl in Hj; lia).
    destruct Hc as [-> | ->]; simpl.
    + replace (3 * (3 * 1) + 4 * (4 * 1)) with (5 * 5) by lra.
      rewrite sqrt_square; lra.
    + replace (0 * (0 * 1) + 100 * (100 * 1)) with (100 * 100) by lra.
      rewrite sqrt_square; lra.
Defined.

Lemma select_sorted {A : Type} (R : A -> A -> Prop) (mask : list bool)
  (l : list A) :
  StronglySorted R l -> StronglySorted R (select mask l).
Proof.
  intros Hs. revert mask.
  induction Hs as [|a l Hs IH Hall]; intros [|b mask]; simpl;
    try constructor.
  destruct b; [|apply IH].
  constructor; [apply IH|].
  rewrite Forall_forall in *. intros c Hc. apply Hall.
  now apply (select_incl mask l).
Qed.

(** X11: over points in ascending time order, the azimuth of an inclination
    time [t] is taken at the first far point whose time is not before [t],
    and at the last far point when [t] is after them all. *)
Theorem get_phi_takes_first_point_not_before
  (it pt : list Q) (x y : list coord) :
  length pt = length x -> length y = length x ->
  (exists j, (j < length x)%nat /\
             100 < sqrt (value (nth j x (Re 0)) ^ 2
                         + value (nth j y (Re 0)) ^ 2)) ->
  StronglySorted Qle pt ->
  exists mask phi,
    far_mask x y = Ok mask /\
    get_phi it pt x y = Ok phi /\
    forall k t, nth_error it k = Some t ->
      exists i,
        (i < length (select mask pt))%nat /\
        nth_error phi k
        = Some (np_arctan2 (nth i (select mask y) (Re 0))
                           (nth i (select mask x) (Re 0))) /\
        (forall j, (j < i)%nat -> (nth j (select mask pt) 0 < t)%Q) /\
        ((t <= nth i (select mask pt) 0)%Q \/
         (i = length (select mask pt) - 1)%nat /\
         forall j, (j < length (select mask pt))%nat ->
                   (nth j (select mask pt) 0 < t)%Q).
Proof.
  intros Hpt Hy Hfar Hs.
  destruct (get_phi_eval it pt x y Hpt Hy Hfar)
    as [mask [Hm [_ [Hne Hphi]]]].
  exists mask. eexists. split; [exact Hm|]. split; [exact Hphi|].
  intros k t Hk.
  set (pt' := select mask pt) in *.
  assert (Hs' : StronglySorted Qle pt') by now apply select_sorted.
  destruct (searchsorted1_spec pt' t Hs') as [Hlt Hge].
  pose proof (searchsorted1_le pt' t) as Hle.
  assert (Hpos : (0 < length pt')%nat)
    by (destruct pt'; [congruence | simpl; lia]).
  exists (Nat.min (searchsorted1 pt' t) (length pt' - 1)).
  split; [lia|]. split.
  - rewrite (searchsorted_idx_sorted pt' it Hs'), map_map.
    rewrite nth_error_map, Hk. reflexivity.
  - split.
    + intros j Hj. apply Hlt. lia.
    + destruct (Nat.lt_ge_cases (searchsorted1 pt' t) (length pt'))
        as [Hin|Hout].
      * left. apply Hge. lia.
      * right. split; [lia|]. intros j Hj. apply Hlt. lia.
Qed.

Lemma get_phi_takes_first_point_not_before_witness :
  exists mask phi,
    far_mask [Re 200; Re 1; Re 0] [Re 0; Re 1; Re 300] = Ok mask /\
    get_phi [2%Q; 9%Q] [1%Q; 2%Q; 3%Q]
      [Re 200; Re 1; Re 0] [Re 0; Re 1; Re 300] = Ok phi.
Proof.
  destruct (get_phi_takes_first_point_not_before
              [2%Q; 9%Q] [1%Q; 2%Q; 3%Q]
              [Re 200; Re 1; Re 0] [Re 0; Re 1; Re 300])
    as [mask [phi [Hm [Hphi Hall]]]].
  - reflexivity.
  - reflexivity.
  - exists 0%nat. split; [simpl; lia|]. simpl.
    replace (200 * (200 * 1) + 0 * (0 * 1)) with (200 * 200) by lra.
    rewrite sqrt_square; lra.
  - repeat constructor; discriminate.
  - exists mask, phi. split; [exact Hm | exact Hphi].
Defined.

End GetPhiMore.

(** ** The global rotation *)

Section RotateMore.
Local Open Scope R_scope.

(** With a non-empty roll and pitch series (and, in [center] mode, a pitch
    at the centre index of the roll), [rotate_cloud] returns the columns of a
    new buffer that holds every point rotated by the chosen angles. *)
Lemma rotate_cloud_eval (x y z : array) (roll pitch : list R) (m : mode)
  (xv yv zv : list R) (h : store) :
  read x h = (Ok xv, h) -> read y h = (Ok yv, h) -> read z h = (Ok zv, h) ->
  length yv = length xv -> length zv = length xv ->
  roll <> [] -> pitch <> [] ->
  (m = center -> (length roll / 2 < length pitch)%nat) ->
  rotate_cloud x y z roll pitch m h
  = (Ok (Column (length h) 0%nat, Column (length h) 1%nat, Column (length h) 2%nat),
     h ++ [Mat (map (apply_matrix
                       (rotation (fst (chosen_angles roll pitch m))
                                 (snd (chosen_angles roll pitch m))))
                    (points xv yv zv))]).
Proof.
  intros Hx Hy Hz Hly Hlz Hr Hp Hc. unfold rotate_cloud.
  assert (Hang : (match m with
                  | center =>
                      r <- getitem roll (length roll / 2) ;;
                      p <- getitem pitch (length roll / 2) ;;
                      Ok (r, p)
                  | mean => Ok (np_mean roll, np_mean pitch)
                  end) = Ok (chosen_angles roll pitch m)).
  { destruct m; [|reflexivity].
    assert (length roll / 2 < length roll)%nat.
    { apply Nat.div_lt; [|lia]. destruct roll; [congruence | simpl; lia]. }
    rewrite (getitem_nth roll _ 0) by assumption. simpl.
    rewrite (getitem_nth pitch _ 0) by auto. reflexivity. }
  erewrite bind_ok by (unfold lift; rewrite Hang; reflexivity).
  set (r := fst (chosen_angles roll pitch m)).
  set (p := snd (chosen_angles roll pitch m)).
  rewrite (bind_ok _ _ _ _ _
             (f_equal (fun r => (r, h)) (matmul_rotation r p))).
  rewrite (bind_ok _ _ _ _ _ Hx), (bind_ok _ _ _ _ _ Hy),
    (bind_ok _ _ _ _ _ Hz).
  erewrite bind_ok
    by (unfold lift; rewrite np_vstack3_ok by assumption; reflexivity).
  destruct (matmul_points r p xv yv zv Hly Hlz) as [prod [Hprod Ht]].
  erewrite bind_ok by (unfold lift; rewrite Hprod; reflexivity).
  rewrite Ht. reflexivity.
Qed.

(** X12: [rotate_cloud] returns the columns of a new buffer in which every
    point is rotated by one and the same pair of angles: the roll and pitch
    at the centre index of the roll series, or the means of the two
    series. *)
Theorem rotate_cloud_rotates_every_point (x y z : array)
  (roll pitch : list R) (m : mode) (xv yv zv : list R) (h : store) :
  read x h = (Ok xv, h) -> read y h = (Ok yv, h) -> read z h = (Ok zv, h) ->
  length yv = length xv -> length zv = length xv ->
  roll <> [] -> pitch <> [] ->
  (m = center -> (length roll / 2 < length pitch)%nat) ->
  rotate_cloud x y z roll pitch m h
  = (Ok (Column (length h) 0%nat, Column (length h) 1%nat, Column (length h) 2%nat),
     h ++ [Mat (map (apply_matrix
                       (rotation (fst (chosen_angles roll pitch m))
                                 (snd (chosen_angles roll pitch m))))
                    (points xv yv zv))]).
Proof. apply rotate_cloud_eval. Qed.

Lemma rotate_cloud_rotates_every_point_witness :
  rotate_cloud (Whole 0%nat) (Whole 1%nat) (Whole 2%nat) [1; 2; 3] [4; 5; 6] center store3
  = (Ok (Column 3%nat 0%nat, Column 3%nat 1%nat, Column 3%nat 2%nat),
     store3 ++ [Mat (map (apply_matrix (rotation 2 5))
                         (points [1; 2] [3; 4] [5; 6]))]).
Proof.
  apply (rotate_cloud_rotates_every_point (Whole 0%nat) (Whole 1%nat) (Whole 2%nat)
           [1; 2; 3] [4; 5; 6] center [1; 2] [3; 4] [5; 6] store3);
    try reflexivity; try discriminate.
  intros _. simpl. lia.
Defined.

Lemma column_points (x y z : list R) :
  length y = length x -> length z = length x ->
  column 0%nat (points x y z) = Ok x /\
  column 1%nat (points x y z) = Ok y /\
  column 2%nat (points x y z) = Ok z.
Proof.
  unfold points. revert y z.
  induction x as [|a x IH]; intros [|b y] [|c z] Hy Hz; simpl in *;
    try lia; auto.
  destruct (IH y z) as [H0 [H1 H2]]; try lia.
  unfold getitem. simpl. now rewrite H0, H1, H2.
Qed.

Lemma map_apply_rotation_zero (x y z : list R) :
  map (apply_matrix (rotation 0 0)) (points x y z) = points x y z.
Proof.
  unfold points. rewrite map_map. apply map_ext.
  intros [[a b] c]. apply apply_rotation_zero.
Qed.

Lemma np_mean_zeros (l : list R) :
  Forall (fun v => v = 0) l -> np_mean l = 0.
Proof.
  intros H. unfold np_mean.
  assert (E : np_sum l = 0).
  { induction H as [|v l Hv _ IH]; trivial.
    unfold np_sum in *. simpl. rewrite Hv, IH. lra. }
  rewrite E. unfold Rdiv. ring.
Qed.

(** X13: with a roll and a pitch series of zeros the rotation is the
    identity: the coordinates returned are those of the cloud, in a new
    buffer. *)
Theorem rotate_cloud_zero_inclination (x y z : array)
  (roll pitch : list R) (m : mode) (xv yv zv : list R) (h : store) :
  read x h = (Ok xv, h) -> read y h = (Ok yv, h) -> read z h = (Ok zv, h) ->
  length yv = length xv -> length zv = length xv ->
  roll <> [] -> length pitch = length roll ->
  Forall (fun v => v = 0) roll -> Forall (fun v => v = 0) pitch ->
  exists x_rot y_rot z_rot h',
    rotate_cloud x y z roll pitch m h = (Ok (x_rot, y_rot, z_rot), h') /\
    fst (read x_rot h') = Ok xv /\
    fst (read y_rot h') = Ok yv /\
    fst (read z_rot h') = Ok zv /\
    fresh (length h) (x_rot, y_rot, z_rot).
Proof.
  intros Hx Hy Hz Hly Hlz Hr Hlp Hr0 Hp0.
  assert (Hp : pitch <> [])
    by (destruct pitch, roll; try congruence; discriminate).
  assert (Hlt : (length roll / 2 < length roll)%nat).
  { apply Nat.div_lt; [|lia]. destruct roll; [congruence | simpl; lia]. }
  rewrite (rotate_cloud_eval x y z roll pitch m xv yv zv h)
    by (trivial; intros _; lia).
  assert (Hang : chosen_angles roll pitch m = (0, 0)).
  { destruct m; unfold chosen_angles.
    - rewrite Forall_forall in Hr0, Hp0.
      rewrite (Hr0 (nth (length roll / 2) roll 0)) by (apply nth_In; lia).
      rewrite (Hp0 (nth (length roll / 2) pitch 0)) by (apply nth_In; lia).
      reflexivity.
    - now rewrite !np_mean_zeros. }
  rewrite Hang. cbn [fst snd]. rewrite map_apply_rotation_zero.
  destruct (column_points xv yv zv Hly Hlz) as [H0 [H1 H2]].
  do 4 eexists. split; [reflexivity|].
  unfold read. rewrite !nth_error_last. cbn [fst].
  repeat split; trivial; simpl; lia.
Qed.

Lemma rotate_cloud_zero_inclination_witness :
  exists x_rot y_rot z_rot h',
    rotate_cloud (Whole 0%nat) (Whole 1%nat) (Whole 2%nat) [0; 0] [0; 0] mean store3
    = (Ok (x_rot, y_rot, z_rot), h') /\
    fst (read x_rot h') = Ok [1; 2] /\
    fst (read y_rot h') = Ok [3; 4] /\
    fst (read z_rot h') = Ok [5; 6] /\
    fresh (length store3) (x_rot, y_rot, z_rot).
Proof.
  apply (rotate_cloud_zero_inclination (Whole 0%nat) (Whole 1%nat) (Whole 2%nat)
           [0; 0] [0; 0] mean [1; 2] [3; 4] [5; 6] store3);
    try reflexivity; try discriminate; repeat constructor.
Defined.

(** X14: the rotation [R_pitch @ R_roll] that [rotate_cloud] and
    [warp_cloud] apply keeps the distance of every point to the origin. *)
Theorem rotation_keeps_norm (r p x y z : R) :
  norm2 (apply_matrix (rotation r p) [x; y; z]) = norm2 [x; y; z].
Proof.
  rewrite apply_rotation. unfold norm2, np_sum. simpl.
  set (cr := cos (deg2rad r)). set (sr := sin (deg2rad r)).
  set (cp := cos (deg2rad p)). set (sp := sin (deg2rad p)).
  assert (Hr : sr * sr + cr * cr = 1)
    by (pose proof (sin2_cos2 (deg2rad r)) as H; unfold Rsqr in H; exact H).
  assert (Hp : sp * sp + cp * cp = 1)
    by (pose proof (sin2_cos2 (deg2rad p)) as H; unfold Rsqr in H; exact H).
  replace ((cp * x + sp * (sr * y + cr * z))
           * ((cp * x + sp * (sr * y + cr * z)) * 1)
           + ((cr * y - sr * z) * ((cr * y - sr * z) * 1)
              + ((- sp * x + cp * (sr * y + cr * z))
                 * ((- sp * x + cp * (sr * y + cr * z)) * 1) + 0)))
    with ((sp * sp + cp * cp) * (x * x)
          + (sp * sp + cp * cp) * ((sr * sr + cr * cr) * (y * y + z * z))
          + (1 - (sp * sp + cp * cp)) * (cr * y - sr * z) * (cr * y - sr * z))
    by ring.
  rewrite Hr, Hp. ring.
Qed.

(** X15: in [center] mode an empty roll series, or a pitch series that does
    not reach the centre index of the roll, makes [rotate_cloud] raise
    [IndexError] before anything is read or allocated. *)
Theorem rotate_cloud_center_out_of_range (x y z : array)
  (roll pitch : list R) (h : store) :
  roll = [] \/ (length pitch <= length roll / 2)%nat ->
  rotate_cloud x y z roll pitch center h = (Raise IndexError, h).
Proof.
  intros Hp. unfold rotate_cloud, bind, lift.
  assert (E : (r <- getitem roll (length roll / 2) ;;
               p <- getitem pitch (length roll / 2) ;;
               Ok (r, p)) = Raise IndexError).
  { unfold getitem.
    destruct (nth_error roll (length roll / 2)) as [r|] eqn:Er;
      cbn [rbind]; trivial.
    destruct Hp as [->|Hp]; [destruct (0 / 2)%nat; discriminate|].
    now rewrite (proj2 (nth_error_None pitch _) Hp). }
  now rewrite E.
Qed.

Lemma rotate_cloud_center_out_of_range_witness :
  rotate_cloud (Whole 0%nat) (Whole 1%nat) (Whole 2%nat) [] [] center store3
  = (Raise IndexError, store3).
Proof. apply rotate_cloud_center_out_of_range. now left. Defined.

End RotateMore.

(** ** The time-varying rotation *)

Section WarpMore.
Local Open Scope nat_scope.

Lemma bind_raise {A B : Type} (c : M A) (k : A -> M B) (h h' : store)
  (e : exn) :
  c h = (Raise e, h') -> bind c k h = (Raise e, h').
Proof. intros H. unfold bind. now rewrite H. Qed.

(** X16: with inclination times in non-decreasing order, at least two of
    them, a roll and a pitch for each, and a cloud with one time per point,
    [warp_cloud] returns the columns of a new buffer in which every point
    whose time is a number is rotated by the sample of the one bin it lies
    in; a point whose time is NaN lies in no bin and its row is zero. *)
Theorem warp_cloud_rotates_by_bin (pt it : list float) (roll pitch : list R)
  (x y z : array) (xv yv zv : list R) (h : store) :
  read x h = (Ok xv, h) -> read y h = (Ok yv, h) -> read z h = (Ok zv, h) ->
  length xv = length pt -> length yv = length pt -> length zv = length pt ->
  2 <= length it -> Sorted fle it ->
  length it <= length roll -> length it <= length pitch ->
  warp_cloud pt x y z it roll pitch h
  = (Ok (Column (length h) 0, Column (length h) 1, Column (length h) 2),
     h ++ [Mat (map (fun tp =>
                       let i := count_lt (it_mid it) (fst tp) in
                       if isnan (fst tp) then [0; 0; 0]%R
                       else apply_matrix
                              (rotation (nth i roll 0%R) (nth i pitch 0%R))
                              (snd tp))
                    (combine pt (points xv yv zv)))]) /\
  forall j t, nth_error pt j = Some t ->
    (isnan t = false -> in_bin pt it (count_lt (it_mid it) t) j) /\
    (isnan t = true -> forall i, i < length it -> ~ in_bin pt it i j).
Proof.
  intros Hx Hy Hz Hlx Hly Hlz Hn Hs Hroll Hpitch. split.
  - rewrite (warp_cloud_eval pt it roll pitch x y z xv yv zv h) by assumption.
    rewrite warped_rows by lia. reflexivity.
  - intros j t Hj.
    pose proof (count_lt_le (it_mid it) t) as Hc.
    rewrite it_mid_length in Hc.
    split.
    + intros Ht. apply (in_bin_iff pt it _ j t Hn Hs Hj); [lia | auto].
    + intros Ht i Hi Hin.
      apply (in_bin_iff pt it i j t Hn Hs Hj Hi) in Hin as [Hnum _].
      congruence.
Qed.

Lemma warp_cloud_rotates_by_bin_witness :
  fst (warp_cloud [Num 4; NaN] (Whole 0) (Whole 1) (Whole 2)
         (map Num [0; 2; 6]%Q) [10; 20; 30]%R [1; 2; 3]%R store3)
  = Ok (Column 3 0, Column 3 1, Column 3 2) /\
  in_bin [Num 4; NaN] (map Num [0; 2; 6]%Q) 1 0 /\
  ~ in_bin [Num 4; NaN] (map Num [0; 2; 6]%Q) 0 1.
Proof.
  assert (Hs : Sorted fle (map Num [0; 2; 6]%Q)) by repeat constructor.
  destruct (warp_cloud_rotates_by_bin [Num 4; NaN] (map Num [0; 2; 6]%Q)
              [10; 20; 30]%R [1; 2; 3]%R (Whole 0) (Whole 1) (Whole 2)
              [1; 2]%R [3; 4]%R [5; 6]%R store3
              eq_refl eq_refl eq_refl eq_refl eq_refl eq_refl
              ltac:(simpl; lia) Hs ltac:(simpl; lia) ltac:(simpl; lia))
    as [Hw Hb].
  split; [now rewrite Hw|]. split.
  - exact (proj1 (Hb 0 (Num 4) eq_refl) eq_refl).
  - apply (proj2 (Hb 1 NaN eq_refl) eq_refl). simpl. lia.
Defined.

(** X17: with no inclination sample at all the loop does not run, and
    [warp_cloud] returns, without an error, a cloud in which every
    coordinate is zero. *)
Theorem warp_cloud_without_samples (pt : list float) (x y z : array)
  (roll pitch xv : list R) (h : store) :
  read x h = (Ok xv, h) ->
  warp_cloud pt x y z [] roll pitch h
  = (Ok (Column (length h) 0, Column (length h) 1, Column (length h) 2),
     h ++ [Mat (repeat [0; 0; 0]%R (length xv))]).
Proof.
  intros Hx. unfold warp_cloud.
  rewrite (bind_ok _ _ _ _ _ Hx). reflexivity.
Qed.

Lemma warp_cloud_without_samples_witness :
  warp_cloud (map Num [1; 4]%Q) (Whole 0) (Whole 1) (Whole 2) [] [] [] store3
  = (Ok (Column 3 0, Column 3 1, Column 3 2),
     store3 ++ [Mat (repeat [0; 0; 0]%R (length [1; 2]%R))]).
Proof. apply warp_cloud_without_samples. reflexivity. Defined.

(** X18: when the number of point times differs from the number of points,
    the first mask does not fit the coordinate arrays and [warp_cloud]
    raises [IndexError]. *)
Theorem warp_cloud_length_mismatch (pt it : list float) (roll pitch : list R)
  (x y z : array) (xv : list R) (h : store) :
  read x h = (Ok xv, h) -> length xv <> length pt ->
  2 <= length it -> roll <> [] -> pitch <> [] ->
  fst (warp_cloud pt x y z it roll pitch h) = Raise IndexError.
Proof.
  intros Hx Hlen Hn Hr Hp. unfold warp_cloud.
  rewrite (bind_ok _ _ _ _ _ Hx).
  erewrite bind_ok by reflexivity.
  set (h1 := h ++ _).
  destruct it as [|t0 [|t1 it]]; try (simpl in Hn; lia).
  destruct roll as [|r roll]; [congruence|].
  destruct pitch as [|p pitch]; [congruence|].
  assert (Hbody :
    warp_bin pt (it_mid (t0 :: t1 :: it)) (length (t0 :: t1 :: it))
      x y z (r :: roll) (p :: pitch) (length h) 0 h1
    = (Raise IndexError, h1)).
  { unfold warp_bin. rewrite it_mid_cons2.
    erewrite bind_ok by reflexivity.
    erewrite bind_ok by reflexivity.
    erewrite bind_ok by reflexivity.
    rewrite (bind_ok _ _ _ _ _
               (f_equal (fun m => (m, h1)) (matmul_rotation r p))).
    apply bind_raise. unfold read_mask, h1.
    rewrite (bind_ok _ _ _ _ _ (read_extended x h xv _ Hx)).
    unfold lift, getitem_mask. rewrite length_map.
    destruct (Nat.eqb_spec (length pt) (length xv)) as [E|_]; [|reflexivity].
    congruence. }
  cbn [length seq for_each].
  rewrite (bind_raise _ _ _ _ _ (bind_raise _ _ _ _ _ Hbody)).
  reflexivity.
Qed.

Lemma warp_cloud_length_mismatch_witness :
  fst (warp_cloud (map Num [1; 4; 5]%Q) (Whole 0) (Whole 1) (Whole 2)
         (map Num [0; 2]%Q) [10; 20]%R [1; 2]%R store3)
  = Raise IndexError.
Proof.
  apply (warp_cloud_length_mismatch (map Num [1; 4; 5]%Q)
           (map Num [0; 2]%Q) [10; 20]%R [1; 2]%R
           (Whole 0) (Whole 1) (Whole 2) [1; 2]%R store3);
    try reflexivity; try discriminate.
Defined.

End WarpMore.

(** ** The rigid transform of [sop_pop_cloud] *)

Section SopPopMore.
Local Open Scope nat_scope.

Lemma transpose_vstack4 (x y z w : list R) :
  length y = length x -> length z = length x -> length w = length x ->
  transpose [x; y; z; w]
  = map (fun p => [fst (fst (fst p)); snd (fst (fst p)); snd (fst p); snd p])
        (combine (combine (combine x y) z) w).
Proof.
  unfold transpose. simpl.
  revert y z w.
  induction x as [|a x IH]; intros [|b y] [|c z] [|d w] Hy Hz Hw;
    simpl in *; try lia; trivial.
  f_equal. rewrite <- seq_shift, map_map. apply IH; lia.
Qed.

Lemma combine_repeat_r {A B : Type} (l : list A) (b : B) :
  combine l (repeat b (length l)) = map (fun a => (a, b)) l.
Proof. induction l as [|a l IH]; simpl; trivial. now rewrite IH. Qed.

Lemma transpose_homogeneous (x y z : list R) :
  length y = length x -> length z = length x ->
  transpose [x; y; z; repeat 1%R (length x)] = points4 x y z.
Proof.
  intros Hy Hz.
  rewrite transpose_vstack4 by (trivial; apply repeat_length).
  unfold points4.
  replace (length x) with (length (combine (combine x y) z))
    by (rewrite !length_combine; lia).
  rewrite combine_repeat_r, map_map. reflexivity.
Qed.

Lemma points4_length (x y z : list R) :
  length y = length x -> length z = length x ->
  length (points4 x y z) = length x.
Proof.
  intros Hy Hz. unfold points4. rewrite length_map, !length_combine. lia.
Qed.

Lemma column_apply_matrix (m pts : matrix) (j : nat) :
  j < length m ->
  column j (map (apply_matrix m) pts)
  = Ok (map (fun p => dot (nth j m []) p) pts).
Proof.
  intros Hj. induction pts as [|p pts IH]; trivial.
  cbn [map column]. rewrite IH.
  unfold apply_matrix at 1.
  rewrite (getitem_nth _ j 0%R) by now rewrite length_map.
  cbn [rbind]. do 2 f_equal.
  rewrite <- (dot_nil_r p) at 1.
  rewrite (nth_indep _ (dot p []) (dot [] p)) by now rewrite length_map.
  apply (map_nth (fun row => dot row p)).
Qed.

(** With a matrix of at least three rows, the first of four entries,
    [sop_pop_cloud] returns, in a new buffer, the products of the first
    three rows with the homogeneous coordinates of every point. *)
Lemma sop_pop_cloud_eval (x y z : array) (r0 r1 r2 : list R)
  (rest : matrix) (xv yv zv : list R) (h : store) :
  read x h = (Ok xv, h) -> read y h = (Ok yv, h) -> read z h = (Ok zv, h) ->
  length yv = length xv -> length zv = length xv ->
  length r0 = 4 ->
  let mat := r0 :: r1 :: r2 :: rest in
  let h' := h ++ [Mat (map (apply_matrix mat) (points4 xv yv zv))] in
  sop_pop_cloud x y z mat h
  = (Ok (Column (length h) 0, Column (length h) 1, Column (length h) 2), h')
  /\ read (Column (length h) 0) h'
     = (Ok (map (dot r0) (points4 xv yv zv)), h')
  /\ read (Column (length h) 1) h'
     = (Ok (map (dot r1) (points4 xv yv zv)), h')
  /\ read (Column (length h) 2) h'
     = (Ok (map (dot r2) (points4 xv yv zv)), h').
Proof.
  intros Hx Hy Hz Hly Hlz Hr0 mat h'. split.
  - unfold sop_pop_cloud.
    rewrite (bind_ok _ _ _ _ _ Hx), (bind_ok _ _ _ _ _ Hy),
      (bind_ok _ _ _ _ _ Hz).
    assert (Hv : np_vstack [xv; yv; zv; repeat 1%R (length xv)]
                 = Ok [xv; yv; zv; repeat 1%R (length xv)]).
    { unfold np_vstack. cbn [forallb].
      now rewrite Hly, Hlz, repeat_length, !Nat.eqb_refl. }
    erewrite bind_ok by (unfold lift; rewrite Hv; reflexivity).
    assert (Hm : matmul mat [xv; yv; zv; repeat 1%R (length xv)]
                 = Ok (map (fun row =>
                              map (dot row)
                                  (transpose [xv; yv; zv;
                                              repeat 1%R (length xv)]))
                           mat)).
    { unfold matmul, mat. cbn [ncols length]. now rewrite Hr0. }
    erewrite bind_ok by (unfold lift; rewrite Hm; reflexivity).
    unfold mat at 1. rewrite transpose_product.
    rewrite transpose_homogeneous by assumption.
    reflexivity.
  - unfold read, h'. rewrite !nth_error_last.
    rewrite !column_apply_matrix by (simpl; lia).
    auto.
Qed.

(** X19: [sop_pop_cloud] maps every point (x, y, z) to the products of the
    first three rows of the matrix with (x, y, z, 1); a fourth row, or
    further ones, have no effect on the result. *)
Theorem sop_pop_cloud_applies_matrix (x y z : array) (r0 r1 r2 : list R)
  (rest : matrix) (xv yv zv : list R) (h : store) :
  read x h = (Ok xv, h) -> read y h = (Ok yv, h) -> read z h = (Ok zv, h) ->
  length yv = length xv -> length zv = length xv ->
  length r0 = 4 ->
  exists x_rot y_rot z_rot h',
    sop_pop_cloud x y z (r0 :: r1 :: r2 :: rest) h
    = (Ok (x_rot, y_rot, z_rot), h') /\
    fst (read x_rot h') = Ok (map (dot r0) (points4 xv yv zv)) /\
    fst (read y_rot h') = Ok (map (dot r1) (points4 xv yv zv)) /\
    fst (read z_rot h') = Ok (map (dot r2) (points4 xv yv zv)) /\
    fresh (length h) (x_rot, y_rot, z_rot).
Proof.
  intros Hx Hy Hz Hly Hlz Hr0.
  destruct (sop_pop_cloud_eval x y z r0 r1 r2 rest xv yv zv h
              Hx Hy Hz Hly Hlz Hr0) as [Hrun [H0 [H1 H2]]].
  do 4 eexists. split; [exact Hrun|].
  rewrite H0, H1, H2. simpl. repeat split; lia.
Qed.

Lemma sop_pop_cloud_applies_matrix_witness :
  exists x_rot y_rot z_rot h',
    sop_pop_cloud (Whole 0) (Whole 1) (Whole 2)
      [[1; 0; 0; 10]; [0; 1; 0; 20]; [0; 0; 1; 30]; [0; 0; 0; 1]]%R store3
    = (Ok (x_rot, y_rot, z_rot), h') /\
    fst (read x_rot h')
    = Ok (map (dot [1; 0; 0; 10]%R) (points4 [1; 2] [3; 4] [5; 6])%R).
Proof.
  destruct (sop_pop_cloud_applies_matrix (Whole 0) (Whole 1) (Whole 2)
              [1; 0; 0; 10]%R [0; 1; 0; 20]%R [0; 0; 1; 30]%R
              [[0; 0; 0; 1]]%R [1; 2]%R [3; 4]%R [5; 6]%R store3)
    as [xr [yr [zr [h' [Hrun [H0 _]]]]]]; try reflexivity.
  exists xr, yr, zr, h'. split; [exact Hrun | exact H0].
Defined.

(** X20: a matrix of two rows of four entries passes the product, and the
    transposed result then has no column 2 to return: [IndexError]. *)
Theorem sop_pop_cloud_too_few_rows (x y z : array) (mat : matrix)
  (xv yv zv : list R) (h : store) :
  read x h = (Ok xv, h) -> read y h = (Ok yv, h) -> read z h = (Ok zv, h) ->
  length yv = length xv -> length zv = length xv ->
  ncols mat = 4 -> length mat = 2 ->
  fst (sop_pop_cloud x y z mat h) = Raise IndexError.
Proof.
  intros Hx Hy Hz Hly Hlz Hc Hm. unfold sop_pop_cloud.
  rewrite (bind_ok _ _ _ _ _ Hx), (bind_ok _ _ _ _ _ Hy),
    (bind_ok _ _ _ _ _ Hz).
  assert (Hv : np_vstack [xv; yv; zv; repeat 1%R (length xv)]
               = Ok [xv; yv; zv; repeat 1%R (length xv)]).
  { unfold np_vstack. cbn [forallb].
    now rewrite Hly, Hlz, repeat_length, !Nat.eqb_refl. }
  erewrite bind_ok by (unfold lift; rewrite Hv; reflexivity).
  erewrite bind_ok
    by (unfold lift, matmul; cbn [length]; rewrite Hc; reflexivity).
  erewrite bind_ok by reflexivity.
  unfold column_view, bind, lift.
  destruct mat as [|r0 [|r1 [|r2 mat]]]; simpl in Hm; try lia; reflexivity.
Qed.

Lemma sop_pop_cloud_too_few_rows_witness :
  fst (sop_pop_cloud (Whole 0) (Whole 1) (Whole 2)
         [[1; 0; 0; 10]; [0; 1; 0; 20]]%R store3)
  = Raise IndexError.
Proof.
  apply (sop_pop_cloud_too_few_rows (Whole 0) (Whole 1) (Whole 2)
           [[1; 0; 0; 10]; [0; 1; 0; 20]]%R [1; 2]%R [3; 4]%R [5; 6]%R
           store3); reflexivity.
Defined.

Lemma length4 (r : list R) :
  length r = 4 -> exists a b c d, r = [a; b; c; d].
Proof.
  destruct r as [|a [|b [|c [|d [|e r]]]]]; simpl; intros H; try lia.
  now exists a, b, c, d.
Qed.

Lemma points4_map {A : Type} (f g k : A -> R) (l : list A) :
  points4 (map f l) (map g l) (map k l)
  = map (fun p => [f p; g p; k p; 1%R]) l.
Proof.
  unfold points4. induction l as [|a l IH]; simpl; trivial. now rewrite IH.
Qed.

Lemma map_points4_ext {B : Type} (f g : list R -> B) (x y z : list R) :
  (forall a b c, f [a; b; c; 1%R] = g [a; b; c; 1%R]) ->
  map f (points4 x y z) = map g (points4 x y z).
Proof.
  intros H. unfold points4. rewrite !map_map.
  apply map_ext. intros [[a b] c]. apply H.
Qed.

(** A row of the product [pop @ sop], applied to a point, is the row of
    [pop] applied to the point that [sop] gives. *)
Lemma dot_product_row (a0 a1 a2 b : list R) (x y z : R) :
  length a0 = 4 -> length a1 = 4 -> length a2 = 4 -> length b = 4 ->
  dot (map (dot b) (transpose [a0; a1; a2; [0; 0; 0; 1]%R])) [x; y; z; 1%R]
  = dot b [dot a0 [x; y; z; 1%R]; dot a1 [x; y; z; 1%R];
           dot a2 [x; y; z; 1%R]; 1%R].
Proof.
  intros H0 H1 H2 Hb.
  destruct (length4 a0 H0) as [a00 [a01 [a02 [a03 ->]]]].
  destruct (length4 a1 H1) as [a10 [a11 [a12 [a13 ->]]]].
  destruct (length4 a2 H2) as [a20 [a21 [a22 [a23 ->]]]].
  destruct (length4 b Hb) as [b0 [b1 [b2 [b3 ->]]]].
  unfold dot, transpose, np_sum. simpl. ring.
Qed.

(** X21: georeferencing in two steps, as the drivers do (the scanner's own
    matrix [sop], whose last row is (0, 0, 0, 1), then the project's matrix
    [pop]), gives the coordinates that one call with the product
    [pop @ sop] gives. *)
Theorem sop_pop_cloud_composes (x y z : array) (a0 a1 a2 b0 b1 b2 : list R)
  (rest : matrix) (xv yv zv : list R) (h : store) :
  read x h = (Ok xv, h) -> read y h = (Ok yv, h) -> read z h = (Ok zv, h) ->
  length yv = length xv -> length zv = length xv ->
  length a0 = 4 -> length a1 = 4 -> length a2 = 4 ->
  length b0 = 4 -> length b1 = 4 -> length b2 = 4 ->
  let sop := [a0; a1; a2; [0; 0; 0; 1]%R] in
  let pop := b0 :: b1 :: b2 :: rest in
  exists prod xs ys zs h1 xg yg zg h2 xc yc zc h3 xgv ygv zgv,
    matmul pop sop = Ok prod /\
    sop_pop_cloud x y z sop h = (Ok (xs, ys, zs), h1) /\
    sop_pop_cloud xs ys zs pop h1 = (Ok (xg, yg, zg), h2) /\
    sop_pop_cloud x y z prod h = (Ok (xc, yc, zc), h3) /\
    fst (read xg h2) = Ok xgv /\ fst (read xc h3) = Ok xgv /\
    fst (read yg h2) = Ok ygv /\ fst (read yc h3) = Ok ygv /\
    fst (read zg h2) = Ok zgv /\ fst (read zc h3) = Ok zgv.
Proof.
  intros Hx Hy Hz Hly Hlz Ha0 Ha1 Ha2 Hb0 Hb1 Hb2 sop pop.
  set (P := points4 xv yv zv).
  destruct (sop_pop_cloud_eval x y z a0 a1 a2 [[0; 0; 0; 1]%R] xv yv zv h
              Hx Hy Hz Hly Hlz Ha0) as [Hrun1 [Hx1 [Hy1 Hz1]]].
  fold P in Hrun1, Hx1, Hy1, Hz1. fold sop in Hrun1, Hx1, Hy1, Hz1.
  set (h1 := h ++ [Mat (map (apply_matrix sop) P)]) in *.
  destruct (sop_pop_cloud_eval _ _ _ b0 b1 b2 rest _ _ _ h1 Hx1 Hy1 Hz1)
    as [Hrun2 [Hx2 [Hy2 Hz2]]];
    [now rewrite !length_map | now rewrite !length_map | exact Hb0 |].
  rewrite points4_map in Hrun2, Hx2, Hy2, Hz2.
  fold pop in Hrun2, Hx2, Hy2, Hz2.
  set (c := fun b : list R => map (dot b) (transpose sop)).
  assert (Hprod : matmul pop sop
                  = Ok (c b0 :: c b1 :: c b2 :: map c rest)).
  { unfold matmul, pop. cbn [ncols]. now rewrite Hb0. }
  assert (Hc0 : length (c b0) = 4).
  { unfold c, transpose, sop. cbn [ncols].
    now rewrite !length_map, length_seq. }
  destruct (sop_pop_cloud_eval x y z (c b0) (c b1) (c b2) (map c rest)
              xv yv zv h Hx Hy Hz Hly Hlz Hc0) as [Hrun3 [Hx3 [Hy3 Hz3]]].
  fold P in Hrun3, Hx3, Hy3, Hz3.
  eexists; do 12 eexists. exists (map (dot (c b0)) P),
    (map (dot (c b1)) P), (map (dot (c b2)) P).
  split; [exact Hprod|].
  split; [exact Hrun1|].
  split; [exact Hrun2|].
  split; [exact Hrun3|].
  rewrite Hx2, Hy2, Hz2, Hx3, Hy3, Hz3. cbn [fst].
  rewrite !map_map.
  repeat split; f_equal; unfold P; apply map_points4_ext; intros a b d;
    symmetry; apply dot_product_row; assumption.
Qed.

Lemma sop_pop_cloud_composes_witness :
  exists prod xs ys zs h1 xg yg zg h2 xc yc zc h3 xgv,
    matmul [[0; 1; 0; 0]; [1; 0; 0; 0]; [0; 0; 1; 7]]%R
           [[1; 0; 0; 10]; [0; 1; 0; 20]; [0; 0; 1; 30]; [0; 0; 0; 1]]%R
    = Ok prod /\
    sop_pop_cloud (Whole 0) (Whole 1) (Whole 2)
      [[1; 0; 0; 10]; [0; 1; 0; 20]; [0; 0; 1; 30]; [0; 0; 0; 1]]%R store3
    = (Ok (xs, ys, zs), h1) /\
    sop_pop_cloud xs ys zs
      [[0; 1; 0; 0]; [1; 0; 0; 0]; [0; 0; 1; 7]]%R h1
    = (Ok (xg, yg, zg), h2) /\
    sop_pop_cloud (Whole 0) (Whole 1) (Whole 2) prod store3
    = (Ok (xc, yc, zc), h3) /\
    fst (read xg h2) = Ok xgv /\ fst (read xc h3) = Ok xgv.
Proof.
  destruct (sop_pop_cloud_composes (Whole 0) (Whole 1) (Whole 2)
              [1; 0; 0; 10]%R [0; 1; 0; 20]%R [0; 0; 1; 30]%R
              [0; 1; 0; 0]%R [1; 0; 0; 0]%R [0; 0; 1; 7]%R []
              [1; 2]%R [3; 4]%R [5; 6]%R store3)
    as [prod [xs [ys [zs [h1 [xg [yg [zg [h2 [xc [yc [zc [h3 [xgv
        [ygv [zgv [Hp [H1 [H2 [H3 [Hg [Hc _]]]]]]]]]]]]]]]]]]]]]];
    try reflexivity.
  exists prod, xs, ys, zs, h1, xg, yg, zg, h2, xc, yc, zc, h3, xgv.
  repeat split; assumption.
Defined.

End SopPopMore.

(** ** The cyclical trend: [model] and [remove_reg_trend_incl] *)

Section TrendMore.
Local Open Scope nat_scope.

(** X22: the modelled inclination stays within [|a|] of the offset [d],
    whatever the azimuths and the phase. *)
Theorem model_within_amplitude (phi : list R) (a c d : R) :
  Forall (fun v => (d - Rabs a <= v <= d + Rabs a)%R) (model phi a c d).
Proof.
  apply Forall_forall. intros v Hv.
  apply in_map_iff in Hv as [p [<- _]].
  pose proof (SIN_bound (p + c)) as [Hlo Hhi].
  unfold Rabs. destruct (Rcase_abs a); split; nra.
Qed.

(** X23: the model has period 2 pi in the azimuth, so it does not depend on
    the branch in which [get_phi] reports an angle. *)
Theorem model_period (phi : list R) (a c d : R) :
  model (map (fun p => (p + 2 * PI)%R) phi) a c d = model phi a c d.
Proof.
  unfold model. rewrite map_map. apply map_ext. intros p.
  replace (p + 2 * PI + c)%R with ((p + c) + 2 * PI)%R by ring.
  now rewrite sin_plus, sin_2PI, cos_2PI, Rmult_1_r, Rmult_0_r, Rplus_0_r.
Qed.

Lemma column_length (j : nat) (rows : matrix) (v : list R) :
  column j rows = Ok v -> length v = length rows.
Proof.
  revert v. induction rows as [|row rows IH]; intros v; cbn [column].
  - now intros [= <-].
  - destruct (getitem row j) as [a|e]; [|discriminate]. cbn [rbind].
    destruct (column j rows) as [rest|e]; [|discriminate]. cbn [rbind].
    intros [= <-]. simpl. f_equal. now apply IH.
Qed.

Lemma getitem_set_nth_eq (row : list R) (j : nat) (a v : R) :
  getitem row j = Ok a -> getitem (set_nth row j v) j = Ok v.
Proof.
  unfold getitem. intros H.
  rewrite nth_error_set_nth_eq; trivial.
  apply nth_error_Some. destruct (nth_error row j); discriminate.
Qed.

Lemma column_set_column_same (j : nat) (rows : matrix) (old vals : list R) :
  column j rows = Ok old -> length vals = length rows ->
  column j (set_column j rows vals) = Ok vals.
Proof.
  revert old vals.
  induction rows as [|row rows IH]; intros old [|v vals]; simpl;
    try discriminate; trivial.
  destruct (getitem row j) as [a|e] eqn:Ha; [|discriminate]. cbn [rbind].
  destruct (column j rows) as [rest|e] eqn:Hc; [|discriminate].
  intros _ [= Hl].
  rewrite (getitem_set_nth_eq row j a v Ha). cbn [rbind].
  now rewrite (IH rest vals eq_refl Hl).
Qed.

Lemma column_set_column_other (j j' : nat) (rows : matrix) (vals : list R) :
  j <> j' -> column j' (set_column j rows vals) = column j' rows.
Proof.
  intros Hj. revert vals.
  induction rows as [|row rows IH]; intros [|v vals]; simpl; trivial.
  unfold getitem. rewrite nth_error_set_nth_neq by exact Hj.
  now rewrite IH.
Qed.

Lemma write_array_length (a : array) (vals : list R) (h : store) :
  length (write_array a vals h) = length h.
Proof.
  destruct a as [l|l j]; simpl; [apply set_nth_length|].
  destruct (nth_error h l) as [[v|rows]|]; trivial. apply set_nth_length.
Qed.

Lemma write_array_other (a : array) (vals : list R) (h : store) (l : loc) :
  l <> base a -> nth_error (write_array a vals h) l = nth_error h l.
Proof.
  intros Hl. destruct a as [l'|l' j]; simpl in *.
  - apply nth_error_set_nth_neq. congruence.
  - destruct (nth_error h l') as [[v|rows]|]; trivial.
    apply nth_error_set_nth_neq. congruence.
Qed.

(** What was written into an array is what it reads afterwards. *)
Lemma read_write_same (a : array) (old vals : list R) (h : store) :
  read a h = (Ok old, h) -> length vals = length old ->
  read a (write_array a vals h) = (Ok vals, write_array a vals h).
Proof.
  intros Hr Hl. pose proof (read_base_lt a h old Hr) as Hlt.
  destruct a as [l|l j]; simpl in *.
  - now rewrite nth_error_set_nth_eq.
  - destruct (nth_error h l) as [[v|rows]|] eqn:Hn; try discriminate.
    injection Hr as Hc.
    rewrite nth_error_set_nth_eq by exact Hlt.
    rewrite (column_set_column_same j rows old vals Hc); trivial.
    rewrite Hl. now apply column_length with j.
Qed.

(** Writing into an array leaves an array that shares no element with it
    as it was. *)
Lemma read_write_other (a b : array) (vals v : list R) (h : store) :
  disjoint_arrays a b -> read b h = (Ok v, h) ->
  read b (write_array a vals h) = (Ok v, write_array a vals h).
Proof.
  intros [Hd|[l [j [j' [-> [-> Hj]]]]]] Hr.
  - apply read_agree with h; trivial.
    apply write_array_other. congruence.
  - pose proof (read_base_lt _ h v Hr) as Hlt. simpl in *.
    destruct (nth_error h l) as [[w|rows]|] eqn:Hn; try discriminate.
    injection Hr as Hc.
    rewrite nth_error_set_nth_eq by exact Hlt.
    rewrite column_set_column_other by exact Hj.
    now rewrite Hc.
Qed.

Lemma isub_ok (a : array) (old v : list R) (h : store) :
  read a h = (Ok old, h) -> length v = length old ->
  isub a v h
  = (Ok tt,
     write_array a (map (fun p => (fst p - snd p)%R) (combine old v)) h).
Proof.
  intros Hr Hl. unfold isub, isub_values.
  now rewrite Hr, Hl, Nat.eqb_refl.
Qed.

Lemma isub_mismatch (a : array) (old v : list R) (h : store) :
  read a h = (Ok old, h) -> length v <> length old -> length v <> 1 ->
  isub a v h = (Raise ValueError, h).
Proof.
  intros Hr Hl H1. unfold isub, isub_values. rewrite Hr.
  apply Nat.eqb_neq in Hl. rewrite Hl.
  destruct v as [|v0 [|v1 v]]; simpl in H1; trivial. lia.
Qed.

Lemma model_length (phi : list R) (a c d : R) :
  length (model phi a c d) = length phi.
Proof. apply length_map. Qed.

Lemma length_sub (old v : list R) :
  length v = length old ->
  length (map (fun p => (fst p - snd p)%R) (combine old v)) = length old.
Proof. intros H. rewrite length_map, length_combine. lia. Qed.

Variable fit_model : list R -> list R -> result (R * R * R).

#[local] Abbreviation trend := (remove_reg_trend_incl fit_model).

(** X24: [remove_reg_trend_incl] works in place.  With one azimuth per
    sample and two fits that succeed, it returns the very arrays it was
    given; afterwards they hold the old values less the modelled ones, no
    buffer is added, and every other buffer is as before. *)
Theorem remove_reg_trend_incl_updates_in_place (phi : list R)
  (roll pitch : array) (reg_phi reg_roll reg_pitch : list R)
  (ar cr dr ap cp dp : R) (rv pv : list R) (h : store) :
  fit_model reg_phi reg_roll = Ok (ar, cr, dr) ->
  fit_model reg_phi reg_pitch = Ok (ap, cp, dp) ->
  read roll h = (Ok rv, h) -> read pitch h = (Ok pv, h) ->
  length rv = length phi -> length pv = length phi ->
  disjoint_arrays roll pitch ->
  exists h',
    trend phi roll pitch reg_phi reg_roll reg_pitch h
    = (Ok (roll, pitch), h') /\
    fst (read roll h')
    = Ok (map (fun p => (fst p - snd p)%R)
              (combine rv (model phi ar cr dr))) /\
    fst (read pitch h')
    = Ok (map (fun p => (fst p - snd p)%R)
              (combine pv (model phi ap cp dp))) /\
    length h' = length h /\
    (forall l, l <> base roll -> l <> base pitch ->
               nth_error h' l = nth_error h l).
Proof.
  intros Hfr Hfp Hr Hp Hlr Hlp Hd.
  set (rm := model phi ar cr dr). set (pm := model phi ap cp dp).
  set (rv' := map (fun p => (fst p - snd p)%R) (combine rv rm)).
  set (pv' := map (fun p => (fst p - snd p)%R) (combine pv pm)).
  assert (Hrm : length rm = length rv)
    by (unfold rm; now rewrite model_length).
  assert (Hpm : length pm = length pv)
    by (unfold pm; now rewrite model_length).
  set (h1 := write_array roll rv' h).
  assert (Hp1 : read pitch h1 = (Ok pv, h1))
    by now apply read_write_other.
  assert (Hr1 : read roll h1 = (Ok rv', h1)).
  { apply read_write_same with rv; trivial. now apply length_sub. }
  exists (write_array pitch pv' h1). split; [|split; [|split; [|split]]].
  - unfold remove_reg_trend_incl.
    erewrite bind_ok by (unfold lift; rewrite Hfr; reflexivity).
    erewrite bind_ok by (unfold lift; rewrite Hfp; reflexivity).
    cbn [fst snd]. fold rm pm.
    erewrite bind_ok by (apply isub_ok; eassumption).
    fold rv' h1.
    erewrite bind_ok by (apply isub_ok; eassumption).
    reflexivity.
  - rewrite (read_write_other pitch roll pv' rv' h1); trivial.
    destruct Hd as [Hd|[l [j [j' [-> [-> Hj]]]]]]; [left; congruence|].
    right. exists l, j', j. auto.
  - rewrite (read_write_same pitch pv pv' h1); trivial.
    now apply length_sub.
  - unfold h1. now rewrite !write_array_length.
  - intros l Hl1 Hl2. unfold h1.
    now rewrite !write_array_other.
Qed.

(** X25: the two subtractions are made in turn.  When the pitch series has
    not the length of the azimuths, the call raises [ValueError], and by
    then the caller's roll array has been modified. *)
Theorem remove_reg_trend_incl_fails_after_roll (phi : list R)
  (roll pitch : array) (reg_phi reg_roll reg_pitch : list R)
  (ar cr dr ap cp dp : R) (rv pv : list R) (h : store) :
  fit_model reg_phi reg_roll = Ok (ar, cr, dr) ->
  fit_model reg_phi reg_pitch = Ok (ap, cp, dp) ->
  read roll h = (Ok rv, h) -> read pitch h = (Ok pv, h) ->
  length rv = length phi ->
  length pv <> length phi -> length phi <> 1 ->
  disjoint_arrays roll pitch ->
  exists h',
    trend phi roll pitch reg_phi reg_roll reg_pitch h
    = (Raise ValueError, h') /\
    fst (read roll h')
    = Ok (map (fun p => (fst p - snd p)%R)
              (combine rv (model phi ar cr dr))).
Proof.
  intros Hfr Hfp Hr Hp Hlr Hlp Hl1 Hd.
  set (rm := model phi ar cr dr). set (pm := model phi ap cp dp).
  set (rv' := map (fun p => (fst p - snd p)%R) (combine rv rm)).
  assert (Hrm : length rm = length rv)
    by (unfold rm; now rewrite model_length).
  set (h1 := write_array roll rv' h).
  assert (Hp1 : read pitch h1 = (Ok pv, h1))
    by now apply read_write_other.
  assert (Hr1 : read roll h1 = (Ok rv', h1)).
  { apply read_write_same with rv; trivial. now apply length_sub. }
  exists h1. split.
  - unfold remove_reg_trend_incl.
    erewrite bind_ok by (unfold lift; rewrite Hfr; reflexivity).
    erewrite bind_ok by (unfold lift; rewrite Hfp; reflexivity).
    cbn [fst snd]. fold rm pm.
    erewrite bind_ok by (apply isub_ok; eassumption).
    fold rv' h1.
    apply bind_raise. apply isub_mismatch with pv; trivial;
      unfold pm; rewrite model_length; congruence.
  - now rewrite Hr1.
Qed.

(** X26: given one array as roll and as pitch, the call subtracts both
    models from it, one after the other. *)
Theorem remove_reg_trend_incl_same_array (phi : list R) (a : array)
  (reg_phi reg_roll reg_pitch : list R)
  (ar cr dr ap cp dp : R) (v : list R) (h : store) :
  fit_model reg_phi reg_roll = Ok (ar, cr, dr) ->
  fit_model reg_phi reg_pitch = Ok (ap, cp, dp) ->
  read a h = (Ok v, h) -> length v = length phi ->
  exists h',
    trend phi a a reg_phi reg_roll reg_pitch h = (Ok (a, a), h') /\
    fst (read a h')
    = Ok (map (fun p => (fst p - snd p)%R)
              (combine
                 (map (fun p => (fst p - snd p)%R)
                      (combine v (model phi ar cr dr)))
                 (model phi ap cp dp))).
Proof.
  intros Hfr Hfp Hr Hl.
  set (rm := model phi ar cr dr). set (pm := model phi ap cp dp).
  set (v1 := map (fun p => (fst p - snd p)%R) (combine v rm)).
  set (v2 := map (fun p => (fst p - snd p)%R) (combine v1 pm)).
  assert (Hrm : length rm = length v)
    by (unfold rm; now rewrite model_length).
  assert (Hv1 : length v1 = length v) by now apply length_sub.
  assert (Hpm : length pm = length v1)
    by (unfold pm; rewrite model_length; congruence).
  set (h1 := write_array a v1 h).
  assert (Hr1 : read a h1 = (Ok v1, h1))
    by now apply read_write_same with v.
  exists (write_array a v2 h1). split.
  - unfold remove_reg_trend_incl.
    erewrite bind_ok by (unfold lift; rewrite Hfr; reflexivity).
    erewrite bind_ok by (unfold lift; rewrite Hfp; reflexivity).
    cbn [fst snd]. fold rm pm.
    erewrite bind_ok by (apply isub_ok; eassumption).
    fold v1 h1.
    erewrite bind_ok by (apply isub_ok; eassumption).
    reflexivity.
  - rewrite (read_write_same a v1 v2 h1); trivial.
    now apply length_sub.
Qed.

End TrendMore.

Lemma remove_reg_trend_incl_updates_in_place_witness :
  exists h',
    remove_reg_trend_incl (fun _ _ => Ok (1, 0, 2)%R) [0; 1]%R
      (Whole 0%nat) (Whole 1%nat) [] [] [] store3
    = (Ok (Whole 0%nat, Whole 1%nat), h') /\
    fst (read (Whole 0%nat) h')
    = Ok (map (fun p => (fst p - snd p)%R)
              (combine [1; 2]%R (model [0; 1]%R 1 0 2))) /\
    nth_error h' 2%nat = nth_error store3 2%nat.
Proof.
  destruct (remove_reg_trend_incl_updates_in_place
              (fun _ _ => Ok (1, 0, 2)%R) [0; 1]%R
              (Whole 0%nat) (Whole 1%nat) [] [] []
              1%R 0%R 2%R 1%R 0%R 2%R [1; 2]%R [3; 4]%R store3)
    as [h' [Hrun [Hroll [_ [_ Hother]]]]]; try reflexivity.
  - left. discriminate.
  - exists h'. split; [exact Hrun|]. split; [exact Hroll|].
    apply Hother; discriminate.
Defined.

Lemma remove_reg_trend_incl_fails_after_roll_witness :
  exists h',
    remove_reg_trend_incl (fun _ _ => Ok (1, 0, 2)%R) [0; 1]%R
      (Whole 0%nat) (Whole 1%nat) [] [] []
      [Vec [1; 2]%R; Vec [3; 4; 5]%R]
    = (Raise ValueError, h') /\
    fst (read (Whole 0%nat) h')
    = Ok (map (fun p => (fst p - snd p)%R)
              (combine [1; 2]%R (model [0; 1]%R 1 0 2))).
Proof.
  apply (remove_reg_trend_incl_fails_after_roll
           (fun _ _ => Ok (1, 0, 2)%R) [0; 1]%R
           (Whole 0%nat) (Whole 1%nat) [] [] []
           1%R 0%R 2%R 1%R 0%R 2%R [1; 2]%R [3; 4; 5]%R
           [Vec [1; 2]%R; Vec [3; 4; 5]%R]); try reflexivity;
    try (simpl; lia).
  left. discriminate.
Defined.

Lemma remove_reg_trend_incl_same_array_witness :
  exists h',
    remove_reg_trend_incl (fun _ _ => Ok (1, 0, 2)%R) [0; 1]%R
      (Whole 0%nat) (Whole 0%nat) [] [] [] store3
    = (Ok (Whole 0%nat, Whole 0%nat), h') /\
    fst (read (Whole 0%nat) h')
    = Ok (map (fun p => (fst p - snd p)%R)
              (combine
                 (map (fun p => (fst p - snd p)%R)
                      (combine [1; 2]%R (model [0; 1]%R 1 0 2)))
                 (model [0; 1]%R 1 0 2))).
Proof.
  apply (remove_reg_trend_incl_same_array
           (fun _ _ => Ok (1, 0, 2)%R) [0; 1]%R (Whole 0%nat) [] [] []
           1%R 0%R 2%R 1%R 0%R 2%R [1; 2]%R store3); reflexivity.
Defined.

(** ** The functions together, as the drivers use them *)

Section DriversMore.
Local Open Scope nat_scope.

(** X27: columns of different lengths are refused with [ValueError], and no
    file is written; a single number is stacked as a column of length one,
    it is not repeated along a longer series. *)
Theorem save_incl_length_mismatch (t roll pitch : series)
  (data_dir root ext : string) (fs : files) :
  length (as_column roll) <> length (as_column t) \/
  length (as_column pitch) <> length (as_column t) ->
  save_incl t roll pitch data_dir root ext fs = Raise ValueError.
Proof.
  intros H. unfold save_incl, np_column_stack.
  destruct (Nat.eqb_spec (length (as_column roll)) (length (as_column t)));
    destruct (Nat.eqb_spec (length (as_column pitch))
                           (length (as_column t)));
    simpl; trivial.
  destruct H; contradiction.
Qed.

Lemma save_incl_length_mismatch_witness :
  save_incl (Scalar (Finite 0)) (Series (map Finite [1; 2]%Q))
    (Series (map Finite [3; 4]%Q)) "/out" "survey01" "-incl.txt" empty_disk
  = Raise ValueError.
Proof.
  apply (save_incl_length_mismatch (Scalar (Finite 0))
           (Series (map Finite [1; 2]%Q)) (Series (map Finite [3; 4]%Q))
           "/out" "survey01" "-incl.txt" empty_disk).
  left. simpl. lia.
Defined.

(** X30: when the path cannot be opened for writing (its directory does not
    exist, say), [save_incl] raises the error of [open] once the table is
    built; columns of different lengths are reported first. *)
Theorem save_incl_unwritable_path (t roll pitch : series)
  (data_dir root ext : string) (fs : files) :
  length (as_column roll) = length (as_column t) ->
  length (as_column pitch) = length (as_column t) ->
  writable fs (data_dir ++ "/" ++ root ++ ext) = false ->
  save_incl t roll pitch data_dir root ext fs = Raise OSError.
Proof.
  intros Hr Hp Hw. unfold save_incl, np_column_stack, write_file.
  now rewrite Hr, Hp, !Nat.eqb_refl, Hw.
Qed.

Lemma save_incl_unwritable_path_witness :
  save_incl (Series [Finite 1]) (Series [Finite 2]) (Series [Finite 3])
    "/missing" "survey01" "-incl.txt"
    {| writable := fun p => negb (String.prefix "/missing/" p);
       texts := [] |}
  = Raise OSError.
Proof.
  apply (save_incl_unwritable_path (Series [Finite 1]) (Series [Finite 2])
           (Series [Finite 3]) "/missing" "survey01" "-incl.txt");
    reflexivity.
Defined.

Lemma np_mean_shift (mu : R) (l : list R) :
  l <> [] -> np_mean (map (fun v => (v - mu)%R) l) = (np_mean l - mu)%R.
Proof.
  intros Hl.
  rewrite (map_ext _ (fun v => (1 * v + - mu)%R)) by (intros v; ring).
  rewrite np_mean_affine by exact Hl. ring.
Qed.

(** X28: rotating in mode [mean] by the series that [remove_reg_mean_incl]
    returns, as [mr_rotate_adj] does, rotates every point by the mean roll
    and the mean pitch of the survey, less those of the registration scan
    (all four series non-empty). *)
Theorem rotate_cloud_after_mean_removal (x y z : array)
  (roll pitch reg_roll reg_pitch : list R) (xv yv zv : list R) (h : store) :
  read x h = (Ok xv, h) -> read y h = (Ok yv, h) -> read z h = (Ok zv, h) ->
  length yv = length xv -> length zv = length xv ->
  roll <> [] -> pitch <> [] -> reg_roll <> [] -> reg_pitch <> [] ->
  let mr := remove_reg_mean_incl roll pitch reg_roll reg_pitch in
  rotate_cloud x y z (fst mr) (snd mr) mean h
  = (Ok (Column (length h) 0, Column (length h) 1, Column (length h) 2),
     h ++ [Mat (map (apply_matrix
                       (rotation (np_mean roll - np_mean reg_roll)
                                 (np_mean pitch - np_mean reg_pitch)))
                    (points xv yv zv))]).
Proof.
  intros Hx Hy Hz Hly Hlz Hr Hp _ _ mr.
  unfold mr, remove_reg_mean_incl. cbn [fst snd].
  rewrite (rotate_cloud_eval x y z _ _ mean xv yv zv h); trivial.
  - unfold chosen_angles. cbn [fst snd].
    now rewrite !np_mean_shift.
  - destruct roll; [congruence | discriminate].
  - destruct pitch; [congruence | discriminate].
  - discriminate.
Qed.

Lemma rotate_cloud_after_mean_removal_witness :
  fst (rotate_cloud (Whole 0) (Whole 1) (Whole 2)
         (fst (remove_reg_mean_incl [1; 3]%R [2; 4]%R [5]%R [6]%R))
         (snd (remove_reg_mean_incl [1; 3]%R [2; 4]%R [5]%R [6]%R))
         mean store3)
  = Ok (Column 3 0, Column 3 1, Column 3 2).
Proof.
  rewrite (rotate_cloud_after_mean_removal (Whole 0) (Whole 1) (Whole 2)
             [1; 3]%R [2; 4]%R [5]%R [6]%R [1; 2]%R [3; 4]%R [5; 6]%R
             store3); try reflexivity; discriminate.
Defined.

Lemma chosen_angles_repeat (r p : R) (n : nat) (m : mode) :
  0 < n -> chosen_angles (repeat r n) (repeat p n) m = (r, p).
Proof.
  intros Hn. unfold chosen_angles. destruct m.
  - rewrite repeat_length.
    assert (Hlt : n / 2 < n) by (apply Nat.div_lt; lia).
    rewrite (nth_indep (repeat r n) 0%R r),
      (nth_indep (repeat p n) 0%R p) by now rewrite repeat_length.
    now rewrite !nth_repeat.
  - now rewrite !np_mean_repeat.
Qed.

(** X29: with one roll and one pitch throughout the scan, and no NaN among
    the point times, warping is rotating: [warp_cloud] and [rotate_cloud],
    in either mode, return the same arrays and leave the same store. *)
Theorem warp_cloud_constant_is_rotate_cloud (pt it : list float) (r p : R)
  (m : mode) (x y z : array) (xv yv zv : list R) (h : store) :
  read x h = (Ok xv, h) -> read y h = (Ok yv, h) -> read z h = (Ok zv, h) ->
  length xv = length pt -> length yv = length pt -> length zv = length pt ->
  2 <= length it -> Sorted fle it -> numbers pt ->
  let roll := repeat r (length it) in
  let pitch := repeat p (length it) in
  let out :=
    (Ok (Column (length h) 0, Column (length h) 1, Column (length h) 2),
     h ++ [Mat (map (apply_matrix (rotation r p)) (points xv yv zv))]) in
  warp_cloud pt x y z it roll pitch h = out /\
  rotate_cloud x y z roll pitch m h = out.
Proof.
  intros Hx Hy Hz Hlx Hly Hlz Hn Hs Hnum roll pitch out. split.
  - rewrite (warp_cloud_eval pt it roll pitch x y z xv yv zv h);
      trivial; try (unfold roll, pitch; rewrite repeat_length; lia).
    rewrite warped_rows by lia. unfold out. do 4 f_equal.
    rewrite <- (map_snd_combine pt (points xv yv zv)) at 2
      by (rewrite points_length; lia).
    rewrite map_map. apply map_ext_in. intros tp Htp. cbv zeta.
    assert (Ht : isnan (fst tp) = false).
    { unfold numbers in Hnum. rewrite Forall_forall in Hnum. apply Hnum.
      destruct tp as [t q]. now apply in_combine_l in Htp. }
    rewrite Ht.
    pose proof (count_lt_le (it_mid it) (fst tp)) as Hc.
    rewrite it_mid_length in Hc.
    unfold roll, pitch.
    rewrite (nth_indep (repeat r (length it)) 0%R r),
      (nth_indep (repeat p (length it)) 0%R p)
      by (rewrite repeat_length; lia).
    now rewrite !nth_repeat.
  - rewrite (rotate_cloud_eval x y z roll pitch m xv yv zv h); trivial;
      try lia.
    + unfold roll, pitch. rewrite chosen_angles_repeat by lia. reflexivity.
    + unfold roll. destruct (length it); [lia | discriminate].
    + unfold pitch. destruct (length it); [lia | discriminate].
    + intros _. unfold roll, pitch. rewrite !repeat_length.
      apply Nat.div_lt; lia.
Qed.

Lemma warp_cloud_constant_is_rotate_cloud_witness :
  warp_cloud (map Num [1; 4]%Q) (Whole 0) (Whole 1) (Whole 2)
    (map Num [0; 2; 6]%Q) (repeat 10%R 3) (repeat 20%R 3) store3
  = rotate_cloud (Whole 0) (Whole 1) (Whole 2)
      (repeat 10%R 3) (repeat 20%R 3) center store3.
Proof.
  assert (Hs : Sorted fle (map Num [0; 2; 6]%Q)) by repeat constructor.
  assert (Hnum : numbers (map Num [1; 4]%Q)) by repeat constructor.
  destruct (warp_cloud_constant_is_rotate_cloud (map Num [1; 4]%Q)
              (map Num [0; 2; 6]%Q)
              10%R 20%R center (Whole 0) (Whole 1) (Whole 2)
              [1; 2]%R [3; 4]%R [5; 6]%R store3
              eq_refl eq_refl eq_refl eq_refl eq_refl eq_refl
              ltac:(simpl; lia) Hs Hnum) as [Hw Hr].
  cbv zeta in Hw, Hr. simpl length in Hw, Hr.
  now rewrite Hw, Hr.
Defined.

End DriversMore.
